(** * Mazda creative checker: the [/api/count] core of [server.js]

    A shallow embedding of the text line-break detector, the per-frame
    aggregation of collected elements, the regex fallback for marker
    iframes, the response assembly and the element resolver
    [associateElementsForType], followed by the properties established
    about them.

    JavaScript strings are sequences of code units; the embedding works
    with the code units 0..255 ([ascii]).  Text that is walked character
    by character is a [list ascii]; identifiers, labels and URLs that are
    only compared or used as keys are [string]s. *)

From Stdlib Require Import Ascii String DecimalString List Arith Lia Bool.
From Stdlib Require Import Permutation SetoidList SetoidPermutation RelationClasses Morphisms.
From stdpp Require Import gmap strings list.

Open Scope string_scope.
Open Scope list_scope.
Open Scope nat_scope.

(** ** Strings *)

Abbreviation text := (list ascii).

Definition str (s : string) : text := list_ascii_of_string s.

(** [/\s/] on one code unit: TAB, LF, VT, FF, CR, SPACE and NBSP are the
    white-space code units below 256. *)
Definition isWhitespace (ch : ascii) : bool :=
  existsb (N.eqb (N_of_ascii ch)) [9; 10; 11; 12; 13; 32; 160]%N.

Definition space : ascii := " "%char.

Definition isQuote (ch : ascii) : bool :=
  existsb (N.eqb (N_of_ascii ch)) [34; 39]%N.

Definition isDigit (ch : ascii) : bool :=
  let n := N_of_ascii ch in ((48 <=? n) && (n <=? 57))%N.

(** [String.prototype.toLowerCase] on one code unit below 256.  On these
    units lower-casing keeps the number of code units; on wider text it need
    not (U+0130 becomes two units), so that a match in the lower-cased text
    can end beyond the offset map.  The statements about the search
    therefore say where the match lies in the map and do not rely on the
    length of the lower-cased text. *)
Definition toLowerChar (ch : ascii) : ascii :=
  let n := N_of_ascii ch in
  if ((65 <=? n) && (n <=? 90))%N then ascii_of_N (n + 32)
  else if ((192 <=? n) && (n <=? 222) && negb (n =? 215))%N then ascii_of_N (n + 32)
  else ch.

Definition toLowerCase (s : text) : text := map toLowerChar s.

Definition ascii_eqb (a b : ascii) : bool := Ascii.eqb a b.

Fixpoint startsWith (s t : text) : bool :=
  match t, s with
  | [], _ => true
  | _ :: _, [] => false
  | c :: t', d :: s' => ascii_eqb c d && startsWith s' t'
  end.

(** [s.indexOf(t, from)]: the first position at or after [from] where [t]
    occurs, [None] for -1.  The position is clamped to the length of [s],
    as the language does. *)
Fixpoint indexOfAux (t s : text) (pos : nat) : option nat :=
  if startsWith s t then Some pos
  else match s with
       | [] => None
       | _ :: s' => indexOfAux t s' (S pos)
       end.

Definition indexOf (s t : text) (from : nat) : option nat :=
  let k := Nat.min from (length s) in
  indexOfAux t (drop k s) k.

Definition includes (s t : text) : bool :=
  match indexOf s t 0 with Some _ => true | None => false end.

Definition endsWith (s t : text) : bool :=
  startsWith (rev s) (rev t).

(** [s.replace(/\s+/g, " ")]: every maximal run of white space becomes one
    space; [inRun] tells that the previous code unit was white space. *)
Fixpoint collapseRuns (inRun : bool) (s : text) : text :=
  match s with
  | [] => []
  | ch :: rest =>
      if isWhitespace ch then
        if inRun then collapseRuns true rest else space :: collapseRuns true rest
      else ch :: collapseRuns false rest
  end.

Fixpoint trimStart (s : text) : text :=
  match s with
  | [] => []
  | ch :: rest => if isWhitespace ch then trimStart rest else s
  end.

Definition trimEnd (s : text) : text := rev (trimStart (rev s)).

Definition trim (s : text) : text := trimEnd (trimStart s).

(** ** The text line-break detector *)

(** An element as the detector sees it: its id, its serialisation and the
    values of the text nodes below it in document order (what the
    [TreeWalker] with [SHOW_TEXT] yields).  A text node is named by its
    position in that list. *)
Record Element := {
  el_id : string;
  el_outerHTML : string;
  el_textNodes : list text
}.

Record MapEntry := { node : nat; offset : nat }.

Record NormState := {
  ns_normalized : text;
  ns_mapping : list MapEntry;
  ns_lastWasSpace : bool
}.

(** The body of the inner [for] loop of [buildNormalizedTextAndMap]. *)
Definition stepChar (nd i : nat) (ch : ascii) (st : NormState) : NormState :=
  if isWhitespace ch then
    if negb (ns_lastWasSpace st) && (0 <? length (ns_normalized st)) then
      {| ns_normalized := ns_normalized st ++ [space];
         ns_mapping := ns_mapping st ++ [{| node := nd; offset := i |}];
         ns_lastWasSpace := true |}
    else st
  else
    {| ns_normalized := ns_normalized st ++ [ch];
       ns_mapping := ns_mapping st ++ [{| node := nd; offset := i |}];
       ns_lastWasSpace := false |}.

Fixpoint scanText (nd : nat) (txt : text) (i : nat) (st : NormState) : NormState :=
  match txt with
  | [] => st
  | ch :: rest => scanText nd rest (S i) (stepChar nd i ch st)
  end.

Fixpoint walkNodes (nodes : list text) (nd : nat) (st : NormState) : NormState :=
  match nodes with
  | [] => st
  | txt :: rest => walkNodes rest (S nd) (scanText nd txt 0 st)
  end.

Definition dropLeadingSpace (p : text * list MapEntry) : text * list MapEntry :=
  match fst p with
  | ch :: rest => if ascii_eqb ch space then (rest, tail (snd p)) else p
  | [] => p
  end.

Definition dropTrailingSpace (p : text * list MapEntry) : text * list MapEntry :=
  match last (fst p) with
  | Some ch => if ascii_eqb ch space
               then (removelast (fst p), removelast (snd p)) else p
  | None => p
  end.

Definition buildNormalizedTextAndMap (element : Element) : text * list MapEntry :=
  let st := walkNodes (el_textNodes element) 0
              {| ns_normalized := []; ns_mapping := []; ns_lastWasSpace := false |} in
  dropTrailingSpace (dropLeadingSpace (ns_normalized st, ns_mapping st)).

(** A DOM range over the text nodes of the element. *)
Record Range := {
  startContainer : nat;
  range_startOffset : nat;
  endContainer : nat;
  range_endOffset : nat
}.

Record RangeResult := {
  range : Range;
  startNode : nat;
  startOffset : nat;
  endNode : nat;
  endOffset : nat
}.

(** [range.setStart(startNode, startOffset); range.setEnd(endNode, endOffset)]
    on a fresh range.  Either call throws when the offset exceeds the length
    of the node; [setEnd] with an end before the start collapses the range
    to the end. *)
Definition setStartEnd (element : Element) (sN sO eN eO : nat) : option Range :=
  match el_textNodes element !! sN, el_textNodes element !! eN with
  | Some stxt, Some etxt =>
      if (sO <=? length stxt) && (eO <=? length etxt) then
        if (eN <? sN) || ((eN =? sN) && (eO <? sO)) then
          Some {| startContainer := eN; range_startOffset := eO;
                  endContainer := eN; range_endOffset := eO |}
        else
          Some {| startContainer := sN; range_startOffset := sO;
                  endContainer := eN; range_endOffset := eO |}
      else None
  | _, _ => None
  end.

(** [phrase.replace(/\s+/g, " ").trim()], the normalization applied to a
    phrase. *)
Definition normalizePhrase (phrase : text) : text := trim (collapseRuns false phrase).

(** The search loop of [createRangeForPhraseRobust]: [occurrence + 1]
    calls of [indexOf], each from the end of the previous match. *)
Fixpoint findOccurrence (s t : text) (occurrence from : nat) : option nat :=
  match indexOf s t from with
  | None => None
  | Some idx =>
      match occurrence with
      | 0 => Some idx
      | S n => findOccurrence s t n (idx + length t)
      end
  end.

Definition createRangeForPhraseRobust (element : option Element) (phrase : text)
    (occurrence : nat) (caseInsensitive : bool) : option RangeResult :=
  match element, phrase with
  | None, _ | _, [] => None
  | Some el, _ :: _ =>
      let '(normalized, mapping) := buildNormalizedTextAndMap el in
      if length normalized =? 0 then None else
      let targetNorm := normalizePhrase phrase in
      let searchNormalized := if caseInsensitive then toLowerCase normalized else normalized in
      let targetToSearch := if caseInsensitive then toLowerCase targetNorm else targetNorm in
      match findOccurrence searchNormalized targetToSearch occurrence 0 with
      | None => None
      | Some idx =>
          let startIndex := idx in
          (* endIndex = idx + targetToSearch.length - 1, which is -1 (and
             indexes nothing) when the sum is 0 *)
          match idx + length targetToSearch with
          | 0 => None
          | S endIndex =>
              match mapping !! startIndex, mapping !! endIndex with
              | Some startMap, Some endMap =>
                  let sN := node startMap in
                  let sO := offset startMap in
                  let eN := node endMap in
                  let eO := offset endMap + 1 in
                  match setStartEnd el sN sO eN eO with
                  | None => None
                  | Some r =>
                      Some {| range := r; startNode := sN; startOffset := sO;
                              endNode := eN; endOffset := eO |}
                  end
              | _, _ => None
              end
          end
      end
  end.

Record PhraseOptions := { occurrence : nat; caseInsensitive : bool }.

Definition defaultOptions : PhraseOptions := {| occurrence := 0; caseInsensitive := false |}.

(** The model names looked for; only names with a space can wrap. *)
Definition mazdaModels : list string :=
  ["MAZDA CX-60"; "MAZDA CX-30"; "MAZDA2 HYBRID"; "MAZDA CX-80";
   "MAZDA MX-5"; "MAZDA CX-5"; "MAZDA MX-30"].

Section Detector.

(** The layout engine: the client rectangles of a range of an element. *)
Variable Rect : Type.
Variable getClientRects : Element -> Range -> list Rect.

(** The result object; [singleLine] is [null], [true] or [false]. *)
Record PhraseCheck := {
  found : bool;
  singleLine : option bool;
  rectsCount : nat;
  rects : list Rect
}.

Definition isPhraseSingleLineRobust (element : Element) (phrase : text)
    (options : PhraseOptions) : PhraseCheck :=
  match createRangeForPhraseRobust (Some element) phrase
          (occurrence options) (caseInsensitive options) with
  | None => {| found := false; singleLine := None; rectsCount := 0; rects := [] |}
  | Some res =>
      let rectList := getClientRects element (range res) in
      let rectsCount := length rectList in
      let singleLine := rectsCount =? 1 in
      {| found := true; singleLine := Some singleLine;
         rectsCount := rectsCount; rects := rectList |}
  end.

(** One entry of [brokenModels] / [allModelStatuses] of an element. *)
Record ModelStatus := {
  ms_model : string;
  ms_found : bool;
  ms_singleLine : option bool;
  ms_rectsCount : nat
}.

(** What [processElements] returns for one element; the two lists are
    [null] when empty. *)
Record ElementResult := {
  er_id : string;
  er_outerHTML : string;
  er_brokenModels : option (list ModelStatus);
  er_allModelStatuses : option (list ModelStatus)
}.

Definition checkOptions : PhraseOptions := {| occurrence := 0; caseInsensitive := true |}.

(** The loop of [checkElementForBrokenModels]; JS [!result.singleLine]
    holds for [false] and for [null]. *)
Definition checkElementForBrokenModels (element : Element) : list ModelStatus :=
  flat_map (fun model =>
    let result := isPhraseSingleLineRobust element (str model) checkOptions in
    if found result then
      match singleLine result with
      | Some true => []
      | _ => [{| ms_model := model; ms_found := true; ms_singleLine := Some false;
                 ms_rectsCount := rectsCount result |}]
      end
    else []) mazdaModels.

Definition allStatusesOf (element : Element) : list ModelStatus :=
  flat_map (fun model =>
    let result := isPhraseSingleLineRobust element (str model) checkOptions in
    if found result then
      [{| ms_model := model; ms_found := true; ms_singleLine := singleLine result;
          ms_rectsCount := rectsCount result |}]
    else []) mazdaModels.

Definition nullIfEmpty {A} (l : list A) : option (list A) :=
  match l with [] => None | _ => Some l end.

Definition processElements (elements : list Element) : list ElementResult :=
  map (fun el =>
    {| er_id := el_id el;
       er_outerHTML := String.substring 0 500 (el_outerHTML el);
       er_brokenModels := nullIfEmpty (checkElementForBrokenModels el);
       er_allModelStatuses := nullIfEmpty (allStatusesOf el) |}) elements.

End Detector.

Arguments found {Rect} _.
Arguments singleLine {Rect} _.
Arguments rectsCount {Rect} _.
Arguments rects {Rect} _.

(** ** Per-frame scan results and their aggregation *)

Inductive Category :=
  | frm1 | frm2 | frm3 | frm4 | frm1SL | frm2SL | frm3SL | frm4SL.

(** What the scan loop holds for one frame when it reaches the
    [isJvxBaseFrame || hasElements] test: the eight [matches*] variables
    ([null] after an evaluation error), the resolved label and the matched
    marker id. *)
Record FrameScan := {
  fs_frameUrl : string;
  fs_frameName : string;
  fs_matchedJvxBaseId : option string;
  fs_creativeVariation : string;
  fs_matches : option (list ElementResult);
  fs_matches2 : option (list ElementResult);
  fs_matches3 : option (list ElementResult);
  fs_matches4 : option (list ElementResult);
  fs_matchesSL1 : option (list ElementResult);
  fs_matchesSL2 : option (list ElementResult);
  fs_matchesSL3 : option (list ElementResult);
  fs_matchesSL4 : option (list ElementResult)
}.

(** One entry of [hlMatches]. *)
Record HlMatch := {
  frameUrl : string;
  frameName : string;
  creativeVariation : string;
  matches : list ElementResult;
  matches2 : list ElementResult;
  matches3 : list ElementResult;
  matches4 : list ElementResult;
  matchesSL1 : list ElementResult;
  matchesSL2 : list ElementResult;
  matchesSL3 : list ElementResult;
  matchesSL4 : list ElementResult
}.

(** [x || []] *)
Definition orEmpty {A} (x : option (list A)) : list A :=
  match x with Some l => l | None => [] end.

(** [x && x.length > 0] *)
Definition nonEmptyList {A} (l : list A) : bool :=
  match l with [] => false | _ => true end.

Definition truthy (s : string) : bool := negb (String.eqb s "").

(** [s || d] on strings *)
Definition orString (s d : string) : string := if truthy s then s else d.

Definition scanOf (c : Category) (f : FrameScan) : list ElementResult :=
  orEmpty match c with
  | frm1 => fs_matches f | frm2 => fs_matches2 f
  | frm3 => fs_matches3 f | frm4 => fs_matches4 f
  | frm1SL => fs_matchesSL1 f | frm2SL => fs_matchesSL2 f
  | frm3SL => fs_matchesSL3 f | frm4SL => fs_matchesSL4 f
  end.

Definition catOf (c : Category) (m : HlMatch) : list ElementResult :=
  match c with
  | frm1 => matches m | frm2 => matches2 m
  | frm3 => matches3 m | frm4 => matches4 m
  | frm1SL => matchesSL1 m | frm2SL => matchesSL2 m
  | frm3SL => matchesSL3 m | frm4SL => matchesSL4 m
  end.

Definition isJvxBaseFrame (f : FrameScan) : bool :=
  (truthy (fs_frameName f) && startsWith (str (fs_frameName f)) (str "jvxBase_"))
  || match fs_matchedJvxBaseId f with Some _ => true | None => false end.

Definition scanHasElements (f : FrameScan) : bool :=
  nonEmptyList (orEmpty (fs_matches f)) || nonEmptyList (orEmpty (fs_matches2 f))
  || nonEmptyList (orEmpty (fs_matches3 f)) || nonEmptyList (orEmpty (fs_matches4 f))
  || nonEmptyList (orEmpty (fs_matchesSL1 f)) || nonEmptyList (orEmpty (fs_matchesSL2 f))
  || nonEmptyList (orEmpty (fs_matchesSL3 f)) || nonEmptyList (orEmpty (fs_matchesSL4 f)).

(** [cv && cv !== 'N/A' && cv !== ''] *)
Definition mergeableLabel (cv : string) : bool :=
  truthy cv && negb (String.eqb cv "N/A") && negb (String.eqb cv "").

(** [arr.findIndex(p)], [None] for -1. *)
Fixpoint findIndex {A} (p : A -> bool) (l : list A) : option nat :=
  match l with
  | [] => None
  | x :: rest => if p x then Some 0 else option_map S (findIndex p rest)
  end.

(** The eight [existing.matches* = [...existing.matches*, ...matches*]]
    assignments. *)
Definition mergeLists (existing : HlMatch) (get : Category -> list ElementResult) : HlMatch :=
  {| frameUrl := frameUrl existing;
     frameName := frameName existing;
     creativeVariation := creativeVariation existing;
     matches := matches existing ++ get frm1;
     matches2 := matches2 existing ++ get frm2;
     matches3 := matches3 existing ++ get frm3;
     matches4 := matches4 existing ++ get frm4;
     matchesSL1 := matchesSL1 existing ++ get frm1SL;
     matchesSL2 := matchesSL2 existing ++ get frm2SL;
     matchesSL3 := matchesSL3 existing ++ get frm3SL;
     matchesSL4 := matchesSL4 existing ++ get frm4SL |}.

Definition newEntry (f : FrameScan) : HlMatch :=
  {| frameUrl := fs_frameUrl f;
     frameName := fs_frameName f;
     creativeVariation := orString (fs_creativeVariation f) "N/A";
     matches := scanOf frm1 f;
     matches2 := scanOf frm2 f;
     matches3 := scanOf frm3 f;
     matches4 := scanOf frm4 f;
     matchesSL1 := scanOf frm1SL f;
     matchesSL2 := scanOf frm2SL f;
     matchesSL3 := scanOf frm3SL f;
     matchesSL4 := scanOf frm4SL f |}.

(** The tail of one iteration of the frame loop: skip, merge into the entry
    of the same label, or push a new entry.  [hlMatches[existingIndex]] is
    updated in place. *)
Definition addFrame (hlMatches : list HlMatch) (f : FrameScan) : list HlMatch :=
  if isJvxBaseFrame f || scanHasElements f then
    let cv := fs_creativeVariation f in
    let existingIndex :=
      if mergeableLabel cv
      then findIndex (fun m => String.eqb (creativeVariation m) cv) hlMatches
      else None in
    match existingIndex with
    | Some i =>
        if mergeableLabel cv then
          match hlMatches !! i with
          | Some existing => <[i := mergeLists existing (fun c => scanOf c f)]> hlMatches
          | None => hlMatches
          end
        else hlMatches ++ [newEntry f]
    | None => hlMatches ++ [newEntry f]
    end
  else hlMatches.

Definition scanFrames (frames : list FrameScan) : list HlMatch :=
  fold_left addFrame frames [].

Definition hasElements (m : HlMatch) : bool :=
  nonEmptyList (matches m) || nonEmptyList (matches2 m)
  || nonEmptyList (matches3 m) || nonEmptyList (matches4 m)
  || nonEmptyList (matchesSL1 m) || nonEmptyList (matchesSL2 m)
  || nonEmptyList (matchesSL3 m) || nonEmptyList (matchesSL4 m).

Definition isValidCreativeVar (creativeVar : string) : bool :=
  truthy creativeVar && negb (String.eqb creativeVar "N/A")
  && negb (String.eqb creativeVar "")
  && negb (length (trim (str creativeVar)) =? 0).

(** The body of the [forEach] that builds [validHlMatches]; the state is
    the array and the set [seenCreativeVariations].  The entries pushed are
    the objects of [hlMatches] themselves, but a merge only writes to an
    entry pushed earlier, never to the one being visited, and [hlMatches]
    is not read again on the path to the response. *)
Definition filterStep (st : list HlMatch * gset string) (m : HlMatch)
    : list HlMatch * gset string :=
  let '(validHlMatches, seen) := st in
  let creativeVar := orString (creativeVariation m) "" in
  if isValidCreativeVar creativeVar then
    if negb (bool_decide (creativeVar ∈ seen)) then
      (validHlMatches ++ [m], {[creativeVar]} ∪ seen)
    else
      match findIndex (fun x => String.eqb (creativeVariation x) creativeVar) validHlMatches with
      | Some i =>
          match validHlMatches !! i with
          | Some existing =>
              (<[i := mergeLists existing (fun c => catOf c m)]> validHlMatches, seen)
          | None => st
          end
      | None => st
      end
  else if hasElements m then (validHlMatches ++ [m], seen)
  else st.

Definition filterValid (hlMatches : list HlMatch) : list HlMatch :=
  fst (fold_left filterStep hlMatches ([], ∅)).

(** The aggregation of one request: the frame loop, then the filter. *)
Definition aggregate (frames : list FrameScan) : list HlMatch :=
  filterValid (scanFrames frames).

(** ** Reports and the response *)

Record BrokenReport := {
  br_creativeVariation : string;
  br_elementId : string;
  br_elementType : string;
  br_brokenModels : list ModelStatus;
  br_outerHTML : string
}.

Record StatusReport := {
  sr_creativeVariation : string;
  sr_elementId : string;
  sr_elementType : string;
  sr_modelStatuses : list ModelStatus;
  sr_outerHTML : string
}.

Definition allElementArrays (m : HlMatch) : list ElementResult :=
  matches m ++ matches2 m ++ matches3 m ++ matches4 m
  ++ matchesSL1 m ++ matchesSL2 m ++ matchesSL3 m ++ matchesSL4 m.

Definition elementTypeOf (id : string) : string :=
  if truthy id && includes (str id) (str "_HL_") then "HL" else "SL".

Definition brokenReports (validHlMatches : list HlMatch) : list BrokenReport :=
  flat_map (fun m =>
    flat_map (fun element =>
      match er_brokenModels element with
      | Some (b :: bs) =>
          [{| br_creativeVariation := orString (creativeVariation m) "N/A";
              br_elementId := orString (er_id element) "Unknown";
              br_elementType := elementTypeOf (er_id element);
              br_brokenModels := b :: bs;
              br_outerHTML := er_outerHTML element |}]
      | _ => []
      end) (allElementArrays m)) validHlMatches.

Definition statusReports (validHlMatches : list HlMatch) : list StatusReport :=
  flat_map (fun m =>
    flat_map (fun element =>
      match er_allModelStatuses element with
      | Some (b :: bs) =>
          [{| sr_creativeVariation := orString (creativeVariation m) "N/A";
              sr_elementId := orString (er_id element) "Unknown";
              sr_elementType := elementTypeOf (er_id element);
              sr_modelStatuses := b :: bs;
              sr_outerHTML := er_outerHTML element |}]
      | _ => []
      end) (allElementArrays m)) validHlMatches.

Record JvxFrame := { jf_id : string; jf_src : string }.

Record Response := {
  ok : bool;
  count : nat;
  frames : list JvxFrame;
  hlMatches : list HlMatch;
  brokenModels : list BrokenReport;
  allModelStatuses : list StatusReport
}.

Definition buildResponse (jvxFrames : list JvxFrame) (hl : list HlMatch) : Response :=
  let validHlMatches := filterValid hl in
  {| ok := true;
     count := length jvxFrames;
     frames := jvxFrames;
     hlMatches := validHlMatches;
     brokenModels := brokenReports validHlMatches;
     allModelStatuses := statusReports validHlMatches |}.

(** ** Collecting the elements of one frame *)

Definition categoryPrefix (c : Category) : string :=
  match c with
  | frm1 => "frm1_HL_" | frm2 => "frm2_HL_" | frm3 => "frm3_HL_" | frm4 => "frm4_HL_"
  | frm1SL => "frm1_SL_" | frm2SL => "frm2_SL_" | frm3SL => "frm3_SL_" | frm4SL => "frm4_SL_"
  end.

(** [document.querySelectorAll('[id^="prefix"]')] over the elements of a
    document in document order. *)
Definition querySelectorAllIdPrefix (doc : list Element) (prefix : string) : list Element :=
  List.filter (fun el => startsWith (str (el_id el)) (str prefix)) doc.

Section Collector.

Variable Rect : Type.
Variable getClientRects : Element -> Range -> list Rect.

Definition scanDocument (doc : list Element) (c : Category) : list ElementResult :=
  processElements Rect getClientRects (querySelectorAllIdPrefix doc (categoryPrefix c)).

(** The variables of the scan loop after [f.evaluate] for a frame whose
    label has been resolved to [cv]; [doc = None] when the evaluation
    threw (cross-origin frame). *)
Definition frameScanOf (url name : string) (matched : option string) (cv : string)
    (doc : option (list Element)) : FrameScan :=
  match doc with
  | Some d =>
      {| fs_frameUrl := url; fs_frameName := name; fs_matchedJvxBaseId := matched;
         fs_creativeVariation := cv;
         fs_matches := Some (scanDocument d frm1);
         fs_matches2 := Some (scanDocument d frm2);
         fs_matches3 := Some (scanDocument d frm3);
         fs_matches4 := Some (scanDocument d frm4);
         fs_matchesSL1 := Some (scanDocument d frm1SL);
         fs_matchesSL2 := Some (scanDocument d frm2SL);
         fs_matchesSL3 := Some (scanDocument d frm3SL);
         fs_matchesSL4 := Some (scanDocument d frm4SL) |}
  | None =>
      {| fs_frameUrl := url; fs_frameName := name; fs_matchedJvxBaseId := matched;
         fs_creativeVariation := "";
         fs_matches := None; fs_matches2 := None; fs_matches3 := None;
         fs_matches4 := None; fs_matchesSL1 := None; fs_matchesSL2 := None;
         fs_matchesSL3 := None; fs_matchesSL4 := None |}
  end.

End Collector.

(** ** The regex fallback for marker iframes *)

Inductive RegexItem :=
  | Lit (c : ascii)
  | OneOf (p : ascii -> bool)
  | PlusOf (p : ascii -> bool).

(** A backtracking matcher anchored at the head of [s]; the result is the
    number of code units consumed.  [PlusOf] is greedy: it takes one more
    unit whenever the whole rest still matches that way. *)
Fixpoint matchItems (items : list RegexItem) (s : text) : option nat :=
  match items with
  | [] => Some 0
  | Lit c :: rest =>
      match s with
      | d :: s' => if ascii_eqb c d then option_map S (matchItems rest s') else None
      | [] => None
      end
  | OneOf p :: rest =>
      match s with
      | d :: s' => if p d then option_map S (matchItems rest s') else None
      | [] => None
      end
  | PlusOf p :: rest =>
      (fix plus (s : text) : option nat :=
         match s with
         | d :: s' =>
             if p d then
               match plus s' with
               | Some n => Some (S n)
               | None => option_map S (matchItems rest s')
               end
             else None
         | [] => None
         end) s
  end.

Definition notQuote (ch : ascii) : bool := negb (isQuote ch).

(** The marker pattern: [id=], a double or single quote, then group 1 made
    of [jvxBase_] and one or more units that are not quotes, then a quote. *)
Definition markerPattern : list RegexItem :=
  map Lit (str "id=") ++ [OneOf isQuote] ++ map Lit (str "jvxBase_")
  ++ [PlusOf notQuote; OneOf isQuote].

(** Group 1 of a match of [markerPattern] of length [n] at the head of [s]:
    what lies between the four units of [id=] and the opening quote, and the
    closing quote. *)
Definition markerGroup (s : text) (n : nat) : text := take (n - 5) (drop 4 s).

(** [Array.from(html.matchAll(re)).map(m => m[1])] for the global pattern:
    the search resumes at the end of the previous match, so [skip] counts
    the code units of that match still to pass over. *)
Fixpoint matchAllMarkers (skip : nat) (s : text) : list text :=
  match s with
  | [] => []
  | _ :: s' =>
      match skip with
      | S k => matchAllMarkers k s'
      | 0 =>
          match matchItems markerPattern s with
          | Some n => markerGroup s n :: matchAllMarkers (n - 1) s'
          | None => matchAllMarkers 0 s'
          end
      end
  end.

(** Step 4 of the handler; [content = None] when [page.content()] throws. *)
Definition regexFallback (jvxFrames : list JvxFrame) (content : option text) : list JvxFrame :=
  if length jvxFrames =? 0 then
    match content with
    | Some html =>
        let ids := matchAllMarkers 0 html in
        map (fun id => {| jf_id := string_of_list_ascii id; jf_src := "" |}) ids
    | None => jvxFrames
    end
  else jvxFrames.

(** ** Control flow of the handler *)

Inductive Body :=
  | Success (response : Response)
  | Failure (error : string).

(** A statement sequence either goes on, has returned a response with a
    status code, or has thrown. *)
Inductive Flow (A : Type) :=
  | Next (a : A)
  | Returned (status : nat) (body : Body)
  | Thrown (message : string).

Arguments Next {A} _.
Arguments Returned {A} _ _.
Arguments Thrown {A} _.

Definition andThen {A B} (m : Flow A) (k : A -> Flow B) : Flow B :=
  match m with
  | Next a => k a
  | Returned st b => Returned st b
  | Thrown e => Thrown e
  end.

#[global] Instance flow_bind : MBind Flow := fun A B k m => andThen m k.
#[global] Instance flow_ret : MRet Flow := fun A a => Next a.

(** [return res.json(response)] *)
Definition return_json (response : Response) : Flow unit :=
  Returned 200 (Success response).

(** The handler from the fallback detection on.  [afterReturn] stands for
    the statements that follow the first [return res.json(response)]: the
    element collection by marker id, [associateElementsForType] and the
    assembly of [creatives]. *)
Definition respond (jvxFrames : list JvxFrame) (content : option text)
    (hl : list HlMatch) (afterReturn : Flow unit) : Flow unit :=
  jvxFrames' ← mret (regexFallback jvxFrames content);
  response ← mret (buildResponse jvxFrames' hl);
  return_json response ;;
  afterReturn.

(** ** The element resolver (the statements after the first return) *)

(** [elementWithFrame]: a collected element with its frame. *)
Record CollectedElement := {
  ce_id : string;
  ce_outerHTML : string;
  ce_brokenModels : option (list ModelStatus);
  ce_allModelStatuses : option (list ModelStatus);
  ce_frameUrl : string;
  ce_frameName : string;
  ce_jvxBaseId : string
}.

Record FrameElements := {
  fe_frm1 : list CollectedElement;
  fe_frm2 : list CollectedElement;
  fe_frm3 : list CollectedElement;
  fe_frm4 : list CollectedElement
}.

Record Title := {
  t_text : string;
  t_originalText : string;
  t_containerIndex : option nat
}.

Definition isWordChar (ch : ascii) : bool :=
  let n := N_of_ascii ch in
  (((48 <=? n) && (n <=? 57)) || ((65 <=? n) && (n <=? 90))
   || ((97 <=? n) && (n <=? 122)) || (n =? 95))%N.

(** [s.match(re)] for a pattern without the global flag: the leftmost
    match, as the matched text. *)
Fixpoint firstMatch (items : list RegexItem) (s : text) : option text :=
  match matchItems items s with
  | Some n => Some (take n s)
  | None => match s with
            | [] => None
            | _ :: s' => firstMatch items s'
            end
  end.

(** The marker id of an [hlMatches] entry: its frame name when that starts
    with [jvxBase_], else the first [jvxBase_\w+] of its URL, else empty. *)
Definition jvxBaseIdOf (m : HlMatch) : string :=
  if truthy (frameName m) && startsWith (str (frameName m)) (str "jvxBase_")
  then frameName m
  else if truthy (frameUrl m) then
    match firstMatch (map Lit (str "jvxBase_") ++ [PlusOf isWordChar]) (str (frameUrl m)) with
    | Some u => string_of_list_ascii u
    | None => ""
    end
  else "".

Definition withFrame (m : HlMatch) (jvxBaseId : string) (e : ElementResult) : CollectedElement :=
  {| ce_id := er_id e;
     ce_outerHTML := er_outerHTML e;
     ce_brokenModels := er_brokenModels e;
     ce_allModelStatuses := er_allModelStatuses e;
     ce_frameUrl := orString (frameUrl m) "";
     ce_frameName := orString (frameName m) "";
     ce_jvxBaseId := jvxBaseId |}.

(** The inner [forEach] that collects one category of one entry; the state
    is the array [allHLElements*] and the set [uniqueElementIds*]. *)
Definition collectStep (m : HlMatch) (jvxBaseId : string)
    (st : list CollectedElement * gset string) (e : ElementResult)
    : list CollectedElement * gset string :=
  if truthy (er_id e) && negb (bool_decide (er_id e ∈ snd st))
  then (fst st ++ [withFrame m jvxBaseId e], {[er_id e]} ∪ snd st)
  else st.

(** The outer [hlMatches.forEach] for one category [get]; entries without a
    marker id are skipped. *)
Definition collectEntry (get : HlMatch -> list ElementResult)
    (st : list CollectedElement * gset string) (m : HlMatch)
    : list CollectedElement * gset string :=
  let jvxBaseId := jvxBaseIdOf m in
  if truthy jvxBaseId then fold_left (collectStep m jvxBaseId) (get m) st else st.

Definition collectAll (get : HlMatch -> list ElementResult) (hl : list HlMatch)
    : list CollectedElement :=
  fst (fold_left (collectEntry get) hl ([], ∅)).

(** A number in a template string. *)
Definition showNat (n : nat) : string := NilZero.string_of_uint (Nat.to_uint n).

(** A possibly [undefined] number in a template string. *)
Definition showIndex (i : option nat) : string :=
  match i with Some n => showNat n | None => "undefined" end.

Definition containerKeyOf (titleText : string) (i : option nat) : string :=
  (titleText ++ "__container_" ++ showIndex i)%string.

(** [arr.find(p)] *)
Definition findFirst {A} (p : A -> bool) (l : list A) : option A :=
  List.find p l.

Fixpoint dropUntilDigit (s : text) : text :=
  match s with
  | [] => []
  | ch :: rest => if isDigit ch then s else dropUntilDigit rest
  end.

Fixpoint takeDigits (s : text) : text :=
  match s with
  | [] => []
  | ch :: rest => if isDigit ch then ch :: takeDigits rest else []
  end.

(** [titleText.match(/\d+/)]: the first maximal run of digits. *)
Definition firstNumber (titleText : string) : option text :=
  match takeDigits (dropUntilDigit (str titleText)) with
  | [] => None
  | num => Some num
  end.

Section Resolver.

(** The arguments of one call, and [previewVariationTitles], which the
    function reads from its enclosing scope. *)
Variable titleText : string.
Variable titleFrame : string.
Variable idx : nat.
Variable containerIndex : option nat.
Variable elementType : string.
Variable allElements : list CollectedElement.
Variable creativeAssociationsMap : gmap string (list string).
Variable prefix : string.
Variable elementsByJvxBaseId : gmap string FrameElements.
Variable titleFrameMap : gmap string string.
Variable previewVariationTitles : list Title.

Definition isUnused (used : gset string) (el : CollectedElement) : bool :=
  negb (bool_decide (ce_id el ∈ used)).

Definition unusedOf (used : gset string) : list CollectedElement :=
  List.filter (isUnused used) allElements.

(** Strategy 1: the first unused element of the container's marker iframe. *)
Definition strategy1 (used : gset string) : option CollectedElement :=
  let containerKey := containerKeyOf titleText containerIndex in
  match titleFrameMap !! ("jvxBase_" ++ containerKey)%string with
  | Some jvxBaseId =>
      if truthy jvxBaseId then
        match elementsByJvxBaseId !! jvxBaseId with
        | Some frameElements =>
            let frameElementsForType :=
              if String.eqb elementType "frm1" then fe_frm1 frameElements
              else if String.eqb elementType "frm2" then fe_frm2 frameElements
              else if String.eqb elementType "frm3" then fe_frm3 frameElements
              else if String.eqb elementType "frm4" then fe_frm4 frameElements
              else [] in
            findFirst (isUnused used) frameElementsForType
        | None => None
        end
      else None
  | None => None
  end.

(** Strategy 2: the element at the container index. *)
Definition strategy2 (used : gset string) : option CollectedElement :=
  match containerIndex with
  | Some ci =>
      if (0 <? length allElements) && (ci <? length allElements) then
        match allElements !! ci with
        | Some elementAtIndex =>
            if isUnused used elementAtIndex then Some elementAtIndex else None
        | None => None
        end
      else None
  | None => None
  end.

(** Strategy 3: the first associated id that names an unused element. *)
Fixpoint firstAssociated (used : gset string) (associatedIds : list string)
    : option CollectedElement :=
  match associatedIds with
  | [] => None
  | elementId :: rest =>
      match findFirst (fun el => String.eqb (ce_id el) elementId && isUnused used el)
              allElements with
      | Some fullElement => Some fullElement
      | None => firstAssociated used rest
      end
  end.

Definition strategy3 (used : gset string) : option CollectedElement :=
  let associationKey :=
    containerKeyOf titleText
      (match containerIndex with Some ci => Some ci | None => Some idx end) in
  match creativeAssociationsMap !! associationKey with
  | Some associatedIds => firstAssociated used associatedIds
  | None => None
  end.

(** Strategy 4: an unused element whose id contains the first number of
    the title, preferring the number next to a separator. *)
Definition isExactMatch (numStr : text) (el : CollectedElement) : bool :=
  let id := str (ce_id el) in
  includes id (str "-" ++ numStr) || includes id (str "_" ++ numStr)
  || includes id (numStr ++ str "-") || includes id (numStr ++ str "_")
  || includes id (str "x" ++ numStr) || includes id (numStr ++ str "x")
  || endsWith id numStr || includes id (str prefix ++ numStr).

Definition strategy4 (unusedElements : list CollectedElement) : option CollectedElement :=
  match firstNumber titleText with
  | Some numStr =>
      let matchingElements :=
        List.filter (fun el => truthy (ce_id el) && includes (str (ce_id el)) numStr)
          unusedElements in
      match matchingElements with
      | [] => None
      | first :: _ =>
          match findFirst (isExactMatch numStr) matchingElements with
          | Some exactMatch => Some exactMatch
          | None => Some first
          end
      end
  | None => None
  end.

(** Strategy 5: an unused element of the title's frame. *)
Definition strategy5 (unusedElements : list CollectedElement) : option CollectedElement :=
  if truthy titleFrame then
    let sameFrameElements :=
      List.filter (fun el => String.eqb (ce_frameUrl el) titleFrame) unusedElements in
    match sameFrameElements with
    | [] => None
    | first :: _ =>
        let frameTitleIndex :=
          findIndex (fun t => String.eqb (t_text t) titleText)
            (List.filter (fun t =>
               String.eqb (orString (default "" (titleFrameMap !! t_text t)) "") titleFrame)
               previewVariationTitles) in
        match frameTitleIndex with
        | Some i =>
            match sameFrameElements !! i with
            | Some el => Some el
            | None => Some first
            end
        | None => Some first
        end
    end
  else None.

(** Strategy 6: the unused element at [idx % unusedElements.length]. *)
Definition strategy6 (unusedElements : list CollectedElement) : option CollectedElement :=
  if 0 <? length unusedElements then
    let elementIndex := idx mod length unusedElements in
    unusedElements !! elementIndex
  else None.

(** One [if (creativeElements.length === 0) { ... }] block: when nothing has
    been selected yet and the strategy picks an element, select it and
    mark its id as used. *)
Definition attempt (st : list CollectedElement * gset string)
    (pick : option CollectedElement) : list CollectedElement * gset string :=
  match fst st with
  | [] =>
      match pick with
      | Some el => ([el], {[ce_id el]} ∪ snd st)
      | None => st
      end
  | _ :: _ => st
  end.

(** The final deduplication by id, which also drops an empty id. *)
Fixpoint dedupById (seen : gset string) (l : list CollectedElement) : list CollectedElement :=
  match l with
  | [] => []
  | el :: rest =>
      if truthy (ce_id el) && negb (bool_decide (ce_id el ∈ seen))
      then el :: dedupById ({[ce_id el]} ∪ seen) rest
      else dedupById seen rest
  end.

(** The function returns [finalUniqueElements] and has updated
    [usedElementSet]; both are returned here. *)
Definition associateElementsForType (usedElementSet : gset string)
    : list CollectedElement * gset string :=
  let unusedElements := unusedOf usedElementSet in
  let st := attempt ([], usedElementSet) (strategy1 usedElementSet) in
  let st := attempt st (strategy2 (snd st)) in
  let st := attempt st (strategy3 (snd st)) in
  let st := attempt st (strategy4 unusedElements) in
  let st := attempt st (strategy5 unusedElements) in
  let st := attempt st (strategy6 unusedElements) in
  (dedupById ∅ (fst st), snd st).

End Resolver.

(** The arguments of one call of the resolver, the used-id set apart. *)
Record Call := {
  c_titleText : string;
  c_titleFrame : string;
  c_idx : nat;
  c_containerIndex : option nat;
  c_elementType : string;
  c_allElements : list CollectedElement;
  c_creativeAssociationsMap : gmap string (list string);
  c_prefix : string;
  c_elementsByJvxBaseId : gmap string FrameElements;
  c_titleFrameMap : gmap string string;
  c_previewVariationTitles : list Title
}.

Definition runCall (c : Call) (used : gset string) : list CollectedElement * gset string :=
  associateElementsForType (c_titleText c) (c_titleFrame c) (c_idx c) (c_containerIndex c)
    (c_elementType c) (c_allElements c) (c_creativeAssociationsMap c) (c_prefix c)
    (c_elementsByJvxBaseId c) (c_titleFrameMap c) (c_previewVariationTitles c) used.

(** A sequence of calls for one category sharing one used-id set: the
    results in call order, and the final set. *)
Fixpoint runCalls (calls : list Call) (used : gset string)
    : list (list CollectedElement) * gset string :=
  match calls with
  | [] => ([], used)
  | c :: rest =>
      let '(result, used') := runCall c used in
      let '(results, final) := runCalls rest used' in
      (result :: results, final)
  end.

Definition idsOf (l : list CollectedElement) : list string := map ce_id l.

(** ** Notions used in the statements: the detector *)



(** [okFrom blocked s]: every white-space code unit of [s] is a plain space
    and stands where one is allowed; [blocked] tells that the next unit may
    not be white space (at the start of the text and right after a space). *)
Fixpoint okFrom (blocked : bool) (s : text) : bool :=
  match s with
  | [] => true
  | ch :: rest =>
      if isWhitespace ch
      then ascii_eqb ch space && negb blocked && okFrom true rest
      else okFrom false rest
  end.

(** The normalized form: runs of white space collapsed to single spaces, no
    leading and no trailing white space. *)
Definition isNormalizedForm (s : text) : bool :=
  okFrom true s
  && match last s with Some ch => negb (isWhitespace ch) | None => true end.

(** What the scan state must satisfy for a space to be appended. *)
Definition scanReady (blocked : bool) (st : NormState) : Prop :=
  blocked = false -> ns_lastWasSpace st = false /\ 0 < length (ns_normalized st).

(** What the scan maintains about the text built so far: it is well
    spaced, and when the last unit appended was not a space the text does
    not end in white space. *)
Definition scanWellSpaced (st : NormState) : Prop :=
  okFrom true (ns_normalized st) = true
  /\ (ns_lastWasSpace st = false ->
      match last (ns_normalized st) with
      | Some ch => negb (isWhitespace ch)
      | None => true
      end = true).

(** ** Notions used in the statements: the regex fallback *)

(** The double quote. *)
Definition dq : ascii := ascii_of_N 34.

(** The text of an id attribute in double quotes. *)
Definition idAttribute (id : string) : text := str "id=" ++ [dq] ++ str id ++ [dq].

(** The marker pattern matches at position [q] of [html]. *)
Definition markerAt (html : text) (q : nat) : bool :=
  match matchItems markerPattern (drop q html) with Some _ => true | None => false end.

(** The number of positions of [s] at which [t] occurs. *)
Definition countOccurrences (t s : text) : nat :=
  length (List.filter (fun q => startsWith (drop q s) t) (seq 0 (S (length s)))).

(** ** Notions used in the statements: the aggregation *)

(** The label under which a frame is entered into [hlMatches]. *)
Definition labelOf (f : FrameScan) : string := orString (fs_creativeVariation f) "N/A".

(** The test [isJvxBaseFrame || hasElements] of the frame loop. *)
Definition keepsFrame (f : FrameScan) : bool := isJvxBaseFrame f || scanHasElements f.

(** A frame is entered under the label [L]. *)
Definition entersUnder (L : string) (f : FrameScan) : bool :=
  keepsFrame f && String.eqb (fs_creativeVariation f) L.

Definition hasLabel (cv : string) (m : HlMatch) : bool :=
  String.eqb (creativeVariation m) cv.

(** The entries the filter lets through when no label repeats. *)
Definition keepEntry (m : HlMatch) : bool :=
  isValidCreativeVar (orString (creativeVariation m) "") || hasElements m.

(** The entries whose label is one that entries are merged under. *)
Definition mergeableEntry (m : HlMatch) : bool := mergeableLabel (creativeVariation m).

(** [arr[arr.findIndex(p)] = g(arr[arr.findIndex(p)])] as a recursion on the
    array. *)
Fixpoint updateFirst {A} (p : A -> bool) (g : A -> A) (l : list A) : list A :=
  match l with
  | [] => []
  | x :: rest => if p x then g x :: rest else x :: updateFirst p g rest
  end.

Definition mergeFrame (f : FrameScan) (m : HlMatch) : HlMatch :=
  mergeLists m (fun c => scanOf c f).

(** No label that entries are merged under occurs twice. *)
Definition uniqueLabels (hl : list HlMatch) : Prop :=
  forall cv, mergeableLabel cv = true -> length (List.filter (hasLabel cv) hl) <= 1.

(** Two records agree when they carry the same label and, in every
    category, the same elements up to their order. *)
Definition recEquiv (m1 m2 : HlMatch) : Prop :=
  creativeVariation m1 = creativeVariation m2
  /\ forall c, Permutation (catOf c m1) (catOf c m2).

(** The same set of records, each up to [recEquiv]. *)
Definition sameRecords (l1 l2 : list HlMatch) : Prop := PermutationA recEquiv l1 l2.

(** The ids of one category over all records of an output. *)
Definition idsOfCategory (c : Category) (hl : list HlMatch) : list string :=
  map er_id (concat (map (catOf c) hl)).

(** ** Notions used in the statements: the resolver *)

(** What has been selected so far: nothing, or one element that was
    unused on entry and is now marked. *)
Definition selection (used : gset string) (st : list CollectedElement * gset string) : Prop :=
  (fst st = [] /\ snd st = used)
  \/ exists el, fst st = [el] /\ isUnused used el = true /\ snd st = {[ce_id el]} ∪ used.

(** The element the strategies select, tried in order: the first strategy
    that yields one wins. *)
Definition firstPick (c : Call) (used : gset string) : option CollectedElement :=
  let unusedElements := unusedOf (c_allElements c) used in
  match strategy1 (c_titleText c) (c_containerIndex c) (c_elementType c)
          (c_elementsByJvxBaseId c) (c_titleFrameMap c) used with
  | Some el => Some el
  | None =>
  match strategy2 (c_containerIndex c) (c_allElements c) used with
  | Some el => Some el
  | None =>
  match strategy3 (c_titleText c) (c_idx c) (c_containerIndex c) (c_allElements c)
          (c_creativeAssociationsMap c) used with
  | Some el => Some el
  | None =>
  match strategy4 (c_titleText c) (c_prefix c) unusedElements with
  | Some el => Some el
  | None =>
  match strategy5 (c_titleText c) (c_titleFrame c) (c_titleFrameMap c)
          (c_previewVariationTitles c) unusedElements with
  | Some el => Some el
  | None => strategy6 (c_idx c) unusedElements
  end end end end end.

(** All five strategies before the last one select nothing. *)
Definition earlierStrategiesFail (c : Call) (used : gset string) : Prop :=
  strategy1 (c_titleText c) (c_containerIndex c) (c_elementType c)
    (c_elementsByJvxBaseId c) (c_titleFrameMap c) used = None
  /\ strategy2 (c_containerIndex c) (c_allElements c) used = None
  /\ strategy3 (c_titleText c) (c_idx c) (c_containerIndex c) (c_allElements c)
       (c_creativeAssociationsMap c) used = None
  /\ strategy4 (c_titleText c) (c_prefix c) (unusedOf (c_allElements c) used) = None
  /\ strategy5 (c_titleText c) (c_titleFrame c) (c_titleFrameMap c)
       (c_previewVariationTitles c) (unusedOf (c_allElements c) used) = None.

Definition frameElementsOf (fe : FrameElements) : list CollectedElement :=
  fe_frm1 fe ++ fe_frm2 fe ++ fe_frm3 fe ++ fe_frm4 fe.

(** Every element handed to the resolver has a non-empty id, as the
    collection by marker id guarantees. *)
Definition idsNonEmpty (c : Call) : Prop :=
  Forall (fun el => ce_id el <> "") (c_allElements c)
  /\ forall j fe, c_elementsByJvxBaseId c !! j = Some fe ->
       Forall (fun el => ce_id el <> "") (frameElementsOf fe).

(** What the collection by marker id maintains: the ids collected so far
    are distinct, not empty and recorded in the set. *)
Definition collected (st : list CollectedElement * gset string) : Prop :=
  NoDup (idsOf (fst st))
  /\ (forall id, In id (idsOf (fst st)) -> id ∈ snd st)
  /\ Forall (fun el => ce_id el <> "") (fst st).

(** ** Sample inputs *)

Definition sampleEl : Element :=
  {| el_id := "frm1_HL_x"; el_outerHTML := "<div id=frm1_HL_x>";
     el_textNodes := [str "  Der neue  "; str "MAZDA   CX-60 "] |}.

(** A layout in which every range lies on one line, one in which every
    range is invisible, and one in which every range wraps once. *)
Definition oneLine : Element -> Range -> list unit := fun _ _ => [tt].
Definition twoLines : Element -> Range -> list unit := fun _ _ => [tt; tt].

Definition sampleHtml : text := str "<i " ++ idAttribute "jvxBase_xyz" ++ str ">".

(** A page with two marker attributes. *)
Definition twoMarkersHtml : text :=
  str "<b " ++ idAttribute "jvxBase_xyz" ++ str "></b><b "
  ++ idAttribute "jvxBase_abc" ++ str "></b>".

(** Two frames whose documents both hold an element with the id
    [frm1_HL_a], under the same label. *)
Definition sampleDoc : list Element :=
  [{| el_id := "frm1_HL_a"; el_outerHTML := "<div id=frm1_HL_a>";
      el_textNodes := [str "MAZDA CX-60"] |}].

Definition sampleFrameA : FrameScan :=
  frameScanOf unit oneLine "https://preview.example/a" "jvxBase_1" (Some "jvxBase_1")
    "Char_Limit-10" (Some sampleDoc).

Definition sampleFrameB : FrameScan :=
  frameScanOf unit oneLine "https://preview.example/b" "jvxBase_2" (Some "jvxBase_2")
    "Char_Limit-10" (Some sampleDoc).

(** The documented scenario: the marker iframe
    [jvxBase_abc] of the container titled [Char_Limit-10] holds one
    [frm1_HL_x] element showing the model name. *)
Definition scenarioFrame : FrameScan :=
  frameScanOf unit twoLines "https://preview.example/abc" "jvxBase_abc" (Some "jvxBase_abc")
    "Char_Limit-10"
    (Some [{| el_id := "frm1_HL_x"; el_outerHTML := "<div id=frm1_HL_x>";
              el_textNodes := [str "MAZDA CX-60"] |}]).

Definition sampleCollected (id : string) : CollectedElement :=
  {| ce_id := id; ce_outerHTML := ""; ce_brokenModels := None;
     ce_allModelStatuses := None; ce_frameUrl := "https://preview.example/frame";
     ce_frameName := "jvxBase_1"; ce_jvxBaseId := "jvxBase_1" |}.

Definition sampleElements : list CollectedElement :=
  [sampleCollected "frm1_HL_a"; sampleCollected "frm1_HL_b"; sampleCollected "frm1_HL_c"].

(** A call for a container titled [Alpha] with no marker iframe, no DOM
    association and no title frame. *)
Definition sampleCall (idx : nat) (containerIndex : option nat) : Call :=
  {| c_titleText := "Alpha"; c_titleFrame := ""; c_idx := idx;
     c_containerIndex := containerIndex; c_elementType := "frm1";
     c_allElements := sampleElements; c_creativeAssociationsMap := ∅;
     c_prefix := "frm1_HL_"; c_elementsByJvxBaseId := ∅; c_titleFrameMap := ∅;
     c_previewVariationTitles := [] |}.

(** ** Further notions: the detector *)

(** The character [ch] of the normalized text stands for the code unit of
    the entry: that unit itself, or a space when the unit is white space. *)
Definition mapsTo (nodes : list text) (ch : ascii) (e : MapEntry) : Prop :=
  exists txt orig,
    nodes !! node e = Some txt /\ txt !! offset e = Some orig
    /\ ch = if isWhitespace orig then space else orig.

(** Document order on the positions of code units. *)
Definition entryLt (e1 e2 : MapEntry) : Prop :=
  node e1 < node e2 \/ (node e1 = node e2 /\ offset e1 < offset e2).

Definition increasing (m : list MapEntry) : Prop :=
  forall i j ei ej, i < j -> m !! i = Some ei -> m !! j = Some ej -> entryLt ei ej.

(** The text the search runs on, and the text searched for. *)
Definition searchText (element : Element) (ci : bool) : text :=
  let normalized := fst (buildNormalizedTextAndMap element) in
  if ci then toLowerCase normalized else normalized.

Definition searchTarget (phrase : text) (ci : bool) : text :=
  if ci then toLowerCase (normalizePhrase phrase) else normalizePhrase phrase.

(** The scan has reached the code unit [i] of the node [nd]: the map built
    so far is increasing and lies before that position. *)
Definition scannedUpTo (nd i : nat) (m : list MapEntry) : Prop :=
  increasing m /\ Forall (fun e => entryLt e {| node := nd; offset := i |}) m.

(** A detected model that is not on a single line, and the entry the
    broken-model list holds for it. *)
Definition notSingleLine (s : ModelStatus) : bool :=
  match ms_singleLine s with Some true => false | _ => true end.

Definition asBroken (s : ModelStatus) : ModelStatus :=
  {| ms_model := ms_model s; ms_found := true; ms_singleLine := Some false;
     ms_rectsCount := ms_rectsCount s |}.


(** ** Further notions: the filter *)

(** What holds of [validHlMatches] and [seenCreativeVariations] after the
    [forEach] has visited the entries [processed]. *)
Definition filterInv (processed : list HlMatch) (st : list HlMatch * gset string) : Prop :=
  (forall cv, cv ∈ st.2 <->
     isValidCreativeVar cv = true /\ existsb (hasLabel cv) st.1 = true)
  /\ (forall cv, isValidCreativeVar cv = true ->
        length (List.filter (hasLabel cv) st.1) <= 1)
  /\ Forall (fun m => keepEntry m = true) st.1
  /\ (forall c, Permutation (concat (map (catOf c) st.1))
                            (concat (map (catOf c) processed))).


(** ** Further notions: the reports *)

(** The broken models of an element result are its detected models that are
    not on a single line. *)
Definition brokenFromStatuses (e : ElementResult) : Prop :=
  orEmpty (er_brokenModels e)
  = map asBroken (List.filter notSingleLine (orEmpty (er_allModelStatuses e))).

(** The entry of the broken-model table that belongs to an entry of the
    status table, if any. *)
Definition brokenOfStatus (sr : StatusReport) : list BrokenReport :=
  match map asBroken (List.filter notSingleLine (sr_modelStatuses sr)) with
  | [] => []
  | b :: bs =>
      [{| br_creativeVariation := sr_creativeVariation sr;
          br_elementId := sr_elementId sr;
          br_elementType := sr_elementType sr;
          br_brokenModels := b :: bs;
          br_outerHTML := sr_outerHTML sr |}]
  end.


(** ** Further notions: the marker iframes *)

(** An [iframe] element of the main document with its [id] and [src]
    properties. *)
Record Iframe := { if_id : string; if_src : string }.

(** Step 3A of the handler: the iframes of the main document whose id
    starts with [jvxBase_]; [iframes = None] when the evaluation in the
    page fails. *)
Definition detectJvxFrames (iframes : option (list Iframe)) : list JvxFrame :=
  match iframes with
  | Some l =>
      map (fun f => {| jf_id := if_id f; jf_src := orString (if_src f) "" |})
        (List.filter
           (fun f => truthy (if_id f) && startsWith (str (if_id f)) (str "jvxBase_")) l)
  | None => []
  end.

(** Steps 3A and 4 together: the marker iframes the response reports. *)
Definition markerFrames (iframes : option (list Iframe)) (content : option text)
    : list JvxFrame :=
  regexFallback (detectJvxFrames iframes) content.

(** A well-formed marker id: [jvxBase_] and at least one more code unit,
    none of them a quote. *)
Definition markerId (id : text) : Prop :=
  exists rest, id = str "jvxBase_" ++ rest /\ rest <> [] /\ Forall (fun ch => notQuote ch = true) rest.


(** ** Further notions: the navigation and the error response *)

(** An error thrown by a browser call: its [message] property (empty when
    it is missing) and what [String(error)] gives. *)
Record JsError := { err_message : string; err_toString : string }.

Definition maxRetries : nat := 3.

(** What the navigation loop does to the outside: a call of [page.goto]
    and a pause of some milliseconds. *)
Inductive NavEvent :=
  | Goto (attempt : nat)
  | Pause (ms : N).

Definition isConnectionError (errorMsg : string) : bool :=
  includes (str errorMsg) (str "ECONNRESET")
  || includes (str errorMsg) (str "ECONNREFUSED")
  || includes (str errorMsg) (str "ETIMEDOUT")
  || includes (str errorMsg) (str "net::ERR").

Record NavState := {
  navigationSuccess : bool;
  lastError : option JsError;
  events : list NavEvent
}.

Definition logged (e : NavEvent) (st : NavState) : NavState :=
  {| navigationSuccess := navigationSuccess st; lastError := lastError st;
     events := events st ++ [e] |}.

Section Navigation.

(** [page.goto(url, ...)] at the given attempt: [None] when it resolves,
    the error when it rejects. *)
Variable goto : nat -> option JsError.

(** The loop [for (let attempt = 1; attempt <= maxRetries; attempt++)];
    [remaining] counts the iterations left. *)
Fixpoint navigationLoop (remaining attempt : nat) (st : NavState) : NavState :=
  match remaining with
  | 0 => st
  | S remaining' =>
      let st := logged (Goto attempt) st in
      match goto attempt with
      | None =>
          {| navigationSuccess := true; lastError := lastError st; events := events st |}
      | Some navError =>
          let st := {| navigationSuccess := navigationSuccess st;
                       lastError := Some navError; events := events st |} in
          let errorMsg := orString (err_message navError) (err_toString navError) in
          let otherErrors :=
            if attempt <? maxRetries
            then navigationLoop remaining' (S attempt) (logged (Pause 2000%N) st)
            else navigationLoop remaining' (S attempt) st in
          if isConnectionError errorMsg then
            if attempt <? maxRetries
            then navigationLoop remaining' (S attempt) (logged (Pause (N.of_nat attempt * 2000)%N) st)
            else otherErrors
          else otherErrors
      end
  end.

(** The navigation with its retries; [lastError] may still hold an error
    of a failed browser launch. *)
Definition navigate (launchError : option JsError) : NavState :=
  navigationLoop maxRetries 1
    {| navigationSuccess := false; lastError := launchError; events := [] |}.

End Navigation.

(** [lastError?.message || 'Unknown error'] *)
Definition messageOf (e : option JsError) : string :=
  orString (match e with Some err => err_message err | None => "" end) "Unknown error".

(** The statement after the loop. *)
Definition afterNavigation (st : NavState) : Flow unit :=
  if navigationSuccess st then Next tt
  else Thrown ("Failed to navigate to URL after " ++ showNat maxRetries ++ " attempts: "
               ++ messageOf (lastError st))%string.

Definition mentions (errorMessage keyword : string) : bool :=
  includes (str errorMessage) (str keyword).

(** The message the [catch] block of the handler sends for an error with
    the given [message]. *)
Definition rewordError (message : string) : string :=
  let errorMessage := orString message "Unknown error" in
  if mentions errorMessage "ECONNRESET" then
    "Connection was reset by the server. The website may be blocking automated requests, the URL may be unreachable, or there may be network issues. Please try again or check if the URL is accessible."
  else if mentions errorMessage "ECONNREFUSED" then
    "Connection refused. The server may be down or the URL may be incorrect."
  else if mentions errorMessage "ETIMEDOUT" || mentions errorMessage "timeout" then
    "Request timed out. The website took too long to respond. Please try again."
  else if mentions errorMessage "net::ERR" then
    ("Network error: " ++ errorMessage
     ++ ". Please check if the URL is correct and accessible.")%string
  else if mentions errorMessage "Protocol error" || mentions errorMessage "Target closed" then
    "Browser connection lost. This may happen if the page takes too long to load. Please try again."
  else if mentions errorMessage "Navigation failed" then
    ("Navigation failed: " ++ errorMessage
     ++ ". The page may be blocking automated access or may require authentication.")%string
  else errorMessage.

(** The [try { ... } catch (err) { ... }] of the handler around [body]. *)
Definition catchCount (body : Flow unit) : Flow unit :=
  match body with
  | Thrown message => Returned 500 (Failure (rewordError message))
  | _ => body
  end.

(** The handler of [/api/count] around the statements of its [try] block. *)
Definition countRequest (url : string) (body : Flow unit) : Flow unit :=
  if negb (truthy url) then Returned 400 (Failure "Missing ?url=")
  else catchCount body.

(** The calls of [page.goto] in a list of events, and the pauses. *)
Definition gotosOf (l : list NavEvent) : list nat :=
  flat_map (fun e => match e with Goto a => [a] | Pause _ => [] end) l.

Definition pausesOf (l : list NavEvent) : list N :=
  flat_map (fun e => match e with Goto _ => [] | Pause ms => [ms] end) l.

(** The keywords the [catch] block looks for. *)
Definition errorKeywords : list string :=
  ["ECONNRESET"; "ECONNREFUSED"; "ETIMEDOUT"; "timeout"; "net::ERR";
   "Protocol error"; "Target closed"; "Navigation failed"].


(** ** Further notions: the title of a creative *)

(** A letter of a pattern with the [i] flag. *)
Definition ciLit (c : ascii) : RegexItem :=
  OneOf (fun d => ascii_eqb (toLowerChar d) (toLowerChar c)).

(** The pattern [Preview\s+of\s+variation] with the [i] flag, anchored at
    the start of the text. *)
Definition previewPattern : list RegexItem :=
  map ciLit (str "Preview") ++ [PlusOf isWhitespace]
  ++ map ciLit (str "of") ++ [PlusOf isWhitespace]
  ++ map ciLit (str "variation").

(** [text.replace(/^Preview\s+of\s+variation\s*/i, '')]: the closing
    [\s*] takes all the white space that follows the match. *)
Definition removePreviewPrefix (txt : text) : text :=
  match matchItems previewPattern txt with
  | Some n => trimStart (drop n txt)
  | None => txt
  end.

(** The title of a creative from the text of its [previewVariationTitle]
    element: [cleanedText || text]. *)
Definition titleOf (innerText : text) : text :=
  let txt := trim innerText in
  let cleanedText := trim (removePreviewPrefix txt) in
  if nonEmptyList cleanedText then cleanedText else txt.

(** A text without leading or trailing white space. *)
Definition isTrimmed (s : text) : bool :=
  match s with ch :: _ => negb (isWhitespace ch) | [] => true end
  && match last s with Some ch => negb (isWhitespace ch) | None => true end.


(** ** Further notions: the browser launch *)

(** The candidate paths of [findSystemChrome] read the environment; an
    unset variable is [None] and shows as [undefined] in a concatenation. *)
Record ProcessEnv := {
  env_HOME : option string;
  env_ProgramFiles : option string;
  env_ProgramFilesX86 : option string;
  env_LOCALAPPDATA : option string;
  env_USERPROFILE : option string
}.

Definition showVar (v : option string) : string :=
  match v with Some s => s | None => "undefined" end.

(** [v || d] for an environment variable. *)
Definition varOr (v : option string) (d : string) : string :=
  match v with Some s => orString s d | None => d end.

Definition possiblePaths (platform : string) (env : ProcessEnv) : list string :=
  if String.eqb platform "darwin" then
    ["/Applications/Google Chrome.app/Contents/MacOS/Google Chrome";
     "/Applications/Chromium.app/Contents/MacOS/Chromium";
     "/Applications/Google Chrome Canary.app/Contents/MacOS/Google Chrome Canary";
     (showVar (env_HOME env) ++ "/Applications/Google Chrome.app/Contents/MacOS/Google Chrome")%string;
     (showVar (env_HOME env) ++ "/Applications/Chromium.app/Contents/MacOS/Chromium")%string]
  else if String.eqb platform "linux" then
    ["/usr/bin/google-chrome"; "/usr/bin/google-chrome-stable"; "/usr/bin/chromium";
     "/usr/bin/chromium-browser"; "/snap/bin/chromium"]
  else if String.eqb platform "win32" then
    let programFiles := varOr (env_ProgramFiles env) "C:\Program Files" in
    let programFilesX86 := varOr (env_ProgramFilesX86 env) "C:\Program Files (x86)" in
    let localAppData :=
      varOr (env_LOCALAPPDATA env) (showVar (env_USERPROFILE env) ++ "\AppData\Local")%string in
    [(programFiles ++ "\Google\Chrome\Application\chrome.exe")%string;
     (programFilesX86 ++ "\Google\Chrome\Application\chrome.exe")%string;
     (localAppData ++ "\Google\Chrome\Application\chrome.exe")%string;
     (programFiles ++ "\Chromium\Application\chromium.exe")%string;
     (localAppData ++ "\Chromium\Application\chromium.exe")%string]
  else [].

(** [findSystemChrome]; [existsSync] tells whether a path exists, a check
    that throws counting as a path that does not. *)
Definition findSystemChrome (platform : string) (env : ProcessEnv)
    (existsSync : string -> bool) : option string :=
  findFirst existsSync (possiblePaths platform env).

Inductive Headless := HeadlessNew | HeadlessTrue.

Record LaunchOption := {
  lo_executablePath : option string;
  lo_headless : Headless;
  lo_args : list string
}.

Definition sandboxArgs : list string :=
  ["--no-sandbox"; "--disable-setuid-sandbox"; "--disable-dev-shm-usage"].

(** [launchOptions] once the options of the system Chrome are pushed. *)
Definition launchOptionsFor (systemChromePath : option string) : list LaunchOption :=
  [{| lo_executablePath := None; lo_headless := HeadlessNew; lo_args := sandboxArgs |};
   {| lo_executablePath := None; lo_headless := HeadlessTrue; lo_args := sandboxArgs |};
   {| lo_executablePath := None; lo_headless := HeadlessTrue; lo_args := ["--no-sandbox"] |};
   {| lo_executablePath := None; lo_headless := HeadlessTrue; lo_args := [] |}]
  ++ match systemChromePath with
     | Some p =>
         if truthy p then
           [{| lo_executablePath := Some p; lo_headless := HeadlessNew; lo_args := sandboxArgs |};
            {| lo_executablePath := Some p; lo_headless := HeadlessTrue; lo_args := sandboxArgs |}]
         else []
     | None => []
     end.

(** What the launch loop does to the outside: a call of [puppeteer.launch]
    with the option at [optIndex], and a pause of some milliseconds. *)
Inductive LaunchEvent :=
  | Launch (attempt optIndex : nat)
  | LaunchPause (ms : N).

Record LaunchState := {
  browserLaunched : bool;
  browser : option nat;
  ls_lastError : option JsError;
  ls_events : list LaunchEvent
}.

Definition launchLogged (e : LaunchEvent) (st : LaunchState) : LaunchState :=
  {| browserLaunched := browserLaunched st; browser := browser st;
     ls_lastError := ls_lastError st; ls_events := ls_events st ++ [e] |}.

(** The line feed of the template strings. *)
Definition nl : string := String (ascii_of_nat 10) "".

Definition helpfulMessage (platform : string) (n : nat) (launchError : JsError) : string :=
  let errorMsg := orString (err_message launchError) (err_toString launchError) in
  ("Failed to launch browser after " ++ showNat maxRetries ++ " attempts with "
   ++ showNat n ++ " different configurations." ++ nl ++ nl
   ++ (if String.eqb platform "darwin" then
         "On macOS, this is often caused by:" ++ nl
         ++ "1. Missing or corrupted Chromium installation" ++ nl
         ++ "2. macOS security restrictions" ++ nl ++ nl
         ++ "Solutions:" ++ nl
         ++ "- Reinstall Puppeteer: npm uninstall puppeteer && npm install puppeteer" ++ nl
         ++ "- Or install Chromium via Homebrew: brew install chromium --no-quarantine" ++ nl
         ++ "- Or install Google Chrome from https://www.google.com/chrome/" ++ nl ++ nl
       else "")
   ++ "Original error: " ++ String.substring 0 500 errorMsg)%string.

Section Launch.

Variable platform : string.

(** [puppeteer.launch(launchOptions[optIndex])] at the given attempt:
    [None] when the browser starts, the error otherwise. *)
Variable launch : nat -> nat -> option JsError.

(** [launchOptions.length] *)
Variable n : nat.

(** The inner loop over the options; the second component is the message
    of the error thrown in the [catch] clause, if any. *)
Fixpoint optionLoop (attempt remaining optIndex : nat) (st : LaunchState)
    : LaunchState * option string :=
  match remaining with
  | 0 => (st, None)
  | S remaining' =>
      let st := launchLogged (Launch attempt optIndex) st in
      match launch attempt optIndex with
      | None =>
          ({| browserLaunched := true; browser := Some optIndex;
              ls_lastError := ls_lastError st; ls_events := ls_events st |}, None)
      | Some launchError =>
          let st := {| browserLaunched := browserLaunched st; browser := browser st;
                       ls_lastError := Some launchError; ls_events := ls_events st |} in
          if (optIndex =? n - 1) && (attempt =? maxRetries)
          then (st, Some (helpfulMessage platform n launchError))
          else optionLoop attempt remaining' (S optIndex) st
      end
  end.

(** The outer loop over the attempts. *)
Fixpoint attemptLoop (remaining attempt : nat) (st : LaunchState)
    : LaunchState * option string :=
  match remaining with
  | 0 => (st, None)
  | S remaining' =>
      match optionLoop attempt n 0 st with
      | (st, Some message) => (st, Some message)
      | (st, None) =>
          if browserLaunched st then (st, None)
          else if attempt <? maxRetries
          then attemptLoop remaining' (S attempt)
                 (launchLogged (LaunchPause (1000 * N.of_nat attempt)%N) st)
          else attemptLoop remaining' (S attempt) st
      end
  end.

(** The launch with its retries and the statement after the loops. *)
Definition launchBrowser : LaunchState * Flow unit :=
  match attemptLoop maxRetries 1
          {| browserLaunched := false; browser := None; ls_lastError := None;
             ls_events := [] |} with
  | (st, Some message) => (st, Thrown message)
  | (st, None) =>
      if browserLaunched st then (st, Next tt)
      else (st, Thrown ("Failed to launch browser: " ++ messageOf (ls_lastError st))%string)
  end.

End Launch.

(** The launches in a list of events, as pairs of attempt and option
    index, and the pauses. *)
Definition launchesOf (l : list LaunchEvent) : list (nat * nat) :=
  flat_map (fun e => match e with Launch a i => [(a, i)] | LaunchPause _ => [] end) l.

Definition launchPausesOf (l : list LaunchEvent) : list N :=
  flat_map (fun e => match e with Launch _ _ => [] | LaunchPause ms => [ms] end) l.

(** One round of launches: every option in order. *)
Definition round (n attempt : nat) : list (nat * nat) := map (pair attempt) (seq 0 n).

(** The order in which the launches are due: three rounds. *)
Definition schedule (n : nat) : list (nat * nat) :=
  flat_map (round n) (seq 1 maxRetries).


(** ** Further notions: the label of a frame *)












(** What one failed attempt leaves behind: the call, the error and, when
    another attempt follows, the pause before it. *)
Definition afterFailure (attempt : nat) (navError : JsError) (st : NavState) : NavState :=
  let st := {| navigationSuccess := navigationSuccess st; lastError := Some navError;
               events := events st ++ [Goto attempt] |} in
  if attempt <? maxRetries then
    logged (Pause (if isConnectionError (orString (err_message navError) (err_toString navError))
                   then N.of_nat attempt * 2000 else 2000)%N) st
  else st.



(** * Properties *)

(** ** The normalized text and its offset map *)







(** ** [indexOf] *)


Lemma indexOfAux_eq t s pos :
  indexOfAux t s pos =
  if startsWith s t then Some pos
  else match s with [] => None | _ :: s' => indexOfAux t s' (S pos) end.
Proof. destruct s; reflexivity. Qed.





(** ** The verdict of the detector *)

(** C1: whenever the detector reports [found = true], a range was
    constructed for the phrase, [rectsCount] (the line count) is the number
    of client rectangles of that range, [singleLine] is [true] exactly when
    that number is 1, and two or more rectangles give [singleLine = false]. *)
Theorem found_lineCount_is_rect_count
    (Rect : Type) (getClientRects : Element -> Range -> list Rect)
    (element : Element) (phrase : text) (options : PhraseOptions) :
  let result := isPhraseSingleLineRobust Rect getClientRects element phrase options in
  found result = true ->
  exists res,
    createRangeForPhraseRobust (Some element) phrase
      (occurrence options) (caseInsensitive options) = Some res
    /\ rects result = getClientRects element (range res)
    /\ rectsCount result = length (getClientRects element (range res))
    /\ (singleLine result = Some true <-> length (getClientRects element (range res)) = 1)
    /\ (2 <= length (getClientRects element (range res)) -> singleLine result = Some false).
Proof.
  intros result Hfound. subst result. unfold isPhraseSingleLineRobust in *.
  destruct (createRangeForPhraseRobust _ _ _ _) as [res|]; simpl in *; [|discriminate].
  exists res. repeat split; auto.
  - intros H. inversion H as [H1]. apply Nat.eqb_eq in H1. exact H1.
  - intros H. rewrite H. reflexivity.
  - intros H. f_equal. apply Nat.eqb_neq. lia.
Qed.

Lemma found_lineCount_is_rect_count_witness :
  found (isPhraseSingleLineRobust unit twoLines sampleEl (str "mazda cx-60") checkOptions) = true
  /\ exists res,
       createRangeForPhraseRobust (Some sampleEl) (str "mazda cx-60") 0 true = Some res
       /\ rects (isPhraseSingleLineRobust unit twoLines sampleEl (str "mazda cx-60") checkOptions)
          = twoLines sampleEl (range res)
       /\ rectsCount (isPhraseSingleLineRobust unit twoLines sampleEl (str "mazda cx-60") checkOptions)
          = length (twoLines sampleEl (range res))
       /\ (singleLine (isPhraseSingleLineRobust unit twoLines sampleEl (str "mazda cx-60") checkOptions)
           = Some true <-> length (twoLines sampleEl (range res)) = 1)
       /\ (2 <= length (twoLines sampleEl (range res)) ->
           singleLine (isPhraseSingleLineRobust unit twoLines sampleEl (str "mazda cx-60") checkOptions)
           = Some false).
Proof.
  split; [reflexivity|].
  apply (found_lineCount_is_rect_count unit twoLines sampleEl (str "mazda cx-60") checkOptions).
  reflexivity.
Defined.




(** ** Normalization *)

Lemma space_isWhitespace : isWhitespace space = true.
Proof. reflexivity. Qed.

Lemma ascii_eqb_eq a b : ascii_eqb a b = true <-> a = b.
Proof. unfold ascii_eqb. apply Ascii.eqb_eq. Qed.

Lemma scanText_okFrom nd : forall txt rest i st blocked,
  okFrom blocked (txt ++ rest) = true ->
  scanReady blocked st ->
  ns_normalized (scanText nd txt i st) = ns_normalized st ++ txt
  /\ exists blocked',
       okFrom blocked' rest = true /\ scanReady blocked' (scanText nd txt i st).
Proof.
  induction txt as [|ch txt IH]; intros rest i st blocked Hok Hready; simpl.
  - rewrite app_nil_r. split; [reflexivity|]. exists blocked. auto.
  - simpl in Hok. unfold stepChar.
    destruct (isWhitespace ch) eqn:Ews.
    + apply andb_true_iff in Hok as [Hok Hrest]. apply andb_true_iff in Hok as [Hsp Hb].
      apply ascii_eqb_eq in Hsp. subst ch.
      apply negb_true_iff in Hb. destruct (Hready Hb) as [Hl Hn].
      rewrite Hl. replace (0 <? length (ns_normalized st)) with true
        by (symmetry; apply Nat.ltb_lt; exact Hn).
      cbn [negb andb].
      destruct (IH rest (S i)
                  {| ns_normalized := ns_normalized st ++ [space];
                     ns_mapping := ns_mapping st ++ [{| node := nd; offset := i |}];
                     ns_lastWasSpace := true |} true Hrest) as [Hnorm Hex].
      { intros Hf. discriminate Hf. }
      split; [|exact Hex]. rewrite Hnorm. simpl. rewrite <- app_assoc. reflexivity.
    + destruct (IH rest (S i)
                  {| ns_normalized := ns_normalized st ++ [ch];
                     ns_mapping := ns_mapping st ++ [{| node := nd; offset := i |}];
                     ns_lastWasSpace := false |} false Hok) as [Hnorm Hex].
      { intros _. simpl. rewrite length_app. simpl. split; [reflexivity|lia]. }
      split; [|exact Hex]. rewrite Hnorm. simpl. rewrite <- app_assoc. reflexivity.
Qed.

Lemma walkNodes_okFrom : forall nodes nd st blocked,
  okFrom blocked (concat nodes) = true ->
  scanReady blocked st ->
  ns_normalized (walkNodes nodes nd st) = ns_normalized st ++ concat nodes.
Proof.
  induction nodes as [|txt nodes IH]; intros nd st blocked Hok Hready; simpl.
  - rewrite app_nil_r. reflexivity.
  - simpl in Hok.
    destruct (scanText_okFrom nd txt (concat nodes) 0 st blocked Hok Hready)
      as [Hnorm (blocked' & Hok' & Hready')].
    rewrite (IH (S nd) _ blocked' Hok' Hready'). rewrite Hnorm, <- app_assoc. reflexivity.
Qed.

Lemma okFrom_head s : okFrom true s = true ->
  match s with ch :: _ => isWhitespace ch = false | [] => True end.
Proof.
  destruct s as [|ch s]; simpl; auto.
  destruct (isWhitespace ch); [|reflexivity].
  rewrite andb_false_r. simpl. intros H. discriminate H.
Qed.

Lemma dropLeadingSpace_normalized s m :
  okFrom true s = true -> dropLeadingSpace (s, m) = (s, m).
Proof.
  intros H. apply okFrom_head in H. unfold dropLeadingSpace. simpl.
  destruct s as [|ch s]; [reflexivity|].
  destruct (ascii_eqb ch space) eqn:E; [|reflexivity].
  apply ascii_eqb_eq in E. subst ch. rewrite space_isWhitespace in H. discriminate H.
Qed.

Lemma dropTrailingSpace_normalized s m :
  match last s with Some ch => negb (isWhitespace ch) | None => true end = true ->
  fst (dropTrailingSpace (s, m)) = s.
Proof.
  intros H. unfold dropTrailingSpace. simpl.
  destruct (last s) as [ch|]; [|reflexivity].
  destruct (ascii_eqb ch space) eqn:E; [|reflexivity].
  apply ascii_eqb_eq in E. subst ch. rewrite space_isWhitespace in H. discriminate H.
Qed.

Lemma buildNormalizedTextAndMap_fst element :
  fst (buildNormalizedTextAndMap element)
  = fst (dropTrailingSpace (dropLeadingSpace
      (ns_normalized (walkNodes (el_textNodes element) 0
         {| ns_normalized := []; ns_mapping := []; ns_lastWasSpace := false |}),
       ns_mapping (walkNodes (el_textNodes element) 0
         {| ns_normalized := []; ns_mapping := []; ns_lastWasSpace := false |})))).
Proof. reflexivity. Qed.

Lemma collapseRuns_okFrom : forall s blocked inRun,
  okFrom blocked s = true -> (inRun = true -> blocked = true) ->
  collapseRuns inRun s = s.
Proof.
  induction s as [|ch s IH]; intros blocked inRun Hok Himp; simpl; [reflexivity|].
  simpl in Hok. destruct (isWhitespace ch) eqn:Ews.
  - apply andb_true_iff in Hok as [Hok Hrest]. apply andb_true_iff in Hok as [Hsp Hb].
    apply ascii_eqb_eq in Hsp. subst ch. apply negb_true_iff in Hb.
    destruct inRun; [specialize (Himp eq_refl); congruence|].
    f_equal. apply (IH true true); auto.
  - f_equal. apply (IH false false); auto.
Qed.

Lemma trimStart_head s :
  match s with ch :: _ => isWhitespace ch = false | [] => True end -> trimStart s = s.
Proof. destruct s as [|ch s]; simpl; [reflexivity|]. intros ->. reflexivity. Qed.

Lemma last_rev_head {A} (s : list A) : last s = head (rev s).
Proof.
  destruct (rev s) as [|x r] eqn:E.
  - apply (f_equal (@rev A)) in E. rewrite rev_involutive in E. subst s. reflexivity.
  - apply (f_equal (@rev A)) in E. rewrite rev_involutive in E. subst s.
    simpl. apply last_snoc.
Qed.

Lemma trim_normalized s : isNormalizedForm s = true -> trim s = s.
Proof.
  unfold isNormalizedForm. intros H. apply andb_true_iff in H as [Hok Hlast].
  unfold trim, trimEnd. rewrite (trimStart_head s (okFrom_head s Hok)).
  rewrite trimStart_head; [apply rev_involutive|].
  rewrite last_rev_head in Hlast. destruct (rev s) as [|ch r]; simpl in *; [exact I|].
  apply negb_true_iff in Hlast. exact Hlast.
Qed.

(** C9: on a string already in normalized form both normalizations of the
    detector are the identity: the normalized text built from an element
    whose text nodes spell the string is the string itself, and so is the
    whitespace-collapsed, trimmed phrase. *)
Theorem normalization_fixes_normalized_form (element : Element) (s : text) :
  isNormalizedForm s = true ->
  concat (el_textNodes element) = s ->
  fst (buildNormalizedTextAndMap element) = s
  /\ normalizePhrase s = s.
Proof.
  intros Hnf Htext. pose proof Hnf as Hnf'.
  unfold isNormalizedForm in Hnf. apply andb_true_iff in Hnf as [Hok Hlast]. split.
  - rewrite buildNormalizedTextAndMap_fst.
    set (st := walkNodes _ _ _).
    assert (Hst : ns_normalized st = s).
    { unfold st. rewrite (walkNodes_okFrom _ 0 _ true); [simpl; exact Htext| |].
      - rewrite Htext. exact Hok.
      - intros H. discriminate H. }
    rewrite Hst.
    rewrite (dropLeadingSpace_normalized s _ Hok).
    apply dropTrailingSpace_normalized. exact Hlast.
  - unfold normalizePhrase. rewrite (collapseRuns_okFrom s true false Hok).
    + apply trim_normalized. exact Hnf'.
    + intros H. discriminate H.
Qed.

Lemma normalization_fixes_normalized_form_witness :
  fst (buildNormalizedTextAndMap
         {| el_id := "frm1_HL_x"; el_outerHTML := "";
            el_textNodes := [str "Der neue "; str "MAZDA CX-60"] |})
  = str "Der neue MAZDA CX-60"
  /\ normalizePhrase (str "Der neue MAZDA CX-60") = str "Der neue MAZDA CX-60".
Proof.
  apply (normalization_fixes_normalized_form
           {| el_id := "frm1_HL_x"; el_outerHTML := "";
              el_textNodes := [str "Der neue "; str "MAZDA CX-60"] |}
           (str "Der neue MAZDA CX-60")).
  - vm_compute. reflexivity.
  - vm_compute. reflexivity.
Defined.

(** ** Normalization yields the normalized form *)

Lemma okFrom_weaken s : okFrom true s = true -> okFrom false s = true.
Proof.
  destruct s as [|ch s]; simpl; [reflexivity|].
  destruct (isWhitespace ch); [|auto].
  rewrite andb_false_r. simpl. intros H. discriminate H.
Qed.

Lemma okFrom_app_l : forall s t blocked,
  okFrom blocked (s ++ t) = true -> okFrom blocked s = true.
Proof.
  induction s as [|ch s IH]; intros t blocked H; simpl in *; [reflexivity|].
  destruct (isWhitespace ch).
  - apply andb_true_iff in H as [H1 H2]. rewrite H1. simpl. eapply IH; eauto.
  - eapply IH; eauto.
Qed.

Lemma okFrom_snoc_nonws : forall s blocked ch,
  okFrom blocked s = true -> isWhitespace ch = false ->
  okFrom blocked (s ++ [ch]) = true.
Proof.
  induction s as [|c s IH]; intros blocked ch H Hch; simpl in *.
  - rewrite Hch. reflexivity.
  - destruct (isWhitespace c).
    + apply andb_true_iff in H as [H1 H2]. rewrite H1. simpl. apply IH; auto.
    + apply IH; auto.
Qed.

Lemma okFrom_snoc_space : forall s blocked ch,
  okFrom blocked s = true -> last s = Some ch -> isWhitespace ch = false ->
  okFrom blocked (s ++ [space]) = true.
Proof.
  induction s as [|c s IH]; intros blocked ch H Hlast Hch; [discriminate Hlast|].
  destruct s as [|d s'].
  - simpl in Hlast. inversion Hlast; subst c. simpl. rewrite Hch. reflexivity.
  - change (last (c :: d :: s')) with (last (d :: s')) in Hlast.
    change ((c :: d :: s') ++ [space]) with (c :: ((d :: s') ++ [space])).
    cbn [okFrom] in H |- *. destruct (isWhitespace c).
    + apply andb_true_iff in H as [H1 H2]. rewrite H1. cbn [andb]. eapply IH; eauto.
    + eapply IH; eauto.
Qed.

(** A well-spaced text that ends in a space does not end in white space
    once that space is removed. *)
Lemma okFrom_before_space : forall s blocked,
  okFrom blocked (s ++ [space]) = true ->
  match last s with Some ch => negb (isWhitespace ch) | None => true end = true.
Proof.
  induction s as [|c s IH]; intros blocked H; [reflexivity|].
  destruct s as [|d s'].
  - simpl in *. destruct (isWhitespace c); [|reflexivity].
    rewrite !andb_false_r in H. discriminate H.
  - change (last (c :: d :: s')) with (last (d :: s')).
    change ((c :: d :: s') ++ [space]) with (c :: ((d :: s') ++ [space])) in H.
    cbn [okFrom] in H. destruct (isWhitespace c).
    + apply andb_true_iff in H as [_ H]. eapply IH; eauto.
    + eapply IH; eauto.
Qed.

Lemma okFrom_last_space : forall s blocked ch,
  okFrom blocked (s ++ [ch]) = true -> isWhitespace ch = true -> ch = space.
Proof.
  induction s as [|c s IH]; intros blocked ch H Hch.
  - simpl in H. rewrite Hch in H. apply andb_true_iff in H as [H _].
    apply andb_true_iff in H as [H _]. apply ascii_eqb_eq in H. exact H.
  - simpl in H. destruct (isWhitespace c).
    + apply andb_true_iff in H as [_ H]. eapply IH; eauto.
    + eapply IH; eauto.
Qed.

Lemma list_snoc_cases {A} (l : list A) : l = [] \/ exists l' x, l = l' ++ [x].
Proof.
  destruct (rev l) as [|x r] eqn:E.
  - left. apply (f_equal (@rev A)) in E. rewrite rev_involutive in E. exact E.
  - right. exists (rev r), x. apply (f_equal (@rev A)) in E.
    rewrite rev_involutive in E. exact E.
Qed.

Lemma stepChar_wellSpaced nd i ch st :
  scanWellSpaced st -> scanWellSpaced (stepChar nd i ch st).
Proof.
  intros [Hok Hlast]. unfold stepChar.
  destruct (isWhitespace ch) eqn:Ews.
  - destruct (ns_lastWasSpace st) eqn:El; simpl; [split; [exact Hok|rewrite El; discriminate]|].
    destruct (0 <? length (ns_normalized st)) eqn:En; simpl;
      [|split; [exact Hok|rewrite El; exact Hlast]].
    split; simpl; [|discriminate].
    specialize (Hlast eq_refl).
    destruct (last (ns_normalized st)) as [c|] eqn:Ec.
    + eapply okFrom_snoc_space; eauto. apply negb_true_iff. exact Hlast.
    + apply last_None in Ec. rewrite Ec in En. discriminate En.
  - split; simpl.
    + apply okFrom_snoc_nonws; auto.
    + intros _. rewrite last_snoc. rewrite Ews. reflexivity.
Qed.

Lemma scanText_wellSpaced nd : forall txt i st,
  scanWellSpaced st -> scanWellSpaced (scanText nd txt i st).
Proof.
  induction txt as [|ch txt IH]; intros i st H; simpl; [exact H|].
  apply IH. apply stepChar_wellSpaced. exact H.
Qed.

Lemma walkNodes_wellSpaced : forall nodes nd st,
  scanWellSpaced st -> scanWellSpaced (walkNodes nodes nd st).
Proof.
  induction nodes as [|txt nodes IH]; intros nd st H; simpl; [exact H|].
  apply IH. apply scanText_wellSpaced. exact H.
Qed.

(** X3: The normalized text of any element is in normalized form. *)
Lemma buildNormalizedTextAndMap_normalized element :
  isNormalizedForm (fst (buildNormalizedTextAndMap element)) = true.
Proof.
  rewrite buildNormalizedTextAndMap_fst.
  set (st := walkNodes _ _ _).
  assert (Hst : scanWellSpaced st).
  { apply walkNodes_wellSpaced. split; simpl; auto. }
  destruct Hst as [Hok _]. rewrite (dropLeadingSpace_normalized _ _ Hok).
  unfold dropTrailingSpace. cbn [fst snd].
  destruct (list_snoc_cases (ns_normalized st)) as [Hnil|(s & ch & Hs)].
  - rewrite Hnil. reflexivity.
  - rewrite Hs in *. rewrite last_snoc.
    destruct (ascii_eqb ch space) eqn:Esp.
    + apply ascii_eqb_eq in Esp. subst ch. cbn [fst].
      rewrite removelast_last. unfold isNormalizedForm.
      rewrite (okFrom_app_l _ _ _ Hok), (okFrom_before_space _ _ Hok). reflexivity.
    + cbn [fst]. unfold isNormalizedForm. rewrite Hok, last_snoc. simpl.
      destruct (isWhitespace ch) eqn:Ews; [|reflexivity].
      rewrite (okFrom_last_space _ _ _ Hok Ews) in Esp.
      unfold ascii_eqb in Esp. rewrite Ascii.eqb_refl in Esp. discriminate Esp.
Qed.

Lemma collapseRuns_wellSpaced : forall p,
  okFrom true (collapseRuns true p) = true /\ okFrom false (collapseRuns false p) = true.
Proof.
  induction p as [|ch p [IH1 IH2]]; simpl; [auto|].
  destruct (isWhitespace ch) eqn:Ews; simpl.
  - split; [exact IH1|]. exact IH1.
  - rewrite Ews. auto.
Qed.

Lemma trimStart_wellSpaced s : okFrom false s = true -> okFrom true (trimStart s) = true.
Proof.
  destruct s as [|ch s]; simpl; [reflexivity|].
  destruct (isWhitespace ch) eqn:Ews.
  - intros H. apply andb_true_iff in H as [_ H].
    rewrite (trimStart_head s (okFrom_head s H)). exact H.
  - intros H. simpl. rewrite Ews. exact H.
Qed.

Lemma trimEnd_snoc s ch :
  trimEnd (s ++ [ch]) = if isWhitespace ch then trimEnd s else s ++ [ch].
Proof.
  unfold trimEnd. rewrite rev_app_distr. simpl.
  destruct (isWhitespace ch); [reflexivity|].
  simpl. rewrite rev_involutive. reflexivity.
Qed.

Lemma trimEnd_normalized : forall s,
  okFrom true s = true -> isNormalizedForm (trimEnd s) = true.
Proof.
  intros s. induction s as [|ch s IH] using rev_ind; intros Hok; [reflexivity|].
  rewrite trimEnd_snoc. destruct (isWhitespace ch) eqn:Ews.
  - apply IH. eapply okFrom_app_l; eauto.
  - unfold isNormalizedForm. rewrite Hok, last_snoc, Ews. reflexivity.
Qed.

(** The normalized phrase is in normalized form. *)
Lemma normalizePhrase_normalized p : isNormalizedForm (normalizePhrase p) = true.
Proof.
  unfold normalizePhrase, trim. apply trimEnd_normalized.
  apply trimStart_wellSpaced. apply collapseRuns_wellSpaced.
Qed.

(** X4: Hence normalizing twice is normalizing once. *)
Lemma normalizePhrase_idempotent p :
  normalizePhrase (normalizePhrase p) = normalizePhrase p.
Proof.
  pose proof (normalizePhrase_normalized p) as Hn.
  unfold normalizePhrase at 1.
  pose proof Hn as Hn'. unfold isNormalizedForm in Hn'.
  apply andb_true_iff in Hn' as [Hok _].
  rewrite (collapseRuns_okFrom _ true false Hok); [|discriminate].
  apply trim_normalized. exact Hn.
Qed.

(** ** The response *)

(** C2: whatever statements follow the first [return res.json(response)],
    the handler answers with status 200 and the object assembled from
    [jvxFrames], [validHlMatches], [brokenModels] and [allModelStatuses];
    the statements after the return have no effect on the answer. *)
Theorem response_is_first_return
    (jvxFrames : list JvxFrame) (content : option text) (hl : list HlMatch)
    (afterReturn : Flow unit) :
  respond jvxFrames content hl afterReturn
  = Returned 200 (Success
      {| ok := true;
         count := length (regexFallback jvxFrames content);
         frames := regexFallback jvxFrames content;
         hlMatches := filterValid hl;
         brokenModels := brokenReports (filterValid hl);
         allModelStatuses := statusReports (filterValid hl) |})
  /\ forall other : Flow unit,
       respond jvxFrames content hl other = respond jvxFrames content hl afterReturn.
Proof.
  split; [reflexivity|]. intros other. reflexivity.
Qed.

(** ** The regex fallback *)

Lemma matchItems_idAttribute_xyz post :
  matchItems markerPattern (idAttribute "jvxBase_xyz" ++ post) = Some 16.
Proof. reflexivity. Qed.

Lemma matchAllMarkers_no_match : forall s,
  (forall q, markerAt s q = false) -> matchAllMarkers 0 s = [].
Proof.
  induction s as [|ch s IH]; intros H; [reflexivity|].
  cbn [matchAllMarkers].
  pose proof (H 0) as H0. unfold markerAt in H0. rewrite drop_0 in H0.
  destruct (matchItems markerPattern (ch :: s)); [discriminate H0|].
  apply IH. intros q. apply (H (S q)).
Qed.

Lemma matchAllMarkers_skip_prefix : forall pre rest,
  (forall q, q < length pre -> markerAt (pre ++ rest) q = false) ->
  matchAllMarkers 0 (pre ++ rest) = matchAllMarkers 0 rest.
Proof.
  induction pre as [|ch pre IH]; intros rest H; [reflexivity|].
  cbn [app matchAllMarkers].
  pose proof (H 0 ltac:(simpl; lia)) as H0. unfold markerAt in H0. rewrite drop_0 in H0.
  cbn [app] in H0.
  destruct (matchItems markerPattern (ch :: pre ++ rest)); [discriminate H0|].
  apply IH. intros q Hq. apply (H (S q)). simpl. lia.
Qed.

Lemma matchAllMarkers_idAttribute_xyz post :
  matchAllMarkers 0 (idAttribute "jvxBase_xyz" ++ post)
  = str "jvxBase_xyz" :: matchAllMarkers 0 post.
Proof. reflexivity. Qed.

(** The count of the response is the length of its frames. *)
Lemma count_is_length_frames jvxFrames hl :
  count (buildResponse jvxFrames hl) = length (frames (buildResponse jvxFrames hl)).
Proof. reflexivity. Qed.

(** C8 as stated fails: a page whose HTML holds the attribute
    [id=...jvxBase_xyz...] exactly once, and a second marker attribute with
    another id, gives two entries in [frames] and [count = 2]. *)
Lemma regex_fallback_counts_every_marker :
  countOccurrences (idAttribute "jvxBase_xyz") twoMarkersHtml = 1
  /\ frames (buildResponse (regexFallback [] (Some twoMarkersHtml)) [])
     = [{| jf_id := "jvxBase_xyz"; jf_src := "" |}; {| jf_id := "jvxBase_abc"; jf_src := "" |}]
  /\ count (buildResponse (regexFallback [] (Some twoMarkersHtml)) []) = 2.
Proof. repeat split; vm_compute; reflexivity. Qed.

(** C8, amended: when the DOM query found no marker iframe and the marker
    pattern matches at exactly one position of the page HTML, at the
    attribute [id=...jvxBase_xyz...] in double quotes, the fallback makes
    [frames] the single entry with that id and an empty [src], and [count]
    is 1; in every response [count] is the length of [frames]. *)
Theorem regex_fallback_single_marker (pre post : text) (hl : list HlMatch) :
  let html := pre ++ idAttribute "jvxBase_xyz" ++ post in
  (forall q, q <> length pre -> markerAt html q = false) ->
  let response := buildResponse (regexFallback [] (Some html)) hl in
  frames response = [{| jf_id := "jvxBase_xyz"; jf_src := "" |}]
  /\ count response = 1
  /\ forall jvxFrames content hl',
       count (buildResponse (regexFallback jvxFrames content) hl')
       = length (frames (buildResponse (regexFallback jvxFrames content) hl')).
Proof.
  intros html Honly response.
  assert (Hids : matchAllMarkers 0 html = [str "jvxBase_xyz"]).
  { unfold html. rewrite matchAllMarkers_skip_prefix.
    - rewrite matchAllMarkers_idAttribute_xyz. f_equal.
      apply matchAllMarkers_no_match. intros q.
      specialize (Honly (length pre + 16 + q) ltac:(lia)).
      unfold markerAt in *. unfold html in Honly.
      rewrite drop_app_ge in Honly by lia.
      rewrite drop_app_ge in Honly by (simpl; lia).
      replace (length pre + 16 + q - length pre - length (idAttribute "jvxBase_xyz"))
        with q in Honly by (simpl; lia).
      exact Honly.
    - intros q Hq. apply Honly. lia. }
  assert (Hframes : regexFallback [] (Some html) = [{| jf_id := "jvxBase_xyz"; jf_src := "" |}]).
  { unfold regexFallback. cbn [length Nat.eqb]. rewrite Hids. reflexivity. }
  unfold response. rewrite Hframes. split; [reflexivity|]. split; [reflexivity|].
  intros. apply count_is_length_frames.
Qed.

Lemma regex_fallback_single_marker_witness :
  frames (buildResponse (regexFallback [] (Some sampleHtml)) [])
    = [{| jf_id := "jvxBase_xyz"; jf_src := "" |}]
  /\ count (buildResponse (regexFallback [] (Some sampleHtml)) []) = 1.
Proof.
  pose proof (regex_fallback_single_marker (str "<i ") (str ">") []) as H.
  cbv zeta in H. split; apply H.
  - intros q Hq. change (length (str "<i ")) with 3 in Hq.
    do 20 (destruct q as [|q]; [try reflexivity; lia|]).
    destruct q; reflexivity.
  - intros q Hq. change (length (str "<i ")) with 3 in Hq.
    do 20 (destruct q as [|q]; [try reflexivity; lia|]).
    destruct q; reflexivity.
Defined.

(** ** The aggregation *)

Lemma findIndex_None {A} (p : A -> bool) : forall l,
  findIndex p l = None -> existsb p l = false.
Proof.
  induction l as [|x l IH]; simpl; [reflexivity|].
  destruct (p x); [discriminate|]. destruct (findIndex p l); [discriminate|].
  intros _. apply IH. reflexivity.
Qed.

Lemma findIndex_Some {A} (p : A -> bool) (g : A -> A) : forall l i,
  findIndex p l = Some i ->
  exists x, l !! i = Some x /\ existsb p l = true /\ <[i := g x]> l = updateFirst p g l.
Proof.
  induction l as [|x l IH]; simpl; intros i H; [discriminate|].
  destruct (p x) eqn:Ep.
  - inversion H; subst. exists x. auto.
  - destruct (findIndex p l) as [j|]; [|discriminate]. inversion H; subst.
    destruct (IH j eq_refl) as (y & Hy & He & Hu).
    exists y. simpl. rewrite Hu. auto.
Qed.

Lemma mergeable_labelOf f :
  mergeableLabel (fs_creativeVariation f) = true -> labelOf f = fs_creativeVariation f.
Proof.
  unfold mergeableLabel, labelOf, orString. destruct (truthy _); [reflexivity|discriminate].
Qed.

Lemma not_mergeable_labelOf f :
  mergeableLabel (fs_creativeVariation f) = false -> labelOf f = "N/A".
Proof.
  unfold mergeableLabel, labelOf, orString, truthy.
  destruct (String.eqb_spec (fs_creativeVariation f) ""); [reflexivity|].
  destruct (String.eqb_spec (fs_creativeVariation f) "N/A"); [auto|discriminate].
Qed.

Lemma mergeableLabel_labelOf f :
  mergeableLabel (labelOf f) = mergeableLabel (fs_creativeVariation f).
Proof.
  destruct (mergeableLabel (fs_creativeVariation f)) eqn:E.
  - rewrite (mergeable_labelOf f E). exact E.
  - rewrite (not_mergeable_labelOf f E). reflexivity.
Qed.

(** The frame loop, one frame: skip, merge into the first entry of the
    label, or push. *)
Lemma addFrame_eq hl f :
  addFrame hl f =
  if keepsFrame f then
    if mergeableLabel (labelOf f) && existsb (hasLabel (labelOf f)) hl
    then updateFirst (hasLabel (labelOf f)) (mergeFrame f) hl
    else hl ++ [newEntry f]
  else hl.
Proof.
  unfold addFrame. fold (keepsFrame f). destruct (keepsFrame f); [|reflexivity].
  rewrite mergeableLabel_labelOf.
  destruct (mergeableLabel (fs_creativeVariation f)) eqn:Em; [|reflexivity].
  rewrite (mergeable_labelOf f Em). cbn [andb].
  fold (hasLabel (fs_creativeVariation f)).
  destruct (findIndex _ hl) as [i|] eqn:Ei.
  - destruct (findIndex_Some _ (mergeFrame f) hl i Ei) as (x & Hx & He & Hu).
    rewrite Hx, He. exact Hu.
  - rewrite (findIndex_None _ hl Ei). reflexivity.
Qed.

Lemma catOf_mergeLists c m get : catOf c (mergeLists m get) = catOf c m ++ get c.
Proof. destruct c; reflexivity. Qed.

Lemma catOf_newEntry c f : catOf c (newEntry f) = scanOf c f.
Proof. destruct c; reflexivity. Qed.

Lemma hasLabel_mergeLists cv m get : hasLabel cv (mergeLists m get) = hasLabel cv m.
Proof. reflexivity. Qed.

Lemma hasLabel_newEntry cv f : hasLabel cv (newEntry f) = String.eqb (labelOf f) cv.
Proof. reflexivity. Qed.

Lemma hasLabel_true cv m : hasLabel cv m = true <-> creativeVariation m = cv.
Proof. unfold hasLabel. apply String.eqb_eq. Qed.

(** Updating the first entry of a label leaves the entries of any other
    label as they are, and updates the first of its own. *)
Lemma filter_updateFirst_other cv cv' g : cv <> cv' ->
  (forall m, hasLabel cv' (g m) = hasLabel cv' m) ->
  forall hl, List.filter (hasLabel cv') (updateFirst (hasLabel cv) g hl)
             = List.filter (hasLabel cv') hl.
Proof.
  intros Hne Hg. induction hl as [|m hl IH]; simpl; [reflexivity|].
  destruct (hasLabel cv m) eqn:E; simpl.
  - rewrite Hg. apply hasLabel_true in E.
    destruct (hasLabel cv' m) eqn:E'; [|reflexivity].
    apply hasLabel_true in E'. congruence.
  - rewrite IH. reflexivity.
Qed.

Lemma filter_updateFirst_same cv g :
  (forall m, hasLabel cv (g m) = hasLabel cv m) ->
  forall hl, List.filter (hasLabel cv) (updateFirst (hasLabel cv) g hl)
             = updateFirst (hasLabel cv) g (List.filter (hasLabel cv) hl).
Proof.
  intros Hg. induction hl as [|m hl IH]; simpl; [reflexivity|].
  destruct (hasLabel cv m) eqn:E; simpl.
  - rewrite Hg, E. reflexivity.
  - rewrite E. exact IH.
Qed.

Lemma existsb_filter_nil {A} (p : A -> bool) l :
  existsb p l = false <-> List.filter p l = [].
Proof.
  induction l as [|x l IH]; simpl; [tauto|].
  destruct (p x); simpl; [split; discriminate|exact IH].
Qed.

Lemma filter_length_updateFirst {A} (p q : A -> bool) g :
  (forall m, q (g m) = q m) ->
  forall l, length (List.filter q (updateFirst p g l)) = length (List.filter q l).
Proof.
  intros Hg. induction l as [|x l IH]; simpl; [reflexivity|].
  destruct (p x); simpl.
  - rewrite Hg. destruct (q x); reflexivity.
  - destruct (q x); simpl; rewrite IH; reflexivity.
Qed.

Lemma uniqueLabels_addFrame hl f : uniqueLabels hl -> uniqueLabels (addFrame hl f).
Proof.
  intros Hu cv Hcv. rewrite addFrame_eq.
  destruct (keepsFrame f); [|apply Hu; exact Hcv].
  destruct (mergeableLabel (labelOf f) && existsb (hasLabel (labelOf f)) hl) eqn:E.
  - rewrite filter_length_updateFirst; [apply Hu; exact Hcv|]. reflexivity.
  - rewrite List.filter_app, length_app. simpl. rewrite hasLabel_newEntry.
    destruct (String.eqb_spec (labelOf f) cv) as [Heq|Hne]; simpl.
    + subst cv. rewrite Hcv in E. simpl in E.
      apply existsb_filter_nil in E. rewrite E. simpl. lia.
    + specialize (Hu cv Hcv). lia.
Qed.

Lemma uniqueLabels_fold fs : forall hl,
  uniqueLabels hl -> uniqueLabels (fold_left addFrame fs hl).
Proof.
  induction fs as [|f fs IH]; intros hl Hu; simpl; [exact Hu|].
  apply IH. apply uniqueLabels_addFrame. exact Hu.
Qed.

Lemma uniqueLabels_scanFrames fs : uniqueLabels (scanFrames fs).
Proof. apply uniqueLabels_fold. intros cv _. simpl. lia. Qed.

(** A frame that is skipped has no element in any category. *)
Lemma scanOf_not_kept c f : keepsFrame f = false -> scanOf c f = [].
Proof.
  unfold keepsFrame, scanHasElements, scanOf. intros H.
  apply orb_false_iff in H as [_ H].
  repeat (apply orb_false_iff in H; destruct H as [H ?]).
  destruct c;
    match goal with
    | Hx : nonEmptyList ?l = false |- ?l = [] => destruct l; [reflexivity|discriminate Hx]
    end.
Qed.

(** The elements of one category under one label after the frame loop:
    those of the frames entered under that label, in frame order. *)
Lemma pooled_addFrame c cv hl f : uniqueLabels hl ->
  concat (map (catOf c) (List.filter (hasLabel cv) (addFrame hl f)))
  = concat (map (catOf c) (List.filter (hasLabel cv) hl))
    ++ (if String.eqb (labelOf f) cv then scanOf c f else []).
Proof.
  intros Hu. rewrite addFrame_eq.
  destruct (keepsFrame f) eqn:Ek.
  2:{ rewrite (scanOf_not_kept c f Ek). destruct (String.eqb _ _); rewrite app_nil_r; reflexivity. }
  destruct (mergeableLabel (labelOf f) && existsb (hasLabel (labelOf f)) hl) eqn:E.
  - apply andb_true_iff in E as [Em Ee].
    destruct (String.eqb_spec (labelOf f) cv) as [Heq|Hne].
    + subst cv. rewrite filter_updateFirst_same by reflexivity.
      specialize (Hu (labelOf f) Em).
      destruct (List.filter (hasLabel (labelOf f)) hl) as [|m [|m' rest]] eqn:Ef.
      * apply existsb_filter_nil in Ef. congruence.
      * assert (Hm : hasLabel (labelOf f) m = true).
        { assert (Hin : In m (List.filter (hasLabel (labelOf f)) hl)) by (rewrite Ef; left; reflexivity).
          apply filter_In in Hin. tauto. }
        simpl. rewrite Hm. simpl. unfold mergeFrame. rewrite catOf_mergeLists.
        rewrite !app_nil_r. reflexivity.
      * simpl in Hu. lia.
    + rewrite filter_updateFirst_other; [rewrite app_nil_r; reflexivity|exact Hne|reflexivity].
  - rewrite List.filter_app, map_app, concat_app. f_equal. simpl.
    rewrite hasLabel_newEntry. destruct (String.eqb (labelOf f) cv); simpl; [|reflexivity].
    rewrite catOf_newEntry, app_nil_r. reflexivity.
Qed.

Lemma pooled_fold c cv fs : forall hl, uniqueLabels hl ->
  concat (map (catOf c) (List.filter (hasLabel cv) (fold_left addFrame fs hl)))
  = concat (map (catOf c) (List.filter (hasLabel cv) hl))
    ++ concat (map (scanOf c) (List.filter (fun f => String.eqb (labelOf f) cv) fs)).
Proof.
  induction fs as [|f fs IH]; intros hl Hu; simpl; [rewrite app_nil_r; reflexivity|].
  rewrite IH by (apply uniqueLabels_addFrame; exact Hu).
  rewrite pooled_addFrame by exact Hu. rewrite <- app_assoc. f_equal.
  destruct (String.eqb (labelOf f) cv); reflexivity.
Qed.

Lemma pooled_scanFrames c cv fs :
  concat (map (catOf c) (List.filter (hasLabel cv) (scanFrames fs)))
  = concat (map (scanOf c) (List.filter (fun f => String.eqb (labelOf f) cv) fs)).
Proof.
  unfold scanFrames. rewrite pooled_fold; [reflexivity|]. intros cv' _. simpl. lia.
Qed.

Lemma existsb_updateFirst {A} (p q : A -> bool) g :
  (forall m, q (g m) = q m) ->
  forall l, existsb q (updateFirst p g l) = existsb q l.
Proof.
  intros Hg. induction l as [|x l IH]; simpl; [reflexivity|].
  destruct (p x); simpl; [rewrite Hg; reflexivity|rewrite IH; reflexivity].
Qed.

(** The labels present after the frame loop are those of the frames that
    were not skipped. *)
Lemma labels_fold cv fs : forall hl,
  existsb (hasLabel cv) (fold_left addFrame fs hl)
  = existsb (hasLabel cv) hl
    || existsb (fun f => keepsFrame f && String.eqb (labelOf f) cv) fs.
Proof.
  induction fs as [|f fs IH]; intros hl; simpl; [rewrite orb_false_r; reflexivity|].
  rewrite IH, addFrame_eq. rewrite orb_assoc. f_equal.
  destruct (keepsFrame f); simpl; [|rewrite orb_false_r; reflexivity].
  destruct (mergeableLabel (labelOf f) && existsb (hasLabel (labelOf f)) hl) eqn:E.
  - rewrite existsb_updateFirst by reflexivity.
    apply andb_true_iff in E as [_ Ee].
    destruct (String.eqb_spec (labelOf f) cv) as [Heq|Hne];
      [subst cv; rewrite Ee; reflexivity|rewrite orb_false_r; reflexivity].
  - rewrite existsb_app. simpl. rewrite hasLabel_newEntry, orb_false_r. reflexivity.
Qed.

Lemma orString_empty s : orString s "" = s.
Proof.
  unfold orString, truthy. destruct (String.eqb_spec s ""); simpl; [congruence|reflexivity].
Qed.

Lemma isValid_mergeable cv : isValidCreativeVar cv = true -> mergeableLabel cv = true.
Proof.
  unfold isValidCreativeVar, mergeableLabel. intros H.
  apply andb_true_iff in H as [H _]. exact H.
Qed.

Lemma filter_single cv hl m :
  length (List.filter (hasLabel cv) hl) <= 1 -> In m hl -> hasLabel cv m = true ->
  List.filter (hasLabel cv) hl = [m].
Proof.
  intros Hlen Hin Hm.
  assert (Hf : In m (List.filter (hasLabel cv) hl)) by (apply filter_In; auto).
  destruct (List.filter (hasLabel cv) hl) as [|x [|y rest]]; simpl in *.
  - contradiction.
  - destruct Hf as [->|[]]. reflexivity.
  - lia.
Qed.

(** When no label repeats, the filter never merges: it keeps the entries
    with a valid label and those with elements, in order. *)
Lemma filterStep_fold : forall rest p seen,
  uniqueLabels (p ++ rest) ->
  (forall cv, cv ∈ seen -> existsb (hasLabel cv) p = true) ->
  fst (fold_left filterStep rest (List.filter keepEntry p, seen))
  = List.filter keepEntry (p ++ rest).
Proof.
  induction rest as [|m rest IH]; intros p seen Hu Hseen; simpl.
  - rewrite app_nil_r. reflexivity.
  - replace (p ++ m :: rest) with ((p ++ [m]) ++ rest) in * by (rewrite <- app_assoc; reflexivity).
    rewrite orString_empty.
    destruct (isValidCreativeVar (creativeVariation m)) eqn:Ev.
    + assert (Hnot : creativeVariation m ∉ seen).
      { intros Hin. specialize (Hseen _ Hin).
        specialize (Hu (creativeVariation m) (isValid_mergeable _ Ev)).
        rewrite !List.filter_app, !length_app in Hu. simpl in Hu.
        assert (Hm : hasLabel (creativeVariation m) m = true) by (apply hasLabel_true; reflexivity).
        rewrite Hm in Hu. simpl in Hu.
        destruct (List.filter (hasLabel (creativeVariation m)) p) eqn:Ef.
        - apply existsb_filter_nil in Ef. congruence.
        - simpl in Hu. lia. }
      rewrite bool_decide_eq_false_2 by exact Hnot. cbn [negb].
      replace (List.filter keepEntry p ++ [m]) with (List.filter keepEntry (p ++ [m])).
      * apply IH; [exact Hu|].
        intros cv Hcv. rewrite existsb_app. simpl.
        apply elem_of_union in Hcv as [Hcv|Hcv].
        -- apply elem_of_singleton in Hcv. subst cv.
           unfold hasLabel at 2. rewrite String.eqb_refl, orb_true_r. reflexivity.
        -- rewrite (Hseen _ Hcv). reflexivity.
      * rewrite List.filter_app. simpl. unfold keepEntry at 2.
        rewrite orString_empty, Ev. reflexivity.
    + destruct (hasElements m) eqn:Eh.
      * replace (List.filter keepEntry p ++ [m]) with (List.filter keepEntry (p ++ [m])).
        -- apply IH; [exact Hu|].
           intros cv Hcv. rewrite existsb_app, (Hseen _ Hcv). reflexivity.
        -- rewrite List.filter_app. simpl. unfold keepEntry at 2.
           rewrite orString_empty, Ev, Eh. reflexivity.
      * replace (List.filter keepEntry p) with (List.filter keepEntry (p ++ [m])).
        -- apply IH; [exact Hu|].
           intros cv Hcv. rewrite existsb_app, (Hseen _ Hcv). reflexivity.
        -- rewrite List.filter_app. simpl. unfold keepEntry at 2.
           rewrite orString_empty, Ev, Eh. apply app_nil_r.
Qed.

Lemma filterValid_unique hl :
  uniqueLabels hl -> filterValid hl = List.filter keepEntry hl.
Proof.
  intros Hu. unfold filterValid.
  apply (filterStep_fold hl [] ∅); [exact Hu|]. intros cv Hcv. set_solver.
Qed.

Lemma aggregate_eq fs : aggregate fs = List.filter keepEntry (scanFrames fs).
Proof. unfold aggregate. apply filterValid_unique, uniqueLabels_scanFrames. Qed.

(** An entry without elements is empty in every category. *)
Lemma catOf_no_elements c m : hasElements m = false -> catOf c m = [].
Proof.
  unfold hasElements. intros H.
  repeat (apply orb_false_iff in H; destruct H as [H ?]).
  destruct c; simpl;
    match goal with
    | Hx : nonEmptyList ?l = false |- ?l = [] => destruct l; [reflexivity|discriminate Hx]
    end.
Qed.

Lemma concat_filter_keepEntry c hl :
  concat (map (catOf c) (List.filter keepEntry hl)) = concat (map (catOf c) hl).
Proof.
  induction hl as [|m hl IH]; simpl; [reflexivity|].
  destruct (keepEntry m) eqn:E; simpl; rewrite IH; [reflexivity|].
  unfold keepEntry in E. apply orb_false_iff in E as [_ E].
  rewrite (catOf_no_elements c m E). reflexivity.
Qed.

Lemma perm_updateFirst c p f : forall hl, existsb p hl = true ->
  Permutation (concat (map (catOf c) (updateFirst p (mergeFrame f) hl)))
              (concat (map (catOf c) hl) ++ scanOf c f).
Proof.
  induction hl as [|m hl IH]; simpl; intros H; [discriminate|].
  destruct (p m); simpl.
  - unfold mergeFrame. rewrite catOf_mergeLists. rewrite <- !app_assoc.
    apply Permutation_app_head. apply Permutation_app_comm.
  - rewrite <- app_assoc. apply Permutation_app_head. apply IH. exact H.
Qed.

Lemma perm_addFrame c hl f :
  Permutation (concat (map (catOf c) (addFrame hl f)))
              (concat (map (catOf c) hl) ++ scanOf c f).
Proof.
  rewrite addFrame_eq. destruct (keepsFrame f) eqn:Ek.
  2:{ rewrite (scanOf_not_kept c f Ek), app_nil_r. reflexivity. }
  destruct (mergeableLabel (labelOf f) && existsb (hasLabel (labelOf f)) hl) eqn:E.
  - apply andb_true_iff in E as [_ E]. apply perm_updateFirst. exact E.
  - rewrite map_app, concat_app. simpl. rewrite catOf_newEntry, app_nil_r. reflexivity.
Qed.

Lemma perm_fold c fs : forall hl,
  Permutation (concat (map (catOf c) (fold_left addFrame fs hl)))
              (concat (map (catOf c) hl) ++ concat (map (scanOf c) fs)).
Proof.
  induction fs as [|f fs IH]; intros hl; simpl; [rewrite app_nil_r; reflexivity|].
  rewrite IH, perm_addFrame, <- app_assoc. reflexivity.
Qed.

(** C6 as stated fails: two frames whose documents each hold an element
    with the id [frm1_HL_a] are both collected, and the final output lists
    that id twice in the category. *)
Lemma same_id_collected_from_two_frames :
  idsOfCategory frm1 (aggregate [sampleFrameA; sampleFrameB]) = ["frm1_HL_a"; "frm1_HL_a"]
  /\ ~ NoDup (idsOfCategory frm1 (aggregate [sampleFrameA; sampleFrameB])).
Proof.
  assert (H : idsOfCategory frm1 (aggregate [sampleFrameA; sampleFrameB])
              = ["frm1_HL_a"; "frm1_HL_a"]) by (vm_compute; reflexivity).
  split; [exact H|]. rewrite H. intros Hn. apply NoDup_cons in Hn as [Hn _].
  apply Hn. left.
Qed.

(** C6, amended: the collection does not deduplicate by id.  In each of the
    eight categories the concatenated lists of the final output hold
    exactly the elements the frames delivered, each as often as it was
    delivered; so no id appears twice in the output exactly when no id was
    delivered twice. *)
Theorem output_keeps_every_collected_element (fs : list FrameScan) (c : Category) :
  Permutation (concat (map (catOf c) (aggregate fs))) (concat (map (scanOf c) fs))
  /\ (NoDup (idsOfCategory c (aggregate fs))
      <-> NoDup (map er_id (concat (map (scanOf c) fs)))).
Proof.
  assert (Hp : Permutation (concat (map (catOf c) (aggregate fs)))
                           (concat (map (scanOf c) fs))).
  { rewrite aggregate_eq, concat_filter_keepEntry. unfold scanFrames.
    rewrite perm_fold. reflexivity. }
  split; [exact Hp|]. unfold idsOfCategory.
  assert (Hm := Permutation_map er_id Hp).
  rewrite Hm. reflexivity.
Qed.

Lemma labelOf_eqb f cv : mergeableLabel cv = true ->
  String.eqb (labelOf f) cv = String.eqb (fs_creativeVariation f) cv.
Proof.
  intros Hcv. destruct (mergeableLabel (fs_creativeVariation f)) eqn:E.
  - rewrite (mergeable_labelOf f E). reflexivity.
  - rewrite (not_mergeable_labelOf f E).
    destruct (String.eqb_spec "N/A" cv) as [<-|_]; [discriminate Hcv|].
    destruct (String.eqb_spec (fs_creativeVariation f) cv) as [<-|_]; [congruence|reflexivity].
Qed.

Lemma filter_comm {A} (p q : A -> bool) l :
  List.filter p (List.filter q l) = List.filter q (List.filter p l).
Proof.
  induction l as [|x l IH]; simpl; [reflexivity|].
  destruct (p x) eqn:Ep, (q x) eqn:Eq; simpl; rewrite ?Ep, ?Eq, IH; reflexivity.
Qed.

(** Skipped frames add nothing to the elements of a label. *)
Lemma concat_scanOf_kept c (p : FrameScan -> bool) fs :
  concat (map (scanOf c) (List.filter (fun f => keepsFrame f && p f) fs))
  = concat (map (scanOf c) (List.filter p fs)).
Proof.
  induction fs as [|f fs IH]; simpl; [reflexivity|].
  destruct (keepsFrame f) eqn:Ek, (p f); simpl; rewrite ?IH; try reflexivity.
  rewrite (scanOf_not_kept c f Ek). reflexivity.
Qed.

Lemma filter_ext_eqb {A} (p q : A -> bool) l :
  (forall x, p x = q x) -> List.filter p l = List.filter q l.
Proof. intros H. apply List.filter_ext. exact H. Qed.

Lemma existsb_ext_eqb {A} (p q : A -> bool) l :
  (forall x, p x = q x) -> existsb p l = existsb q l.
Proof.
  intros H. induction l as [|x l IH]; simpl; [reflexivity|]. rewrite H, IH. reflexivity.
Qed.

(** The entry of a mergeable label after the frame loop, when a frame was
    entered under it: it is the only one, and its lists are those of the
    frames of the label in frame order. *)
Lemma scanFrames_entry fs L :
  mergeableLabel L = true ->
  existsb (fun f => keepsFrame f && String.eqb (fs_creativeVariation f) L) fs = true ->
  exists r,
    List.filter (hasLabel L) (scanFrames fs) = [r]
    /\ forall c, catOf c r
         = concat (map (scanOf c)
             (List.filter (fun f => keepsFrame f && String.eqb (fs_creativeVariation f) L) fs)).
Proof.
  intros Hm Hex.
  assert (Hl : existsb (hasLabel L) (scanFrames fs) = true).
  { unfold scanFrames. rewrite labels_fold. simpl. rewrite <- Hex.
    apply existsb_ext_eqb. intros f. rewrite (labelOf_eqb f L Hm). reflexivity. }
  apply existsb_exists in Hl as (r & Hin & Hr).
  exists r. split.
  - apply filter_single; auto. apply uniqueLabels_scanFrames. exact Hm.
  - intros c.
    pose proof (pooled_scanFrames c L fs) as Hp.
    rewrite (filter_single L (scanFrames fs) r) in Hp; auto;
      [|apply uniqueLabels_scanFrames; exact Hm].
    simpl in Hp. rewrite app_nil_r in Hp. rewrite Hp.
    rewrite concat_scanOf_kept. f_equal. f_equal.
    apply filter_ext_eqb. intros f. apply labelOf_eqb. exact Hm.
Qed.

Lemma filter_filter_length {A} (p q : A -> bool) l :
  length (List.filter p (List.filter q l)) <= length (List.filter p l).
Proof.
  induction l as [|x l IH]; simpl; [lia|].
  destruct (q x); simpl; destruct (p x); simpl; lia.
Qed.

Lemma uniqueLabels_filter (q : HlMatch -> bool) hl :
  uniqueLabels hl -> uniqueLabels (List.filter q hl).
Proof.
  intros Hu cv Hcv. specialize (Hu cv Hcv).
  pose proof (filter_filter_length (hasLabel cv) q hl). lia.
Qed.

Lemma scanHasElements_some f :
  scanHasElements f = true -> exists c, scanOf c f <> [].
Proof.
  unfold scanHasElements. intros H.
  repeat (apply orb_true_iff in H; destruct H as [H|H]);
    [exists frm1|exists frm2|exists frm3|exists frm4
    |exists frm1SL|exists frm2SL|exists frm3SL|exists frm4SL];
    unfold scanOf; intros Hnil; rewrite Hnil in H; discriminate H.
Qed.

Lemma concat_map_nonempty {A B} (g : A -> list B) (p : A -> bool) l x :
  In x l -> p x = true -> g x <> [] -> concat (map g (List.filter p l)) <> [].
Proof.
  intros Hin Hp Hg Hnil.
  assert (Hx : In x (List.filter p l)) by (apply filter_In; auto).
  apply in_split in Hx as (l1 & l2 & Hl). rewrite Hl in Hnil.
  rewrite map_app, concat_app in Hnil. simpl in Hnil.
  apply app_eq_nil in Hnil as [_ Hnil]. apply app_eq_nil in Hnil as [Hnil _]. auto.
Qed.

(** C7: for a label that is not empty and not the placeholder, the final
    [hlMatches] never has two records; and when frames entered under that
    label yield results (the label is valid, or one of them has elements),
    it has exactly one record for the label, each of whose category lists
    is the concatenation, in frame order, of the lists of those frames. *)
Theorem same_label_frames_share_one_record (fs : list FrameScan) (L : string) :
  mergeableLabel L = true ->
  length (List.filter (hasLabel L) (aggregate fs)) <= 1
  /\ (existsb (entersUnder L) fs = true ->
      isValidCreativeVar L = true
      \/ existsb (fun f => scanHasElements f && String.eqb (fs_creativeVariation f) L) fs = true ->
      exists r,
        List.filter (hasLabel L) (aggregate fs) = [r]
        /\ forall c, catOf c r
             = concat (map (scanOf c) (List.filter (entersUnder L) fs))).
Proof.
  intros Hm. split.
  - rewrite aggregate_eq.
    apply (uniqueLabels_filter keepEntry _ (uniqueLabels_scanFrames fs) L Hm).
  - intros Hex Hres.
    destruct (scanFrames_entry fs L Hm Hex) as (r & Hr & Hc).
    exists r. split; [|exact Hc].
    rewrite aggregate_eq, filter_comm, Hr. simpl.
    assert (Hl : hasLabel L r = true).
    { assert (Hin : In r (List.filter (hasLabel L) (scanFrames fs))) by (rewrite Hr; left; reflexivity).
      apply filter_In in Hin. tauto. }
    apply hasLabel_true in Hl.
    assert (Hk : keepEntry r = true); [|rewrite Hk; reflexivity].
    unfold keepEntry. rewrite orString_empty, Hl.
    destruct Hres as [Hv|He]; [rewrite Hv; reflexivity|].
    apply orb_true_iff. right.
    apply existsb_exists in He as (f & Hin & Hf).
    apply andb_true_iff in Hf as [Hel Hlab].
    destruct (scanHasElements_some f Hel) as [c Hc'].
    destruct (hasElements r) eqn:Eh; [reflexivity|].
    pose proof (catOf_no_elements c r Eh) as Hnil. rewrite Hc in Hnil.
    exfalso. revert Hnil. apply (concat_map_nonempty _ _ _ f Hin); [|exact Hc'].
    unfold entersUnder, keepsFrame. rewrite Hel, Hlab, orb_true_r. reflexivity.
Qed.

Lemma same_label_frames_share_one_record_witness :
  exists r,
    List.filter (hasLabel "Char_Limit-10") (aggregate [sampleFrameA; sampleFrameB]) = [r]
    /\ forall c, catOf c r
         = concat (map (scanOf c)
             (List.filter (entersUnder "Char_Limit-10") [sampleFrameA; sampleFrameB])).
Proof.
  apply (same_label_frames_share_one_record [sampleFrameA; sampleFrameB] "Char_Limit-10").
  - vm_compute. reflexivity.
  - vm_compute. reflexivity.
  - left. vm_compute. reflexivity.
Defined.

(** ** Frame order *)

Lemma recEquiv_equivalence : Equivalence recEquiv.
Proof.
  split.
  - intros m. split; [reflexivity|]. intros c. reflexivity.
  - intros m1 m2 [Hl Hc]. split; [symmetry; exact Hl|]. intros c. symmetry. apply Hc.
  - intros m1 m2 m3 [Hl1 Hc1] [Hl2 Hc2]. split; [congruence|].
    intros c. transitivity (catOf c m2); auto.
Qed.

#[global] Existing Instance recEquiv_equivalence.

Lemma hasElements_false m : (forall c, catOf c m = []) -> hasElements m = false.
Proof.
  intros H. unfold hasElements.
  rewrite (H frm1 : matches m = []), (H frm2 : matches2 m = []),
          (H frm3 : matches3 m = []), (H frm4 : matches4 m = []),
          (H frm1SL : matchesSL1 m = []), (H frm2SL : matchesSL2 m = []),
          (H frm3SL : matchesSL3 m = []), (H frm4SL : matchesSL4 m = []).
  reflexivity.
Qed.

Lemma hasElements_recEquiv m1 m2 : recEquiv m1 m2 -> hasElements m1 = hasElements m2.
Proof.
  assert (Hone : forall a b, recEquiv a b -> hasElements a = false -> hasElements b = false).
  { intros a b [_ Hc] Ha. apply hasElements_false. intros c.
    apply Permutation_nil. rewrite <- (catOf_no_elements c a Ha). apply Hc. }
  intros H. destruct (hasElements m1) eqn:E1, (hasElements m2) eqn:E2; auto.
  - symmetry in H. rewrite (Hone _ _ H E2) in E1. discriminate.
  - rewrite (Hone _ _ H E1) in E2. discriminate.
Qed.

Lemma keepEntry_recEquiv m1 m2 : recEquiv m1 m2 -> keepEntry m1 = keepEntry m2.
Proof.
  intros H. unfold keepEntry. rewrite (hasElements_recEquiv _ _ H).
  destruct H as [-> _]. reflexivity.
Qed.

Lemma Permutation_filter_bool {A} (p : A -> bool) l l' :
  Permutation l l' -> Permutation (List.filter p l) (List.filter p l').
Proof.
  induction 1 as [|x l l' _ IH|x y l|l l' l'' _ IH1 _ IH2]; simpl.
  - reflexivity.
  - destruct (p x); [apply perm_skip|]; exact IH.
  - destruct (p x), (p y); try reflexivity. apply perm_swap.
  - transitivity (List.filter p l'); assumption.
Qed.

Lemma Permutation_partition {A} (p : A -> bool) l :
  Permutation l (List.filter p l ++ List.filter (fun x => negb (p x)) l).
Proof.
  induction l as [|x l IH]; simpl; [reflexivity|].
  destruct (p x); simpl.
  - apply perm_skip. exact IH.
  - apply Permutation_cons_app. exact IH.
Qed.

Lemma Permutation_concat_map {A B} (g : A -> list B) l l' :
  Permutation l l' -> Permutation (concat (map g l)) (concat (map g l')).
Proof.
  induction 1 as [|x l l' _ IH|x y l|l l' l'' _ IH1 _ IH2]; simpl.
  - reflexivity.
  - apply Permutation_app_head. exact IH.
  - rewrite !app_assoc. apply Permutation_app_tail. apply Permutation_app_comm.
  - transitivity (concat (map g l')); assumption.
Qed.

Lemma filter_updateFirst_untouched {A} (p q : A -> bool) g :
  (forall m, p m = true -> q m = false) -> (forall m, q (g m) = q m) ->
  forall l, List.filter q (updateFirst p g l) = List.filter q l.
Proof.
  intros Hpq Hg. induction l as [|x l IH]; simpl; [reflexivity|].
  destruct (p x) eqn:Ep; simpl.
  - rewrite Hg, (Hpq x Ep). reflexivity.
  - rewrite IH. reflexivity.
Qed.

(** The entries under the placeholder label after the frame loop: one per
    frame that is kept and has no label of its own, in frame order. *)
Lemma placeholder_fold fs : forall hl,
  List.filter (fun m => negb (mergeableEntry m)) (fold_left addFrame fs hl)
  = List.filter (fun m => negb (mergeableEntry m)) hl
    ++ map newEntry
         (List.filter (fun f => keepsFrame f && negb (mergeableLabel (labelOf f))) fs).
Proof.
  induction fs as [|f fs IH]; intros hl; simpl; [rewrite app_nil_r; reflexivity|].
  rewrite IH, addFrame_eq.
  destruct (keepsFrame f); simpl; [|reflexivity].
  destruct (mergeableLabel (labelOf f)) eqn:Em; simpl.
  - destruct (existsb (hasLabel (labelOf f)) hl).
    + rewrite filter_updateFirst_untouched; [reflexivity| |reflexivity].
      intros m Hm. apply hasLabel_true in Hm. unfold mergeableEntry. rewrite Hm, Em. reflexivity.
    + rewrite List.filter_app. simpl. unfold mergeableEntry at 2. simpl.
      fold (labelOf f). rewrite Em. simpl. rewrite app_nil_r. reflexivity.
  - rewrite List.filter_app. simpl. unfold mergeableEntry at 2. simpl.
    fold (labelOf f). rewrite Em. simpl. rewrite <- app_assoc. reflexivity.
Qed.

Lemma uniqueLabels_tail m hl : uniqueLabels (m :: hl) -> uniqueLabels hl.
Proof.
  intros Hu cv Hcv. specialize (Hu cv Hcv). simpl in Hu.
  destruct (hasLabel cv m); simpl in Hu; lia.
Qed.

Lemma NoDupA_uniqueLabels : forall l,
  uniqueLabels l -> (forall m, In m l -> mergeableEntry m = true) ->
  NoDupA recEquiv l.
Proof.
  induction l as [|m l IH]; intros Hu Hall; constructor.
  - intros Hin. apply InA_alt in Hin as (m' & [Hl _] & Hin').
    specialize (Hu (creativeVariation m) (Hall m (or_introl eq_refl))).
    simpl in Hu. unfold hasLabel at 1 in Hu. rewrite String.eqb_refl in Hu. simpl in Hu.
    assert (Hf : In m' (List.filter (hasLabel (creativeVariation m)) l)).
    { apply filter_In. split; [exact Hin'|]. apply hasLabel_true. symmetry. exact Hl. }
    destruct (List.filter (hasLabel (creativeVariation m)) l); simpl in *; [contradiction|lia].
  - apply IH; [eapply uniqueLabels_tail; eauto|]. intros m' Hm'. apply Hall. right. exact Hm'.
Qed.

Lemma existsb_Permutation {A} (p : A -> bool) l l' :
  Permutation l l' -> existsb p l = true -> existsb p l' = true.
Proof.
  intros Hp H. apply existsb_exists in H as (x & Hin & Hx).
  apply existsb_exists. exists x. split; [|exact Hx].
  eapply Permutation_in; eauto.
Qed.

(** A record of a mergeable label in the output for one frame order has a
    counterpart in the output for any other order. *)
Lemma mergeable_part_incl fs fs' : Permutation fs fs' ->
  forall x, InA recEquiv x (List.filter mergeableEntry (aggregate fs)) ->
            InA recEquiv x (List.filter mergeableEntry (aggregate fs')).
Proof.
  intros Hperm x Hx. apply InA_alt in Hx as (m1 & Hxm & Hin).
  apply filter_In in Hin as [Hin Hm]. rewrite aggregate_eq in Hin.
  apply filter_In in Hin as [Hin Hk].
  set (L := creativeVariation m1). unfold mergeableEntry in Hm. fold L in Hm.
  assert (Hex : existsb (fun f => keepsFrame f && String.eqb (fs_creativeVariation f) L) fs = true).
  { assert (Hl : existsb (hasLabel L) (scanFrames fs) = true).
    { apply existsb_exists. exists m1. split; [exact Hin|]. apply hasLabel_true. reflexivity. }
    unfold scanFrames in Hl. rewrite labels_fold in Hl. simpl in Hl. rewrite <- Hl.
    apply existsb_ext_eqb. intros f. rewrite (labelOf_eqb f L Hm). reflexivity. }
  destruct (scanFrames_entry fs L Hm Hex) as (r1 & Hr1 & Hc1).
  assert (Heq : r1 = m1).
  { assert (Hin1 : In m1 (List.filter (hasLabel L) (scanFrames fs))).
    { apply filter_In. split; [exact Hin|]. apply hasLabel_true. reflexivity. }
    rewrite Hr1 in Hin1. destruct Hin1 as [H|[]]. exact H. }
  subst r1.
  destruct (scanFrames_entry fs' L Hm (existsb_Permutation _ _ _ Hperm Hex)) as (r2 & Hr2 & Hc2).
  assert (Hin2 : In r2 (List.filter (hasLabel L) (scanFrames fs'))) by (rewrite Hr2; left; reflexivity).
  apply filter_In in Hin2 as [Hin2 Hl2]. apply hasLabel_true in Hl2.
  assert (Hequiv : recEquiv m1 r2).
  { split; [symmetry; exact Hl2|]. intros c. rewrite Hc1, Hc2.
    apply Permutation_concat_map, Permutation_filter_bool. exact Hperm. }
  apply InA_alt. exists r2. split; [transitivity m1; assumption|].
  apply filter_In. split.
  - rewrite aggregate_eq. apply filter_In. split; [exact Hin2|].
    rewrite <- (keepEntry_recEquiv _ _ Hequiv). exact Hk.
  - unfold mergeableEntry. rewrite Hl2. exact Hm.
Qed.

(** The final records do not depend on the order in which the frames are
    processed, up to the order of the records and of the elements within
    each list. *)
Lemma aggregate_Permutation fs fs' :
  Permutation fs fs' -> sameRecords (aggregate fs) (aggregate fs').
Proof.
  intros Hperm. unfold sameRecords.
  assert (Hsplit : forall gs, PermutationA recEquiv (aggregate gs)
            (List.filter mergeableEntry (aggregate gs)
             ++ List.filter (fun m => negb (mergeableEntry m)) (aggregate gs))).
  { intros gs. apply Permutation_PermutationA; [typeclasses eauto|].
    apply Permutation_partition. }
  rewrite (Hsplit fs), (Hsplit fs').
  transitivity (List.filter mergeableEntry (aggregate fs')
                ++ List.filter (fun m => negb (mergeableEntry m)) (aggregate fs)).
  - apply PermutationA_app_tail; [typeclasses eauto|].
    apply NoDupA_equivlistA_PermutationA; [typeclasses eauto| | |].
    + apply NoDupA_uniqueLabels.
      * apply uniqueLabels_filter. rewrite aggregate_eq.
        apply uniqueLabels_filter, uniqueLabels_scanFrames.
      * intros m Hm. apply filter_In in Hm. tauto.
    + apply NoDupA_uniqueLabels.
      * apply uniqueLabels_filter. rewrite aggregate_eq.
        apply uniqueLabels_filter, uniqueLabels_scanFrames.
      * intros m Hm. apply filter_In in Hm. tauto.
    + intros x. split; apply mergeable_part_incl; [exact Hperm|symmetry; exact Hperm].
  - apply PermutationA_app_head; [typeclasses eauto|].
    apply Permutation_PermutationA; [typeclasses eauto|].
    rewrite !aggregate_eq, !(filter_comm _ keepEntry).
    apply Permutation_filter_bool. unfold scanFrames. rewrite !placeholder_fold. simpl.
    apply Permutation_map, Permutation_filter_bool. exact Hperm.
Qed.

(** C10: merging the results of the frames of [A] and then those of [B]
    gives the same final records as merging those of [B] and then those of
    [A]: the same labels, and under each label the same elements in every
    category, up to the order of the records and of the elements. *)
Theorem aggregation_commutes (A B : list FrameScan) :
  sameRecords (aggregate (A ++ B)) (aggregate (B ++ A)).
Proof. apply aggregate_Permutation. apply Permutation_app_comm. Qed.

(** ** The resolver *)

Section ResolverFacts.

Variable titleText : string.
Variable titleFrame : string.
Variable idx : nat.
Variable containerIndex : option nat.
Variable elementType : string.
Variable allElements : list CollectedElement.
Variable creativeAssociationsMap : gmap string (list string).
Variable prefix : string.
Variable elementsByJvxBaseId : gmap string FrameElements.
Variable titleFrameMap : gmap string string.
Variable previewVariationTitles : list Title.

Lemma unusedOf_unused used el :
  In el (unusedOf allElements used) -> isUnused used el = true.
Proof. unfold unusedOf. intros H. apply filter_In in H. tauto. Qed.

Lemma strategy1_unused used el :
  strategy1 titleText containerIndex elementType elementsByJvxBaseId titleFrameMap used
    = Some el -> isUnused used el = true.
Proof.
  unfold strategy1, findFirst. intros H.
  destruct (titleFrameMap !! _) as [j|]; [|discriminate].
  destruct (truthy j); [|discriminate].
  destruct (elementsByJvxBaseId !! j) as [fe|]; [|discriminate].
  apply find_some in H. tauto.
Qed.

Lemma strategy2_unused used el :
  strategy2 containerIndex allElements used = Some el -> isUnused used el = true.
Proof.
  unfold strategy2. intros H.
  destruct containerIndex as [ci|]; [|discriminate].
  destruct (_ && _); [|discriminate].
  destruct (allElements !! ci) as [e|]; [|discriminate].
  destruct (isUnused used e) eqn:E; [|discriminate].
  inversion H; subst. exact E.
Qed.

Lemma firstAssociated_unused used ids el :
  firstAssociated allElements used ids = Some el -> isUnused used el = true.
Proof.
  induction ids as [|i ids IH]; simpl; [discriminate|]. unfold findFirst.
  destruct (find _ allElements) as [e|] eqn:E; [|exact IH].
  intros H. inversion H; subst. apply find_some in E as [_ E].
  apply andb_true_iff in E. tauto.
Qed.

Lemma strategy3_unused used el :
  strategy3 titleText idx containerIndex allElements creativeAssociationsMap used
    = Some el -> isUnused used el = true.
Proof.
  unfold strategy3. destruct (creativeAssociationsMap !! _); [|discriminate].
  apply firstAssociated_unused.
Qed.

Lemma strategy4_in unusedElements el :
  strategy4 titleText prefix unusedElements = Some el -> In el unusedElements.
Proof.
  unfold strategy4, findFirst. destruct (firstNumber titleText) as [num|]; [|discriminate].
  set (m := List.filter _ unusedElements).
  assert (Hsub : forall x, In x m -> In x unusedElements).
  { intros x Hx. apply filter_In in Hx. tauto. }
  destruct m as [|first rest] eqn:Em; [discriminate|].
  destruct (find _ (first :: rest)) as [e|] eqn:E; intros H; inversion H; subst.
  - apply Hsub. apply find_some in E. tauto.
  - apply Hsub. left. reflexivity.
Qed.

Lemma strategy5_in unusedElements el :
  strategy5 titleText titleFrame titleFrameMap previewVariationTitles unusedElements
    = Some el -> In el unusedElements.
Proof.
  unfold strategy5. destruct (truthy titleFrame); [|discriminate].
  set (m := List.filter _ unusedElements).
  assert (Hsub : forall x, In x m -> In x unusedElements).
  { intros x Hx. apply filter_In in Hx. tauto. }
  destruct m as [|first rest] eqn:Em; [discriminate|].
  destruct (findIndex _ _) as [i|].
  - destruct ((first :: rest) !! i) as [e|] eqn:E; intros H; inversion H; subst.
    + apply Hsub. apply list_elem_of_In. eapply list_elem_of_lookup_2; eauto.
    + apply Hsub. left. reflexivity.
  - intros H. inversion H; subst. apply Hsub. left. reflexivity.
Qed.

Lemma strategy6_in unusedElements el :
  strategy6 idx unusedElements = Some el -> In el unusedElements.
Proof.
  unfold strategy6. destruct (0 <? length unusedElements); [|discriminate].
  intros H. apply list_elem_of_In. eapply list_elem_of_lookup_2; eauto.
Qed.

Lemma attempt_selection used st pick :
  selection used st ->
  (forall el, snd st = used -> pick = Some el -> isUnused used el = true) ->
  selection used (attempt st pick).
Proof.
  intros [[H1 H2]|(el & H1 & H2 & H3)] Hp; unfold attempt; rewrite H1.
  - destruct pick as [el|]; [|left; auto].
    right. exists el. simpl. split; auto. split; [apply Hp; auto|]. rewrite H2. reflexivity.
  - right. exists el. auto.
Qed.

Lemma associate_selection used :
  exists st, selection used st
    /\ associateElementsForType titleText titleFrame idx containerIndex elementType
         allElements creativeAssociationsMap prefix elementsByJvxBaseId titleFrameMap
         previewVariationTitles used = (dedupById ∅ (fst st), snd st).
Proof.
  unfold associateElementsForType. eexists. split; [|reflexivity].
  apply attempt_selection;
    [|intros el _ H; apply unusedOf_unused; eapply strategy6_in; eauto].
  apply attempt_selection;
    [|intros el _ H; apply unusedOf_unused; eapply strategy5_in; eauto].
  apply attempt_selection;
    [|intros el _ H; apply unusedOf_unused; eapply strategy4_in; eauto].
  apply attempt_selection; [|intros el ->; apply strategy3_unused].
  apply attempt_selection; [|intros el ->; apply strategy2_unused].
  apply attempt_selection; [|intros el _; apply strategy1_unused].
  left. auto.
Qed.

Lemma isUnused_not_elem used el : isUnused used el = true <-> ce_id el ∉ used.
Proof.
  unfold isUnused. rewrite negb_true_iff, bool_decide_eq_false. reflexivity.
Qed.

(** One call returns at most one element; its id was not used before the
    call and is used after it, and the used set only grows. *)
Lemma associate_fresh used :
  let r := associateElementsForType titleText titleFrame idx containerIndex elementType
             allElements creativeAssociationsMap prefix elementsByJvxBaseId titleFrameMap
             previewVariationTitles used in
  (used ⊆ snd r)
  /\ NoDup (idsOf (fst r))
  /\ forall id, id ∈ idsOf (fst r) -> (id ∉ used) /\ (id ∈ snd r).
Proof.
  destruct (associate_selection used) as (st & Hsel & ->). simpl.
  destruct Hsel as [[H1 H2]|(el & H1 & H2 & H3)]; rewrite H1; simpl.
  - rewrite H2. split; [set_solver|]. split; [constructor|]. intros id H. inversion H.
  - rewrite H3. split; [apply union_subseteq_r|].
    destruct (truthy (ce_id el) && _); simpl.
    + split; [apply NoDup_singleton|]. intros id H.
      apply list_elem_of_singleton in H. subst id.
      apply isUnused_not_elem in H2. split; [exact H2|].
      apply elem_of_union_l, elem_of_singleton. reflexivity.
    + split; [constructor|]. intros id H. inversion H.
Qed.

End ResolverFacts.

Lemma runCall_fresh c used :
  (used ⊆ snd (runCall c used))
  /\ NoDup (idsOf (fst (runCall c used)))
  /\ forall id, id ∈ idsOf (fst (runCall c used)) -> (id ∉ used) /\ (id ∈ snd (runCall c used)).
Proof. unfold runCall. apply associate_fresh. Qed.

Lemma runCalls_cons c rest used :
  runCalls (c :: rest) used
  = (fst (runCall c used) :: fst (runCalls rest (snd (runCall c used))),
     snd (runCalls rest (snd (runCall c used)))).
Proof.
  cbn [runCalls]. destruct (runCall c used) as [result used']. cbn [fst snd].
  destruct (runCalls rest used') as [results final]. reflexivity.
Qed.

Lemma runCalls_fresh : forall calls used,
  (used ⊆ snd (runCalls calls used))
  /\ NoDup (concat (map idsOf (fst (runCalls calls used))))
  /\ forall id, id ∈ concat (map idsOf (fst (runCalls calls used))) ->
       (id ∉ used) /\ (id ∈ snd (runCalls calls used)).
Proof.
  induction calls as [|c rest IH]; intros used.
  - simpl. split; [set_solver|]. split; [constructor|]. intros id H. inversion H.
  - rewrite runCalls_cons.
    pose proof (runCall_fresh c used) as (Hs & Hn & Hf).
    specialize (IH (snd (runCall c used))) as (IHs & IHn & IHf).
    cbn [fst snd map concat].
    split; [transitivity (snd (runCall c used)); assumption|]. split.
    + apply NoDup_app. split; [exact Hn|]. split; [|exact IHn].
      intros id H1 H2. destruct (Hf id H1) as [_ H3]. destruct (IHf id H2) as [H4 _].
      contradiction.
    + intros id H. apply elem_of_app in H as [H|H].
      * destruct (Hf id H) as [H1 H2]. split; [exact H1|]. apply IHs. exact H2.
      * destruct (IHf id H) as [H1 H2]. split; [|exact H2].
        intros Hu. apply H1. apply Hs. exact Hu.
Qed.

(** C4: over any sequence of calls of the resolver for one category that
    share the used-id set, no element id is returned twice: the ids returned
    to distinct containers are pairwise disjoint, every returned id was
    unused when the sequence began and is in the used-id set at its end. *)
Theorem resolver_never_reuses_an_id (calls : list Call) (used : gset string) :
  NoDup (concat (map idsOf (fst (runCalls calls used))))
  /\ (forall i j ri rj id,
        i <> j ->
        fst (runCalls calls used) !! i = Some ri ->
        fst (runCalls calls used) !! j = Some rj ->
        id ∈ idsOf ri -> id ∈ idsOf rj -> False)
  /\ (forall id, id ∈ concat (map idsOf (fst (runCalls calls used))) ->
        (id ∉ used) /\ (id ∈ snd (runCalls calls used))).
Proof.
  pose proof (runCalls_fresh calls used) as (_ & Hnd & Hf).
  split; [exact Hnd|]. split; [|exact Hf].
  revert Hnd. generalize (fst (runCalls calls used)). clear.
  intros results. induction results as [|r results IH]; intros Hnd i j ri rj id Hij Hi Hj Hri Hrj.
  - rewrite lookup_nil in Hi. discriminate.
  - simpl in Hnd. apply NoDup_app in Hnd as (_ & Hdis & Hnd').
    destruct i as [|i], j as [|j]; simpl in Hi, Hj.
    + congruence.
    + inversion Hi; subst. apply (Hdis id Hri).
      apply list_elem_of_In, in_concat. exists (idsOf rj).
      split; [|apply list_elem_of_In; exact Hrj].
      apply in_map, list_elem_of_In. eapply list_elem_of_lookup_2; eauto.
    + inversion Hj; subst. apply (Hdis id Hrj).
      apply list_elem_of_In, in_concat. exists (idsOf ri).
      split; [|apply list_elem_of_In; exact Hri].
      apply in_map, list_elem_of_In. eapply list_elem_of_lookup_2; eauto.
    + apply (IH Hnd' i j ri rj id); auto.
Qed.

Lemma resolver_never_reuses_an_id_witness :
  fst (runCalls [sampleCall 0 (Some 0); sampleCall 1 (Some 0); sampleCall 2 None] ∅)
    !! 0 = Some [sampleCollected "frm1_HL_a"]
  /\ fst (runCalls [sampleCall 0 (Some 0); sampleCall 1 (Some 0); sampleCall 2 None] ∅)
    !! 1 = Some [sampleCollected "frm1_HL_c"]
  /\ ("frm1_HL_a" ∈ idsOf [sampleCollected "frm1_HL_c"] -> False).
Proof.
  split; [vm_compute; reflexivity|]. split; [vm_compute; reflexivity|].
  intros H.
  apply (proj1 (proj2 (resolver_never_reuses_an_id
           [sampleCall 0 (Some 0); sampleCall 1 (Some 0); sampleCall 2 None] ∅))
           0 1 [sampleCollected "frm1_HL_a"] [sampleCollected "frm1_HL_c"] "frm1_HL_a").
  - lia.
  - vm_compute; reflexivity.
  - vm_compute; reflexivity.
  - apply list_elem_of_In. simpl. auto.
  - exact H.
Defined.

(** C5 as stated fails: for the second creative ([idx = 1]) in container 0,
    with [frm1_HL_a] already used, every earlier strategy selects nothing
    and two unused elements remain; the fallback returns the element at
    [idx mod 2], [frm1_HL_c], not the one at [containerIndex mod 2]. *)
Lemma round_robin_ignores_container_index :
  let c := sampleCall 1 (Some 0) in
  let used : gset string := {["frm1_HL_a"]} in
  let unusedElements := unusedOf (c_allElements c) used in
  earlierStrategiesFail c used
  /\ unusedElements = [sampleCollected "frm1_HL_b"; sampleCollected "frm1_HL_c"]
  /\ unusedElements !! (0 mod length unusedElements) = Some (sampleCollected "frm1_HL_b")
  /\ fst (runCall c used) = [sampleCollected "frm1_HL_c"]
  /\ fst (runCall c used) <> [sampleCollected "frm1_HL_b"].
Proof.
  repeat split; try (vm_compute; reflexivity).
  vm_compute. intros H. discriminate H.
Qed.

Lemma dedupById_single el : ce_id el <> "" -> dedupById ∅ [el] = [el].
Proof.
  intros Hid. simpl. unfold truthy.
  destruct (String.eqb_spec (ce_id el) ""); [contradiction|]. simpl.
  rewrite bool_decide_eq_false_2; [reflexivity|]. set_solver.
Qed.

(** The strategies are tried in order and the first one that yields an
    element decides the result of the call. *)
Lemma runCall_firstPick c used :
  runCall c used =
  match firstPick c used with
  | Some el => (dedupById ∅ [el], {[ce_id el]} ∪ used)
  | None => ([], used)
  end.
Proof.
  unfold runCall, associateElementsForType, firstPick.
  destruct (strategy1 _ _ _ _ _ used) as [e1|]; cbn [attempt fst snd]; [reflexivity|].
  destruct (strategy2 _ _ used) as [e2|]; cbn [attempt fst snd]; [reflexivity|].
  destruct (strategy3 _ _ _ _ _ used) as [e3|]; cbn [attempt fst snd]; [reflexivity|].
  destruct (strategy4 _ _ _) as [e4|]; cbn [attempt fst snd]; [reflexivity|].
  destruct (strategy5 _ _ _ _ _) as [e5|]; cbn [attempt fst snd]; [reflexivity|].
  destruct (strategy6 _ _) as [e6|]; cbn [attempt fst snd]; reflexivity.
Qed.

Lemma strategy1_source c used el :
  strategy1 (c_titleText c) (c_containerIndex c) (c_elementType c)
    (c_elementsByJvxBaseId c) (c_titleFrameMap c) used = Some el ->
  exists j fe, c_elementsByJvxBaseId c !! j = Some fe /\ In el (frameElementsOf fe).
Proof.
  unfold strategy1, findFirst. intros H.
  destruct (c_titleFrameMap c !! _) as [j|]; [|discriminate].
  destruct (truthy j); [|discriminate].
  destruct (c_elementsByJvxBaseId c !! j) as [fe|] eqn:Ej; [|discriminate].
  exists j, fe. split; [exact Ej|]. apply find_some in H as [H _].
  unfold frameElementsOf. rewrite !in_app_iff.
  destruct (String.eqb (c_elementType c) "frm1"); [tauto|].
  destruct (String.eqb (c_elementType c) "frm2"); [tauto|].
  destruct (String.eqb (c_elementType c) "frm3"); [tauto|].
  destruct (String.eqb (c_elementType c) "frm4"); [tauto|]. destruct H.
Qed.

Lemma strategy2_in containerIndex allElements used el :
  strategy2 containerIndex allElements used = Some el -> In el allElements.
Proof.
  unfold strategy2. intros H.
  destruct containerIndex as [ci|]; [|discriminate].
  destruct (_ && _); [|discriminate].
  destruct (allElements !! ci) as [e|] eqn:E; [|discriminate].
  destruct (isUnused used e); [|discriminate].
  inversion H; subst. apply list_elem_of_In. eapply list_elem_of_lookup_2; eauto.
Qed.

Lemma strategy3_in titleText idx containerIndex allElements assoc used el :
  strategy3 titleText idx containerIndex allElements assoc used = Some el ->
  In el allElements.
Proof.
  unfold strategy3. destruct (assoc !! _) as [ids|]; [|discriminate].
  induction ids as [|i ids IH]; simpl; [discriminate|]. unfold findFirst.
  destruct (find _ allElements) as [e|] eqn:E; [|exact IH].
  intros H. inversion H; subst. apply find_some in E. tauto.
Qed.

Lemma unusedOf_in allElements used el :
  In el (unusedOf allElements used) -> In el allElements.
Proof. unfold unusedOf. intros H. apply filter_In in H. tauto. Qed.

Lemma firstPick_nonempty_id c used el :
  idsNonEmpty c -> firstPick c used = Some el -> ce_id el <> "".
Proof.
  intros [Hall Hfe] H. rewrite Forall_forall in Hall.
  assert (Hin : In el (c_allElements c) -> ce_id el <> "").
  { intros Hel. apply Hall. apply list_elem_of_In. exact Hel. }
  unfold firstPick in H.
  destruct (strategy1 _ _ _ _ _ used) as [e1|] eqn:E1.
  { inversion H; subst. apply strategy1_source in E1 as (j & fe & Hj & He).
    specialize (Hfe j fe Hj). rewrite Forall_forall in Hfe.
    apply Hfe. apply list_elem_of_In. exact He. }
  destruct (strategy2 _ _ used) as [e2|] eqn:E2.
  { inversion H; subst. apply Hin. eapply strategy2_in; eauto. }
  destruct (strategy3 _ _ _ _ _ used) as [e3|] eqn:E3.
  { inversion H; subst. apply Hin. eapply strategy3_in; eauto. }
  destruct (strategy4 _ _ _) as [e4|] eqn:E4.
  { inversion H; subst. apply Hin. eapply unusedOf_in, strategy4_in; eauto. }
  destruct (strategy5 _ _ _ _ _) as [e5|] eqn:E5.
  { inversion H; subst. apply Hin. eapply unusedOf_in, strategy5_in; eauto. }
  apply Hin. eapply unusedOf_in, strategy6_in; eauto.
Qed.

Lemma strategy6_some idx unusedElements :
  unusedElements <> [] ->
  exists el, unusedElements !! (idx mod length unusedElements) = Some el
             /\ strategy6 idx unusedElements = Some el.
Proof.
  intros Hne.
  assert (Hlen : 0 < length unusedElements).
  { destruct unusedElements; simpl; [congruence|lia]. }
  destruct (lookup_lt_is_Some_2 unusedElements (idx mod length unusedElements))
    as [el Hel]; [apply Nat.mod_upper_bound; lia|].
  exists el. split; [exact Hel|]. unfold strategy6.
  replace (0 <? length unusedElements) with true
    by (symmetry; apply Nat.ltb_lt; exact Hlen).
  exact Hel.
Qed.

(** C5, amended: when at least one unused element of the category remains,
    every call returns exactly one element, so the container receives one;
    and when every earlier strategy selects nothing, that element is
    [unusedElements[idx mod unusedElements.length]], where [idx] is the
    creative's index among all titles, and its id is marked as used.
    Elements handed to the resolver have non-empty ids. *)
Theorem round_robin_assigns_by_creative_index (c : Call) (used : gset string) :
  unusedOf (c_allElements c) used <> [] ->
  idsNonEmpty c ->
  (exists el, runCall c used = ([el], {[ce_id el]} ∪ used))
  /\ (earlierStrategiesFail c used ->
      exists el,
        unusedOf (c_allElements c) used
          !! (c_idx c mod length (unusedOf (c_allElements c) used)) = Some el
        /\ runCall c used = ([el], {[ce_id el]} ∪ used)).
Proof.
  intros Hne Hids.
  destruct (strategy6_some (c_idx c) _ Hne) as (el6 & Hlook & Hs6).
  split.
  - assert (Hpick : exists el, firstPick c used = Some el).
    { unfold firstPick.
      destruct (strategy1 _ _ _ _ _ used); [eauto|].
      destruct (strategy2 _ _ used); [eauto|].
      destruct (strategy3 _ _ _ _ _ used); [eauto|].
      destruct (strategy4 _ _ _); [eauto|].
      destruct (strategy5 _ _ _ _ _); [eauto|]. eauto. }
    destruct Hpick as [el Hel]. exists el.
    rewrite runCall_firstPick, Hel.
    rewrite dedupById_single; [reflexivity|].
    eapply firstPick_nonempty_id; eauto.
  - intros (H1 & H2 & H3 & H4 & H5). exists el6. split; [exact Hlook|].
    assert (Hel : firstPick c used = Some el6).
    { unfold firstPick. rewrite H1, H2, H3, H4, H5. exact Hs6. }
    rewrite runCall_firstPick, Hel.
    rewrite dedupById_single; [reflexivity|].
    eapply firstPick_nonempty_id; eauto.
Qed.

Lemma round_robin_assigns_by_creative_index_witness :
  exists el,
    unusedOf (c_allElements (sampleCall 1 (Some 0))) {["frm1_HL_a"]}
      !! (1 mod length (unusedOf (c_allElements (sampleCall 1 (Some 0))) {["frm1_HL_a"]}))
      = Some el
    /\ runCall (sampleCall 1 (Some 0)) {["frm1_HL_a"]}
       = ([el], {[ce_id el]} ∪ {["frm1_HL_a"]}).
Proof.
  apply (round_robin_assigns_by_creative_index (sampleCall 1 (Some 0)) {["frm1_HL_a"]}).
  - vm_compute. intros H. discriminate H.
  - split.
    + repeat constructor; vm_compute; intros H; discriminate H.
    + intros j fe H. simpl in H. rewrite lookup_empty in H. discriminate H.
  - repeat split; vm_compute; reflexivity.
Defined.

(** ** The collection by marker id *)

Lemma truthy_nonempty s : truthy s = true -> s <> "".
Proof.
  unfold truthy. destruct (String.eqb_spec s ""); [discriminate|auto].
Qed.

Lemma collectStep_collected m j st e : collected st -> collected (collectStep m j st e).
Proof.
  intros (Hnd & Hseen & Hne). unfold collectStep.
  destruct (truthy (er_id e)) eqn:Et; simpl; [|repeat split; assumption].
  destruct (bool_decide (er_id e ∈ st.2)) eqn:Ed; simpl; [repeat split; assumption|].
  apply bool_decide_eq_false in Ed.
  unfold collected, idsOf. simpl. rewrite map_app. simpl. repeat split.
  - apply NoDup_app. split; [exact Hnd|]. split; [|repeat constructor; set_solver].
    intros id Hid Hid'. apply list_elem_of_singleton in Hid'. subst id.
    apply Ed, Hseen. apply list_elem_of_In. exact Hid.
  - intros id Hid. apply in_app_or in Hid as [Hid|[<-|[]]].
    + apply elem_of_union_r, Hseen, Hid.
    + apply elem_of_union_l, elem_of_singleton. reflexivity.
  - apply Forall_app. split; [exact Hne|]. repeat constructor.
    simpl. apply truthy_nonempty. exact Et.
Qed.

Lemma collectEntry_collected get st m : collected st -> collected (collectEntry get st m).
Proof.
  intros H. unfold collectEntry. destruct (truthy (jvxBaseIdOf m)); [|exact H].
  revert st H. induction (get m) as [|e l IH]; intros st H; simpl; [exact H|].
  apply IH. apply collectStep_collected. exact H.
Qed.

(** The elements collected for a category have distinct, non-empty ids. *)
Lemma collectAll_ids get hl :
  NoDup (idsOf (collectAll get hl))
  /\ Forall (fun el => ce_id el <> "") (collectAll get hl).
Proof.
  unfold collectAll.
  assert (Hfold : forall l st, collected st -> collected (fold_left (collectEntry get) l st)).
  { induction l as [|m l IH]; intros st Hst; simpl; [exact Hst|].
    apply IH. apply collectEntry_collected. exact Hst. }
  assert (H : collected (fold_left (collectEntry get) hl ([], ∅))).
  { apply Hfold. repeat split; simpl; [constructor|intros id []|constructor]. }
  destruct H as (H1 & _ & H3). split; assumption.
Qed.

(** ** Worked examples *)

Example normalized_text_of_sample :
  fst (buildNormalizedTextAndMap sampleEl) = str "Der neue MAZDA CX-60".
Proof. reflexivity. Qed.

Example phrase_on_one_line :
  isPhraseSingleLineRobust unit oneLine sampleEl (str "MAZDA CX-60") checkOptions
  = {| found := true; singleLine := Some true; rectsCount := 1; rects := [tt] |}.
Proof. reflexivity. Qed.

Example phrase_absent :
  isPhraseSingleLineRobust unit oneLine sampleEl (str "MAZDA MX-5") checkOptions
  = {| found := false; singleLine := None; rectsCount := 0; rects := [] |}.
Proof. reflexivity. Qed.

Example default_options_are_case_sensitive :
  found (isPhraseSingleLineRobust unit oneLine sampleEl (str "mazda cx-60") defaultOptions)
  = false.
Proof. reflexivity. Qed.

Example blank_phrase_not_found :
  isPhraseSingleLineRobust unit oneLine sampleEl (str "  ") checkOptions
  = {| found := false; singleLine := None; rectsCount := 0; rects := [] |}.
Proof. reflexivity. Qed.

Example wrapped_model_is_reported :
  brokenModels (buildResponse [] (scanFrames [scenarioFrame]))
  = [{| br_creativeVariation := "Char_Limit-10";
        br_elementId := "frm1_HL_x";
        br_elementType := "HL";
        br_brokenModels := [{| ms_model := "MAZDA CX-60"; ms_found := true;
                               ms_singleLine := Some false; ms_rectsCount := 2 |}];
        br_outerHTML := "<div id=frm1_HL_x>" |}].
Proof. vm_compute. reflexivity. Qed.

Example two_marker_ids_in_html :
  matchAllMarkers 0 (idAttribute "jvxBase_a1" ++ str " " ++ idAttribute "jvxBase_b2")
  = [str "jvxBase_a1"; str "jvxBase_b2"].
Proof. reflexivity. Qed.

Example first_number_of_title : firstNumber "Char_Limit-10" = Some (str "10").
Proof. reflexivity. Qed.

Example same_label_frames_merged :
  map (fun m => (creativeVariation m, frameName m, map er_id (matches m)))
      (aggregate [sampleFrameA; sampleFrameB])
  = [("Char_Limit-10", "jvxBase_1", ["frm1_HL_a"; "frm1_HL_a"])].
Proof. vm_compute. reflexivity. Qed.

Example number_in_title_selects_matching_id :
  fst (runCall
         {| c_titleText := "Char_Limit-10"; c_titleFrame := ""; c_idx := 0;
            c_containerIndex := Some 5; c_elementType := "frm1";
            c_allElements := [sampleCollected "frm1_HL_9"; sampleCollected "frm1_HL_10"];
            c_creativeAssociationsMap := ∅; c_prefix := "frm1_HL_";
            c_elementsByJvxBaseId := ∅; c_titleFrameMap := ∅;
            c_previewVariationTitles := [] |} ∅)
  = [sampleCollected "frm1_HL_10"].
Proof. vm_compute. reflexivity. Qed.

(** The pattern accepts a single quote to open and a double quote to close,
    so a match can begin before an attribute and end at its opening quote. *)
Example unbalanced_quotes_match :
  matchAllMarkers 0 (str "id='jvxBase_q " ++ idAttribute "jvxBase_xyz")
  = [str "jvxBase_q id="].
Proof. reflexivity. Qed.

(** * Further properties *)

(** ** The offset map *)

Lemma Forall2_removelast {A B} (R : A -> B -> Prop) : forall l k,
  Forall2 R l k -> Forall2 R (removelast l) (removelast k).
Proof.
  induction 1 as [|x y l k Hxy Hlk IH]; simpl; [constructor|].
  destruct Hlk as [|x' y' l' k' Hxy' Hlk']; [constructor|].
  constructor; [exact Hxy|exact IH].
Qed.

Lemma stepChar_mapsTo nodes nd i ch st full :
  nodes !! nd = Some full -> full !! i = Some ch ->
  Forall2 (mapsTo nodes) (ns_normalized st) (ns_mapping st) ->
  Forall2 (mapsTo nodes) (ns_normalized (stepChar nd i ch st))
          (ns_mapping (stepChar nd i ch st)).
Proof.
  intros Hnd Hi H. unfold stepChar.
  destruct (isWhitespace ch) eqn:Ews.
  - destruct (negb (ns_lastWasSpace st) && (0 <? length (ns_normalized st))); [|exact H].
    simpl. apply Forall2_app; [exact H|]. repeat constructor.
    exists full, ch. simpl. rewrite Ews. auto.
  - simpl. apply Forall2_app; [exact H|]. repeat constructor.
    exists full, ch. simpl. rewrite Ews. auto.
Qed.

Lemma scanText_mapsTo nodes nd full : nodes !! nd = Some full ->
  forall txt i st,
    (forall k c, txt !! k = Some c -> full !! (i + k) = Some c) ->
    Forall2 (mapsTo nodes) (ns_normalized st) (ns_mapping st) ->
    Forall2 (mapsTo nodes) (ns_normalized (scanText nd txt i st))
            (ns_mapping (scanText nd txt i st)).
Proof.
  intros Hnd txt. induction txt as [|ch rest IH]; intros i st Hsub H; simpl; [exact H|].
  apply IH.
  - intros k c Hk. replace (S i + k) with (i + S k) by lia. apply Hsub. exact Hk.
  - eapply stepChar_mapsTo; eauto.
    specialize (Hsub 0 ch eq_refl). rewrite Nat.add_0_r in Hsub. exact Hsub.
Qed.

Lemma walkNodes_mapsTo nodes : forall rest nd st,
  (forall k txt, rest !! k = Some txt -> nodes !! (nd + k) = Some txt) ->
  Forall2 (mapsTo nodes) (ns_normalized st) (ns_mapping st) ->
  Forall2 (mapsTo nodes) (ns_normalized (walkNodes rest nd st))
          (ns_mapping (walkNodes rest nd st)).
Proof.
  induction rest as [|txt rest IH]; intros nd st Hsub H; simpl; [exact H|].
  apply IH.
  - intros k t Hk. replace (S nd + k) with (nd + S k) by lia. apply Hsub. exact Hk.
  - apply (scanText_mapsTo nodes nd txt); [|intros k c Hk; exact Hk|exact H].
    specialize (Hsub 0 txt eq_refl). rewrite Nat.add_0_r in Hsub. exact Hsub.
Qed.

(** X1: The offset map is sound: it has one entry per character of the
    normalized text, and the entry of a character names the code unit of a
    text node of the element that the character stands for: that unit
    itself, or a white-space unit when the character is a space. *)
Theorem offset_map_names_the_source_units (element : Element) :
  Forall2 (mapsTo (el_textNodes element))
          (fst (buildNormalizedTextAndMap element))
          (snd (buildNormalizedTextAndMap element)).
Proof.
  unfold buildNormalizedTextAndMap.
  set (st := walkNodes _ _ _).
  assert (H0 : Forall2 (mapsTo (el_textNodes element)) (ns_normalized st) (ns_mapping st)).
  { apply walkNodes_mapsTo; [intros k txt Hk; exact Hk|]. simpl. constructor. }
  assert (H1 : Forall2 (mapsTo (el_textNodes element))
                 (fst (dropLeadingSpace (ns_normalized st, ns_mapping st)))
                 (snd (dropLeadingSpace (ns_normalized st, ns_mapping st)))).
  { unfold dropLeadingSpace. cbn [fst snd].
    destruct H0 as [|ch e n m Hce Hnm]; [constructor|].
    destruct (ascii_eqb ch space); cbn [fst snd tail]; [exact Hnm|].
    constructor; assumption. }
  destruct (dropLeadingSpace _) as [n m]. cbn [fst snd] in H1.
  unfold dropTrailingSpace. cbn [fst snd].
  destruct (last n) as [ch|]; [|exact H1].
  destruct (ascii_eqb ch space); [|exact H1]. cbn [fst snd].
  apply Forall2_removelast. exact H1.
Qed.

Lemma increasing_snoc m x :
  increasing m -> Forall (fun e => entryLt e x) m -> increasing (m ++ [x]).
Proof.
  intros Hinc Hall i j ei ej Hij Hi Hj.
  assert (Hj' : j < length (m ++ [x])) by (eapply lookup_lt_Some; eauto).
  rewrite length_app in Hj'. simpl in Hj'.
  rewrite lookup_app_l in Hi by lia.
  destruct (decide (j < length m)) as [Hlt|Hge].
  - rewrite lookup_app_l in Hj by lia. apply (Hinc i j ei ej); assumption.
  - rewrite lookup_app_r in Hj by lia.
    replace (j - length m) with 0 in Hj by lia. simpl in Hj. inversion Hj; subst ej.
    rewrite Forall_forall in Hall. apply Hall. eapply list_elem_of_lookup_2; eauto.
Qed.

Lemma increasing_tail m : increasing m -> increasing (tail m).
Proof.
  destruct m as [|e m]; simpl; [auto|].
  intros Hinc i j ei ej Hij Hi Hj. apply (Hinc (S i) (S j)); simpl; auto. lia.
Qed.

Lemma lookup_removelast {A} : forall (l : list A) i x,
  removelast l !! i = Some x -> l !! i = Some x.
Proof.
  induction l as [|a l IH]; intros i x H; simpl in H; [rewrite lookup_nil in H; discriminate|].
  destruct l as [|b l']; [rewrite lookup_nil in H; discriminate|].
  destruct i as [|i]; simpl in *; [exact H|]. apply IH. exact H.
Qed.

Lemma increasing_removelast m : increasing m -> increasing (removelast m).
Proof.
  intros Hinc i j ei ej Hij Hi Hj.
  apply (Hinc i j); auto using lookup_removelast.
Qed.

Lemma stepChar_scannedUpTo nd i ch st :
  scannedUpTo nd i (ns_mapping st) ->
  scannedUpTo nd (S i) (ns_mapping (stepChar nd i ch st)).
Proof.
  intros [Hinc Hall].
  assert (Hall' : Forall (fun e => entryLt e {| node := nd; offset := S i |}) (ns_mapping st)).
  { eapply Forall_impl; [exact Hall|]. intros e [H|[H1 H2]]; [left; exact H|].
    right. simpl in *. split; [exact H1|lia]. }
  assert (Hnew : scannedUpTo nd (S i) (ns_mapping st ++ [{| node := nd; offset := i |}])).
  { split; [apply increasing_snoc; assumption|].
    apply Forall_app. split; [exact Hall'|]. constructor; [|constructor].
    right. simpl. split; [reflexivity|lia]. }
  unfold stepChar. destruct (isWhitespace ch); [|exact Hnew].
  destruct (negb (ns_lastWasSpace st) && (0 <? length (ns_normalized st))); [exact Hnew|].
  split; assumption.
Qed.

Lemma scanText_scannedUpTo nd : forall txt i st,
  scannedUpTo nd i (ns_mapping st) ->
  scannedUpTo nd (i + length txt) (ns_mapping (scanText nd txt i st)).
Proof.
  induction txt as [|ch txt IH]; intros i st H; simpl.
  - rewrite Nat.add_0_r. exact H.
  - replace (i + S (length txt)) with (S i + length txt) by lia.
    apply IH. apply stepChar_scannedUpTo. exact H.
Qed.

Lemma walkNodes_increasing : forall nodes nd st,
  scannedUpTo nd 0 (ns_mapping st) -> increasing (ns_mapping (walkNodes nodes nd st)).
Proof.
  induction nodes as [|txt nodes IH]; intros nd st H; simpl; [apply H|].
  apply IH. destruct (scanText_scannedUpTo nd txt 0 st H) as [Hinc Hall].
  split; [exact Hinc|].
  eapply Forall_impl; [exact Hall|]. intros e [He|[He _]]; left; simpl in *; lia.
Qed.

Lemma trimmed_increasing n m :
  increasing m -> increasing (snd (dropTrailingSpace (dropLeadingSpace (n, m)))).
Proof.
  intros H0.
  assert (H1 : increasing (snd (dropLeadingSpace (n, m)))).
  { unfold dropLeadingSpace. cbn [fst snd].
    destruct n as [|ch n']; [exact H0|].
    destruct (ascii_eqb ch space); cbn [snd]; [apply increasing_tail|]; exact H0. }
  destruct (dropLeadingSpace _) as [n1 m1]. cbn [fst snd] in H1.
  unfold dropTrailingSpace. cbn [fst snd].
  destruct (last n1) as [ch|]; [|exact H1].
  destruct (ascii_eqb ch space); [|exact H1]. cbn [snd].
  apply increasing_removelast. exact H1.
Qed.

Lemma scannedUpTo_nil nd i : scannedUpTo nd i [].
Proof.
  split; [|constructor]. intros i0 j ei ej _ Hi. rewrite lookup_nil in Hi. discriminate.
Qed.

(** X2: The offset map is strictly increasing in document order: a later
    character of the normalized text always comes from a later code unit
    (a later text node, or a later offset of the same node). *)
Theorem offset_map_increases (element : Element) :
  increasing (snd (buildNormalizedTextAndMap element)).
Proof.
  unfold buildNormalizedTextAndMap.
  apply trimmed_increasing.
  apply walkNodes_increasing.
  apply scannedUpTo_nil.
Qed.

(** ** The range of a phrase *)

Lemma startsWith_take : forall t s, startsWith s t = true -> take (length t) s = t.
Proof.
  induction t as [|c t IH]; intros [|d s] H; simpl in *; try reflexivity; try discriminate.
  apply andb_true_iff in H as [H1 H2]. apply ascii_eqb_eq in H1. subst d.
  f_equal. apply IH. exact H2.
Qed.

Lemma indexOfAux_occurs t : forall s pos i,
  indexOfAux t s pos = Some i -> pos <= i /\ startsWith (drop (i - pos) s) t = true.
Proof.
  induction s as [|d s IH]; intros pos i H; rewrite indexOfAux_eq in H.
  - destruct (startsWith [] t) eqn:E; [|discriminate].
    inversion H; subst. rewrite Nat.sub_diag. simpl. auto.
  - destruct (startsWith (d :: s) t) eqn:E.
    + inversion H; subst. rewrite Nat.sub_diag. simpl. auto.
    + apply IH in H as [H1 H2]. split; [lia|].
      replace (i - pos) with (S (i - S pos)) by lia. simpl. exact H2.
Qed.

Lemma indexOf_occurs s t from i :
  indexOf s t from = Some i -> startsWith (drop i s) t = true.
Proof.
  unfold indexOf. intros H. apply indexOfAux_occurs in H as [H1 H2].
  rewrite drop_drop in H2.
  replace (Nat.min from (length s) + (i - Nat.min from (length s))) with i in H2 by lia.
  exact H2.
Qed.

Lemma findOccurrence_occurs s t : forall occ from idx,
  findOccurrence s t occ from = Some idx -> startsWith (drop idx s) t = true.
Proof.
  induction occ as [|n IH]; intros from idx H; simpl in H;
    destruct (indexOf s t from) as [i|] eqn:E; try discriminate.
  - inversion H; subst. eapply indexOf_occurs; eauto.
  - eapply IH; eauto.
Qed.

Lemma indexOf_empty s from : indexOf s [] from = Some (Nat.min from (length s)).
Proof. unfold indexOf. rewrite indexOfAux_eq. destruct (drop _ s); reflexivity. Qed.

Lemma findOccurrence_empty s : forall occ, findOccurrence s [] occ 0 = Some 0.
Proof.
  induction occ as [|n IH]; simpl; rewrite indexOf_empty; simpl; [reflexivity|exact IH].
Qed.

(** What a constructed range was made from. *)
Lemma createRangeForPhraseRobust_inv element phrase occ (ci : bool) res :
  createRangeForPhraseRobust (Some element) phrase occ ci = Some res ->
  exists idx endIndex sm em,
    findOccurrence (searchText element ci) (searchTarget phrase ci) occ 0 = Some idx
    /\ idx + length (searchTarget phrase ci) = S endIndex
    /\ idx <= endIndex
    /\ snd (buildNormalizedTextAndMap element) !! idx = Some sm
    /\ snd (buildNormalizedTextAndMap element) !! endIndex = Some em
    /\ setStartEnd element (node sm) (offset sm) (node em) (offset em + 1) = Some (range res)
    /\ startNode res = node sm /\ startOffset res = offset sm
    /\ endNode res = node em /\ endOffset res = offset em + 1.
Proof.
  unfold createRangeForPhraseRobust, searchText, searchTarget.
  destruct phrase as [|p0 p]; [discriminate|].
  destruct (buildNormalizedTextAndMap element) as [normalized mapping]. cbn [fst snd].
  destruct (length normalized =? 0); [discriminate|]. cbv zeta.
  destruct (findOccurrence _ _ occ 0) as [idx|] eqn:Efind; [|discriminate].
  destruct (idx + length _) as [|endIndex] eqn:Esum; [discriminate|].
  destruct (mapping !! idx) as [sm|] eqn:Esm; [|discriminate].
  destruct (mapping !! endIndex) as [em|] eqn:Eem; [|discriminate].
  destruct (setStartEnd element _ _ _ _) as [r|] eqn:Eset; [|discriminate].
  intros H. inversion H; subst res. cbn.
  exists idx, endIndex, sm, em. repeat split; auto.
  destruct (if ci then toLowerCase (normalizePhrase (p0 :: p)) else normalizePhrase (p0 :: p))
    as [|t0 t] eqn:Et; [|simpl in Esum; lia].
  rewrite findOccurrence_empty in Efind. inversion Efind; subst idx. discriminate Esum.
Qed.

(** X7: The range of a phrase runs forward: it is not collapsed by [setEnd],
    its boundary points are the returned start and end, and the start lies
    strictly before the end in document order. *)
Theorem range_runs_forward element phrase occ (ci : bool) res :
  createRangeForPhraseRobust (Some element) phrase occ ci = Some res ->
  range res = {| startContainer := startNode res; range_startOffset := startOffset res;
                 endContainer := endNode res; range_endOffset := endOffset res |}
  /\ entryLt {| node := startNode res; offset := startOffset res |}
             {| node := endNode res; offset := endOffset res |}.
Proof.
  intros H.
  destruct (createRangeForPhraseRobust_inv _ _ _ _ _ H)
    as (idx & endIndex & sm & em & _ & Hsum & Hidx & Hsm & Hem & Hset & -> & -> & -> & ->).
  assert (Hinc : increasing (snd (buildNormalizedTextAndMap element))).
  { unfold buildNormalizedTextAndMap. apply trimmed_increasing, walkNodes_increasing,
      scannedUpTo_nil. }
  assert (Hle : node sm < node em \/ (node sm = node em /\ offset sm <= offset em)).
  { destruct (decide (idx = endIndex)) as [->|Hne].
    - rewrite Hsm in Hem. inversion Hem; subst. right. split; [reflexivity|lia].
    - destruct (Hinc idx endIndex sm em ltac:(lia) Hsm Hem) as [Hl|[Hl1 Hl2]];
        [left; exact Hl|right; split; [exact Hl1|lia]]. }
  unfold setStartEnd in Hset.
  destruct (el_textNodes element !! node sm) as [stxt|]; [|discriminate].
  destruct (el_textNodes element !! node em) as [etxt|]; [|discriminate].
  destruct (_ && _); [|discriminate].
  replace ((node em <? node sm) || ((node em =? node sm) && (offset em + 1 <? offset sm)))
    with false in Hset.
  - inversion Hset. split; [reflexivity|].
    destruct Hle as [Hl|[Hl1 Hl2]]; [left; exact Hl|right; simpl; split; [exact Hl1|lia]].
  - symmetry. apply orb_false_iff. split; [apply Nat.ltb_ge; lia|].
    apply andb_false_iff.
    destruct Hle as [Hl|[Hl1 Hl2]];
      [left; apply Nat.eqb_neq; lia|right; apply Nat.ltb_ge; lia].
Qed.

Lemma range_runs_forward_witness :
  exists res,
    createRangeForPhraseRobust (Some sampleEl) (str "mazda cx-60") 0 true = Some res
    /\ entryLt {| node := startNode res; offset := startOffset res |}
               {| node := endNode res; offset := endOffset res |}.
Proof.
  eexists. split; [vm_compute; reflexivity|].
  apply (range_runs_forward sampleEl (str "mazda cx-60") 0 true).
  vm_compute. reflexivity.
Defined.

(** X6: The range covers a match: the normalized phrase is not empty and
    occurs in the text searched at some position [idx]; the range starts at
    the code unit the character [idx] was mapped from and ends just after
    the code unit of the last matched character. *)
Theorem range_covers_a_match element phrase occ (ci : bool) res :
  createRangeForPhraseRobust (Some element) phrase occ ci = Some res ->
  exists idx lastOffset,
    searchTarget phrase ci <> []
    /\ take (length (searchTarget phrase ci)) (drop idx (searchText element ci))
       = searchTarget phrase ci
    /\ snd (buildNormalizedTextAndMap element) !! idx
       = Some {| node := startNode res; offset := startOffset res |}
    /\ snd (buildNormalizedTextAndMap element)
         !! (idx + length (searchTarget phrase ci) - 1)
       = Some {| node := endNode res; offset := lastOffset |}
    /\ endOffset res = lastOffset + 1.
Proof.
  intros H.
  destruct (createRangeForPhraseRobust_inv _ _ _ _ _ H)
    as (idx & endIndex & sm & em & Hfind & Hsum & Hidx & Hsm & Hem & _ & -> & -> & -> & ->).
  exists idx, (offset em). split; [|split; [|split; [|split]]].
  - intros Hnil. rewrite Hnil in Hsum. simpl in Hsum. lia.
  - apply startsWith_take. eapply findOccurrence_occurs. exact Hfind.
  - rewrite Hsm. destruct sm. reflexivity.
  - rewrite Hsum. replace (S endIndex - 1) with endIndex by lia.
    rewrite Hem. destruct em. reflexivity.
  - reflexivity.
Qed.

Lemma range_covers_a_match_witness :
  exists idx lastOffset,
    searchTarget (str "mazda cx-60") true <> []
    /\ take (length (searchTarget (str "mazda cx-60") true))
            (drop idx (searchText sampleEl true))
       = searchTarget (str "mazda cx-60") true
    /\ snd (buildNormalizedTextAndMap sampleEl) !! idx
       = Some {| node := 1; offset := 0 |}
    /\ snd (buildNormalizedTextAndMap sampleEl)
         !! (idx + length (searchTarget (str "mazda cx-60") true) - 1)
       = Some {| node := 1; offset := lastOffset |}
    /\ 13 = lastOffset + 1.
Proof.
  apply (range_covers_a_match sampleEl (str "mazda cx-60") 0 true
           {| range := {| startContainer := 1; range_startOffset := 0;
                          endContainer := 1; range_endOffset := 13 |};
              startNode := 1; startOffset := 0; endNode := 1; endOffset := 13 |}).
  vm_compute. reflexivity.
Defined.


(** X8: Only the normalized form of the phrase matters, and with the option
    [caseInsensitive] only its lower-case form: two non-empty phrases that
    differ in their white space, or then in the case of their letters, get
    the same result. *)
Theorem phrase_white_space_and_case_are_irrelevant
    (Rect : Type) (getClientRects : Element -> Range -> list Rect)
    (element : Element) (p1 p2 : text) (options : PhraseOptions) :
  p1 <> [] -> p2 <> [] ->
  searchTarget p1 (caseInsensitive options) = searchTarget p2 (caseInsensitive options) ->
  isPhraseSingleLineRobust Rect getClientRects element p1 options
  = isPhraseSingleLineRobust Rect getClientRects element p2 options.
Proof.
  intros H1 H2 Hn. unfold isPhraseSingleLineRobust.
  replace (createRangeForPhraseRobust (Some element) p2 (occurrence options)
             (caseInsensitive options))
    with (createRangeForPhraseRobust (Some element) p1 (occurrence options)
            (caseInsensitive options)); [reflexivity|].
  unfold createRangeForPhraseRobust, searchTarget in *.
  destruct p1 as [|a p1]; [congruence|]. destruct p2 as [|b p2]; [congruence|].
  destruct (buildNormalizedTextAndMap element) as [normalized mapping].
  cbv zeta. rewrite Hn. reflexivity.
Qed.

Lemma phrase_white_space_and_case_are_irrelevant_witness :
  isPhraseSingleLineRobust unit twoLines sampleEl (str "MAZDA    CX-60") checkOptions
  = isPhraseSingleLineRobust unit twoLines sampleEl (str " Mazda cx-60 ") checkOptions.
Proof.
  apply (phrase_white_space_and_case_are_irrelevant unit twoLines sampleEl).
  - discriminate.
  - discriminate.
  - vm_compute. reflexivity.
Defined.

(** ** The model lists of an element *)

Lemma orEmpty_nullIfEmpty {A} (l : list A) : orEmpty (nullIfEmpty l) = l.
Proof. destruct l; reflexivity. Qed.

Lemma flat_map_filter_map {A B} (f g : A -> list B) (h : B -> B) (p : B -> bool) :
  (forall x, f x = map h (List.filter p (g x))) ->
  forall l, flat_map f l = map h (List.filter p (flat_map g l)).
Proof.
  intros Hfg. induction l as [|x l IH]; [reflexivity|].
  simpl. rewrite List.filter_app, map_app, IH, Hfg. reflexivity.
Qed.

Lemma broken_of_statuses Rect (gcr : Element -> Range -> list Rect) element :
  checkElementForBrokenModels Rect gcr element
  = map asBroken (List.filter notSingleLine (allStatusesOf Rect gcr element)).
Proof.
  unfold checkElementForBrokenModels, allStatusesOf.
  apply flat_map_filter_map. intros model. cbv zeta.
  destruct (found _); [|reflexivity].
  destruct (singleLine _) as [[|]|]; reflexivity.
Qed.

(** X9: For every element the scan returns, the broken models are exactly the
    detected models that are not on a single line, in the same order and
    with the same rectangle counts; in particular an element without model
    statuses has no broken models. *)
Theorem broken_models_are_the_wrapped_statuses
    (Rect : Type) (getClientRects : Element -> Range -> list Rect)
    (elements : list Element) (e : ElementResult) :
  In e (processElements Rect getClientRects elements) ->
  orEmpty (er_brokenModels e)
  = map asBroken (List.filter notSingleLine (orEmpty (er_allModelStatuses e))).
Proof.
  unfold processElements. intros H. apply in_map_iff in H as (el & <- & _).
  cbn [er_brokenModels er_allModelStatuses]. rewrite !orEmpty_nullIfEmpty.
  apply broken_of_statuses.
Qed.

Lemma broken_models_are_the_wrapped_statuses_witness :
  let st := {| ms_model := "MAZDA CX-60"; ms_found := true;
               ms_singleLine := Some false; ms_rectsCount := 2 |} in
  let e := {| er_id := "frm1_HL_a"; er_outerHTML := "<div id=frm1_HL_a>";
              er_brokenModels := Some [st]; er_allModelStatuses := Some [st] |} in
  orEmpty (er_brokenModels e)
  = map asBroken (List.filter notSingleLine (orEmpty (er_allModelStatuses e))).
Proof.
  intros st e.
  apply (broken_models_are_the_wrapped_statuses unit twoLines sampleDoc e).
  left. vm_compute. reflexivity.
Defined.

(** ** The filter of the collected entries *)

Lemma perm_updateFirst_merge c p get : forall hl, existsb p hl = true ->
  Permutation (concat (map (catOf c) (updateFirst p (fun x => mergeLists x get) hl)))
              (concat (map (catOf c) hl) ++ get c).
Proof.
  induction hl as [|m hl IH]; simpl; intros H; [discriminate|].
  destruct (p m); simpl.
  - rewrite catOf_mergeLists. rewrite <- !app_assoc.
    apply Permutation_app_head. apply Permutation_app_comm.
  - rewrite <- app_assoc. apply Permutation_app_head. apply IH. exact H.
Qed.

Lemma Forall_updateFirst {A} (P : A -> Prop) (p : A -> bool) g :
  (forall x, p x = true -> P (g x)) ->
  forall l, Forall P l -> Forall P (updateFirst p g l).
Proof.
  intros Hg. induction l as [|x l IH]; simpl; intros H; [constructor|].
  inversion H; subst. destruct (p x) eqn:E.
  - constructor; [apply Hg; exact E|assumption].
  - constructor; [assumption|apply IH; assumption].
Qed.

Lemma keepEntry_valid m :
  isValidCreativeVar (creativeVariation m) = true -> keepEntry m = true.
Proof. intros H. unfold keepEntry. rewrite orString_empty, H. reflexivity. Qed.

Lemma filterInv_push processed valid seen m :
  filterInv processed (valid, seen) ->
  keepEntry m = true ->
  (isValidCreativeVar (creativeVariation m) = true -> creativeVariation m ∉ seen) ->
  filterInv (processed ++ [m])
    (valid ++ [m],
     if isValidCreativeVar (creativeVariation m) then {[creativeVariation m]} ∪ seen else seen).
Proof.
  intros (Hseen & Huniq & Hkeep & Hperm) Hk Hfresh. unfold filterInv. cbn [fst snd] in *.
  assert (Hm : forall cv, hasLabel cv m = true <-> creativeVariation m = cv)
    by (intros cv; apply hasLabel_true).
  split; [|split; [|split]].
  - intros cv. rewrite existsb_app. cbn [existsb]. rewrite orb_false_r.
    destruct (isValidCreativeVar (creativeVariation m)) eqn:Ev.
    + rewrite elem_of_union, elem_of_singleton, Hseen, orb_true_iff, Hm. split.
      * intros [->|[H1 H2]]; auto.
      * intros [H1 [H2|H2]]; auto.
    + rewrite Hseen, orb_true_iff, Hm. split.
      * intros [H1 H2]; auto.
      * intros [H1 [H2|H2]]; [auto|]. subst cv. congruence.
  - intros cv Hcv. rewrite List.filter_app, length_app. cbn [List.filter].
    destruct (hasLabel cv m) eqn:E; cbn [length]; [|specialize (Huniq cv Hcv); lia].
    apply Hm in E. subst cv.
    destruct (List.filter (hasLabel (creativeVariation m)) valid) eqn:Ef; [simpl; lia|].
    exfalso. apply (Hfresh Hcv). apply Hseen. split; [exact Hcv|].
    destruct (existsb (hasLabel (creativeVariation m)) valid) eqn:Ex; [reflexivity|].
    apply existsb_filter_nil in Ex. congruence.
  - apply Forall_app. split; [exact Hkeep|]. constructor; [exact Hk|constructor].
  - intros c. rewrite !map_app, !concat_app. apply Permutation_app_tail. apply Hperm.
Qed.

Lemma filterInv_step processed st m :
  filterInv processed st -> filterInv (processed ++ [m]) (filterStep st m).
Proof.
  destruct st as [valid seen]. intros Hinv.
  pose proof Hinv as (Hseen & Huniq & Hkeep & Hperm). cbn [fst snd] in *.
  unfold filterStep. rewrite orString_empty.
  destruct (isValidCreativeVar (creativeVariation m)) eqn:Ev.
  - destruct (bool_decide (creativeVariation m ∈ seen)) eqn:Ein; cbn [negb].
    + apply bool_decide_eq_true_1 in Ein. apply Hseen in Ein as [_ Hex].
      destruct (findIndex (fun x => String.eqb (creativeVariation x) (creativeVariation m)) valid)
        as [i|] eqn:Ei.
      * destruct (findIndex_Some _ (fun x => mergeLists x (fun c => catOf c m)) _ _ Ei)
          as (x & Hx & _ & Hupd).
        rewrite Hx, Hupd.
        change (fun x0 : HlMatch => String.eqb (creativeVariation x0) (creativeVariation m))
          with (hasLabel (creativeVariation m)).
        unfold filterInv. cbn [fst snd]. split; [|split; [|split]].
        -- intros cv. rewrite existsb_updateFirst; [apply Hseen|].
           intros y. apply hasLabel_mergeLists.
        -- intros cv Hcv. rewrite filter_length_updateFirst; [apply Huniq; exact Hcv|].
           intros y. apply hasLabel_mergeLists.
        -- apply Forall_updateFirst; [|exact Hkeep].
           intros y Hy. apply keepEntry_valid. cbn [mergeLists creativeVariation].
           apply hasLabel_true in Hy. rewrite Hy. exact Ev.
        -- intros c. rewrite perm_updateFirst_merge by exact Hex.
           rewrite map_app, concat_app. cbn [map concat]. rewrite app_nil_r.
           apply Permutation_app_tail. apply Hperm.
      * apply findIndex_None in Ei. unfold hasLabel in Hex. congruence.
    + apply bool_decide_eq_false_1 in Ein.
      pose proof (filterInv_push processed valid seen m Hinv (keepEntry_valid m Ev)
                    (fun _ => Ein)) as H.
      rewrite Ev in H. exact H.
  - destruct (hasElements m) eqn:Eh.
    + assert (Hk : keepEntry m = true)
        by (unfold keepEntry; rewrite Eh; apply orb_true_r).
      pose proof (filterInv_push processed valid seen m Hinv Hk) as H.
      rewrite Ev in H. apply H. discriminate.
    + unfold filterInv. cbn [fst snd]. split; [|split; [|split]]; try assumption.
      intros c. rewrite map_app, concat_app. cbn [map concat].
      rewrite (catOf_no_elements c m Eh), !app_nil_r. apply Hperm.
Qed.

Lemma filterInv_fold : forall rest processed st,
  filterInv processed st -> filterInv (processed ++ rest) (fold_left filterStep rest st).
Proof.
  induction rest as [|m rest IH]; intros processed st H; simpl.
  - rewrite app_nil_r. exact H.
  - replace (processed ++ m :: rest) with ((processed ++ [m]) ++ rest)
      by (rewrite <- app_assoc; reflexivity).
    apply IH. apply filterInv_step. exact H.
Qed.

Lemma filterInv_filterValid hl : filterInv hl (fold_left filterStep hl ([], ∅)).
Proof.
  apply (filterInv_fold hl [] ([], ∅)).
  unfold filterInv. cbn [fst snd]. split; [|split; [|split]].
  - intros cv. split; [intros H; apply elem_of_empty in H; contradiction|].
    intros [_ H]. discriminate.
  - intros cv _. simpl. lia.
  - constructor.
  - intros c. reflexivity.
Qed.

(** X11: Whatever entries the filter is given, also entries whose labels repeat,
    its result holds at most one entry under a valid label, and each of its
    entries has a valid label or at least one element. *)
Theorem filter_keeps_one_entry_per_valid_label (hlMatches : list HlMatch) (cv : string) :
  isValidCreativeVar cv = true ->
  length (List.filter (hasLabel cv) (filterValid hlMatches)) <= 1
  /\ Forall (fun m => isValidCreativeVar (creativeVariation m) = true
                      \/ hasElements m = true) (filterValid hlMatches).
Proof.
  intros Hcv. destruct (filterInv_filterValid hlMatches) as (_ & Huniq & Hkeep & _).
  split; [apply Huniq; exact Hcv|].
  unfold filterValid. eapply Forall_impl; [exact Hkeep|].
  intros m Hm. unfold keepEntry in Hm. rewrite orString_empty in Hm.
  apply orb_true_iff in Hm. exact Hm.
Qed.

Lemma filter_keeps_one_entry_per_valid_label_witness :
  let e := newEntry sampleFrameA in
  length (List.filter (hasLabel "Char_Limit-10") (filterValid [e; e; e])) <= 1
  /\ Forall (fun m => isValidCreativeVar (creativeVariation m) = true
                      \/ hasElements m = true) (filterValid [e; e; e]).
Proof.
  intros e. apply (filter_keeps_one_entry_per_valid_label [e; e; e] "Char_Limit-10").
  vm_compute. reflexivity.
Defined.

(** X12: The filter loses no element and invents none: in every category the
    elements of its result are those of the entries it was given, each as
    often as it was given, also when entries are merged or dropped. *)
Theorem filter_keeps_every_element (hlMatches : list HlMatch) (c : Category) :
  Permutation (concat (map (catOf c) (filterValid hlMatches)))
              (concat (map (catOf c) hlMatches)).
Proof.
  destruct (filterInv_filterValid hlMatches) as (_ & _ & _ & Hperm). apply Hperm.
Qed.

(** X13: On the entries the frame loop produces, the filter never merges: it
    drops the entries that have neither a valid label nor an element and
    keeps every other entry as it is, in order. *)
Theorem filter_only_drops_after_the_frame_loop (frames : list FrameScan) :
  filterValid (scanFrames frames) = List.filter keepEntry (scanFrames frames).
Proof. apply filterValid_unique. apply uniqueLabels_scanFrames. Qed.

(** ** The two report tables *)

Lemma flat_map_comp {A B C} (h : A -> list B) (g : B -> list C) l :
  flat_map g (flat_map h l) = flat_map (fun x => flat_map g (h x)) l.
Proof.
  induction l as [|x l IH]; simpl; [reflexivity|].
  rewrite flat_map_app, IH. reflexivity.
Qed.

Lemma flat_map_ext_In {A B} (f g : A -> list B) l :
  (forall x, In x l -> f x = g x) -> flat_map f l = flat_map g l.
Proof.
  induction l as [|x l IH]; simpl; intros H; [reflexivity|].
  rewrite (H x) by (left; reflexivity). rewrite IH; [reflexivity|].
  intros y Hy. apply H. right. exact Hy.
Qed.

Lemma allElementArrays_In e m :
  In e (allElementArrays m) <-> exists c, In e (catOf c m).
Proof.
  unfold allElementArrays. rewrite !in_app_iff. split.
  - intros [H|[H|[H|[H|[H|[H|[H|H]]]]]]];
      [exists frm1|exists frm2|exists frm3|exists frm4
      |exists frm1SL|exists frm2SL|exists frm3SL|exists frm4SL]; exact H.
  - intros [c H]. destruct c; simpl in H; tauto.
Qed.

Lemma filterValid_elements hl m e :
  In m (filterValid hl) -> In e (allElementArrays m) ->
  exists m', In m' hl /\ In e (allElementArrays m').
Proof.
  intros Hm He. apply allElementArrays_In in He as [c He].
  assert (H : In e (concat (map (catOf c) (filterValid hl)))).
  { apply in_concat. exists (catOf c m). split; [apply in_map; exact Hm|exact He]. }
  destruct (filterInv_filterValid hl) as (_ & _ & _ & Hperm).
  apply (Permutation_in _ (Hperm c)) in H.
  apply in_concat in H as (l & Hl & Hel). apply in_map_iff in Hl as (m' & <- & Hm').
  exists m'. split; [exact Hm'|]. apply allElementArrays_In. exists c. exact Hel.
Qed.

Lemma brokenReport_of_element cv e : brokenFromStatuses e ->
  match er_brokenModels e with
  | Some (b :: bs) =>
      [{| br_creativeVariation := cv;
          br_elementId := orString (er_id e) "Unknown";
          br_elementType := elementTypeOf (er_id e);
          br_brokenModels := b :: bs;
          br_outerHTML := er_outerHTML e |}]
  | _ => []
  end
  = flat_map brokenOfStatus
      match er_allModelStatuses e with
      | Some (s :: ss) =>
          [{| sr_creativeVariation := cv;
              sr_elementId := orString (er_id e) "Unknown";
              sr_elementType := elementTypeOf (er_id e);
              sr_modelStatuses := s :: ss;
              sr_outerHTML := er_outerHTML e |}]
      | _ => []
      end.
Proof.
  unfold brokenFromStatuses. intros H.
  destruct (er_allModelStatuses e) as [[|s ss]|]; cbn [orEmpty] in H.
  - destruct (er_brokenModels e) as [[|b bs]|]; [reflexivity|discriminate H|reflexivity].
  - cbn [flat_map]. rewrite app_nil_r. unfold brokenOfStatus. cbn [sr_modelStatuses].
    rewrite <- H.
    destruct (er_brokenModels e) as [[|b bs]|]; reflexivity.
  - destruct (er_brokenModels e) as [[|b bs]|]; [reflexivity|discriminate H|reflexivity].
Qed.

(** X14: When the broken models of every collected element are its detected
    models that are not on a single line, as the scan of a document makes
    them, the broken-model table of the response is computed by the status
    table: it holds, in the same order, one entry for each status entry with
    a model that is not on a single line, with the same label, element id,
    element type and HTML. *)
Theorem broken_table_follows_status_table (jvxFrames : list JvxFrame) (hl : list HlMatch) :
  (forall m e, In m hl -> In e (allElementArrays m) -> brokenFromStatuses e) ->
  brokenModels (buildResponse jvxFrames hl)
  = flat_map brokenOfStatus (allModelStatuses (buildResponse jvxFrames hl)).
Proof.
  intros H. unfold buildResponse. cbn [brokenModels allModelStatuses].
  unfold brokenReports, statusReports.
  rewrite flat_map_comp. apply flat_map_ext_In. intros m Hm.
  rewrite flat_map_comp. apply flat_map_ext_In. intros e He.
  apply brokenReport_of_element.
  destruct (filterValid_elements hl m e Hm He) as (m' & Hm' & He').
  exact (H m' e Hm' He').
Qed.

Lemma broken_table_follows_status_table_witness :
  brokenModels (buildResponse [] (scanFrames [scenarioFrame]))
  = flat_map brokenOfStatus
      (allModelStatuses (buildResponse [] (scanFrames [scenarioFrame]))).
Proof.
  apply (broken_table_follows_status_table [] (scanFrames [scenarioFrame])).
  intros m e Hm He. vm_compute in Hm. destruct Hm as [<-|[]].
  vm_compute in He. destruct He as [<-|[]]. vm_compute. reflexivity.
Defined.

(** ** The marker iframes *)

Lemma matchItems_lits l rest : forall s n,
  matchItems (map Lit l ++ rest) s = Some n ->
  exists s' m, s = l ++ s' /\ matchItems rest s' = Some m /\ n = length l + m.
Proof.
  induction l as [|c l IH]; intros s n H.
  - exists s, n. auto.
  - cbn [map app matchItems] in H. destruct s as [|d s]; [discriminate|].
    destruct (ascii_eqb c d) eqn:E; [|discriminate].
    apply ascii_eqb_eq in E. subst d.
    destruct (matchItems (map Lit l ++ rest) s) as [k|] eqn:Ek; [|discriminate].
    inversion H; subst. destruct (IH s k Ek) as (s' & m & -> & Hm & ->).
    exists s', m. auto.
Qed.

Lemma matchItems_oneOf p rest s n :
  matchItems (OneOf p :: rest) s = Some n ->
  exists d s' m, s = d :: s' /\ p d = true /\ matchItems rest s' = Some m /\ n = S m.
Proof.
  cbn [matchItems]. destruct s as [|d s]; [discriminate|].
  destruct (p d) eqn:E; [|discriminate].
  destruct (matchItems rest s) as [m|] eqn:Em; [|discriminate].
  intros H. inversion H; subst. exists d, s, m. auto.
Qed.

Lemma matchItems_plus_eq p rest d s :
  matchItems (PlusOf p :: rest) (d :: s)
  = if p d then
      match matchItems (PlusOf p :: rest) s with
      | Some n => Some (S n)
      | None => option_map S (matchItems rest s)
      end
    else None.
Proof. reflexivity. Qed.

Lemma matchItems_plus_then_one p q : forall s n,
  matchItems [PlusOf p; OneOf q] s = Some n ->
  exists k, n = S k /\ 1 <= k <= length s /\ Forall (fun ch => p ch = true) (take k s).
Proof.
  induction s as [|d s IH]; intros n H; [discriminate|].
  rewrite matchItems_plus_eq in H. destruct (p d) eqn:Ep; [|discriminate].
  destruct (matchItems [PlusOf p; OneOf q] s) as [n'|] eqn:En.
  - inversion H; subst. destruct (IH n' eq_refl) as (k & -> & Hk & Hall).
    exists (S k). split; [reflexivity|]. split; [cbn [length]; lia|].
    cbn [take]. constructor; assumption.
  - destruct (matchItems [OneOf q] s) as [m|] eqn:Em; [|discriminate].
    inversion H; subst.
    apply matchItems_oneOf in Em as (e & s' & m' & -> & _ & Hm' & ->).
    cbn [matchItems] in Hm'. inversion Hm'; subst.
    exists 1. split; [reflexivity|]. split; [cbn [length]; lia|].
    cbn [take]. constructor; [exact Ep|constructor].
Qed.

Lemma markerPattern_group s n :
  matchItems markerPattern s = Some n -> markerId (markerGroup s n).
Proof.
  unfold markerPattern. intros H.
  apply matchItems_lits in H as (s1 & m1 & -> & H & ->).
  change ([OneOf isQuote] ++ map Lit (str "jvxBase_") ++ [PlusOf notQuote; OneOf isQuote])
    with (OneOf isQuote :: (map Lit (str "jvxBase_") ++ [PlusOf notQuote; OneOf isQuote])) in H.
  apply matchItems_oneOf in H as (d & s2 & m2 & -> & _ & H & ->).
  apply matchItems_lits in H as (s3 & m3 & -> & H & ->).
  apply matchItems_plus_then_one in H as (k & -> & Hk & Hall).
  unfold markerGroup, markerId. exists (take k s3).
  split; [|split; [|exact Hall]].
  - cbn [str list_ascii_of_string length app drop].
    replace (3 + S (8 + S k) - 5) with (8 + k) by lia. reflexivity.
  - destruct k; [lia|]. destruct s3; [cbn [length] in Hk; lia|discriminate].
Qed.

Lemma matchAllMarkers_markerId : forall s skip, Forall markerId (matchAllMarkers skip s).
Proof.
  induction s as [|c s IH]; intros skip; cbn [matchAllMarkers]; [constructor|].
  destruct skip as [|k]; [|apply IH].
  destruct (matchItems markerPattern (c :: s)) as [n|] eqn:E; [|apply IH].
  constructor; [apply markerPattern_group; exact E|apply IH].
Qed.

Lemma markerId_startsWith id : markerId id -> startsWith id (str "jvxBase_") = true.
Proof. intros (rest & -> & _). destruct rest; reflexivity. Qed.

Lemma str_string_of_list_ascii s : str (string_of_list_ascii s) = s.
Proof. apply list_ascii_of_string_of_list_ascii. Qed.

(** X15: The fallback only reports well-formed marker ids: every id it finds in
    the raw HTML starts with [jvxBase_], goes on with at least one more code
    unit and holds no quote; its [src] is empty. *)
Theorem fallback_reports_marker_ids (html : text) :
  Forall (fun fr => markerId (str (jf_id fr)) /\ jf_src fr = "")
         (regexFallback [] (Some html)).
Proof.
  unfold regexFallback. cbn [length Nat.eqb].
  apply Forall_forall. intros fr Hfr. apply list_elem_of_In in Hfr.
  apply in_map_iff in Hfr as (id & <- & Hid). cbn [jf_id jf_src].
  rewrite str_string_of_list_ascii. split; [|reflexivity].
  pose proof (matchAllMarkers_markerId html 0) as Hall.
  rewrite Forall_forall in Hall. apply Hall. apply list_elem_of_In. exact Hid.
Qed.

(** X16: Whether they come from the DOM query or from the fallback, the frames
    the response reports all carry an id that starts with [jvxBase_]; and
    when the DOM query finds a marker iframe the raw HTML is not used. *)
Theorem reported_frames_are_marker_iframes
    (iframes : option (list Iframe)) (content : option text) :
  Forall (fun fr => startsWith (str (jf_id fr)) (str "jvxBase_") = true)
         (markerFrames iframes content)
  /\ (detectJvxFrames iframes <> [] ->
      markerFrames iframes content = detectJvxFrames iframes).
Proof.
  assert (Hdom : Forall (fun fr => startsWith (str (jf_id fr)) (str "jvxBase_") = true)
                        (detectJvxFrames iframes)).
  { apply Forall_forall. intros fr Hfr. apply list_elem_of_In in Hfr.
    destruct iframes as [l|]; [|destruct Hfr]. cbn [detectJvxFrames] in Hfr.
    apply in_map_iff in Hfr as (f & <- & Hf). apply filter_In in Hf as [_ Hf].
    apply andb_true_iff in Hf as [_ Hf]. exact Hf. }
  split.
  - unfold markerFrames, regexFallback.
    destruct (length (detectJvxFrames iframes) =? 0); [|exact Hdom].
    destruct content as [html|]; [|exact Hdom].
    apply Forall_forall. intros fr Hfr. apply list_elem_of_In in Hfr.
    apply in_map_iff in Hfr as (id & <- & Hid). cbn [jf_id].
    rewrite str_string_of_list_ascii. apply markerId_startsWith.
    pose proof (matchAllMarkers_markerId html 0) as Hall.
    rewrite Forall_forall in Hall. apply Hall. apply list_elem_of_In. exact Hid.
  - intros Hne. unfold markerFrames, regexFallback.
    destruct (detectJvxFrames iframes) as [|fr l]; [congruence|reflexivity].
Qed.

(** ** The collection by marker id, continued *)

Lemma firstMatch_Some items : forall s u,
  firstMatch items s = Some u ->
  exists s' n, matchItems items s' = Some n /\ u = take n s'.
Proof.
  induction s as [|c s IH]; intros u H.
  - cbn [firstMatch] in H.
    destruct (matchItems items []) as [n|] eqn:E; [|discriminate].
    inversion H; subst. exists [], n. auto.
  - cbn [firstMatch] in H.
    destruct (matchItems items (c :: s)) as [n|] eqn:E.
    + inversion H; subst. exists (c :: s), n. auto.
    + apply IH. exact H.
Qed.

Lemma jvxBaseIdOf_marker m :
  truthy (jvxBaseIdOf m) = true ->
  startsWith (str (jvxBaseIdOf m)) (str "jvxBase_") = true.
Proof.
  unfold jvxBaseIdOf.
  destruct (truthy (frameName m) && startsWith (str (frameName m)) (str "jvxBase_")) eqn:E.
  - intros _. apply andb_true_iff in E as [_ E]. exact E.
  - destruct (truthy (frameUrl m)); [|discriminate].
    destruct (firstMatch _ (str (frameUrl m))) as [u|] eqn:Eu; [|discriminate].
    intros _. apply firstMatch_Some in Eu as (s' & n & Hn & ->).
    apply matchItems_lits in Hn as (s'' & k & -> & _ & ->).
    rewrite str_string_of_list_ascii.
    change (take (length (str "jvxBase_") + k) (str "jvxBase_" ++ s''))
      with (str "jvxBase_" ++ take k s'').
    destruct (take k s''); reflexivity.
Qed.

Lemma collectStep_source m j (P : CollectedElement -> Prop) st e :
  P (withFrame m j e) -> Forall P (fst st) -> Forall P (fst (collectStep m j st e)).
Proof.
  intros He Hst. unfold collectStep.
  destruct (truthy (er_id e) && negb (bool_decide (er_id e ∈ st.2))); [|exact Hst].
  cbn [fst]. apply Forall_app. split; [exact Hst|]. constructor; [exact He|constructor].
Qed.

Lemma collectStep_fold_source m j (P : CollectedElement -> Prop) : forall l st,
  (forall e, In e l -> P (withFrame m j e)) -> Forall P (fst st) ->
  Forall P (fst (fold_left (collectStep m j) l st)).
Proof.
  induction l as [|e l IH]; intros st Hl Hst; simpl; [exact Hst|].
  apply IH; [intros x Hx; apply Hl; right; exact Hx|].
  apply collectStep_source; [apply Hl; left; reflexivity|exact Hst].
Qed.

Lemma collectEntry_fold_source get (P : CollectedElement -> Prop) : forall l st,
  (forall m e, In m l -> In e (get m) -> truthy (jvxBaseIdOf m) = true ->
     P (withFrame m (jvxBaseIdOf m) e)) ->
  Forall P (fst st) -> Forall P (fst (fold_left (collectEntry get) l st)).
Proof.
  induction l as [|m l IH]; intros st Hl Hst; simpl; [exact Hst|].
  apply IH; [intros m' e Hm'; apply Hl; right; exact Hm'|].
  unfold collectEntry. destruct (truthy (jvxBaseIdOf m)) eqn:Et; [|exact Hst].
  apply collectStep_fold_source; [|exact Hst].
  intros e He. apply Hl; [left; reflexivity|exact He|exact Et].
Qed.

(** The set of a collection state holds the ids collected so far and keeps
    them. *)
Lemma collectStep_seen m j st e id :
  (id ∈ snd st -> id ∈ snd (collectStep m j st e))
  /\ (truthy (er_id e) = true -> er_id e ∈ snd (collectStep m j st e)).
Proof.
  unfold collectStep. destruct (truthy (er_id e)) eqn:Et; cbn [andb].
  - destruct (bool_decide (er_id e ∈ st.2)) eqn:Ed; cbn [negb snd].
    + apply bool_decide_eq_true_1 in Ed. auto.
    + split; [intros H; apply elem_of_union_r; exact H|].
      intros _. apply elem_of_union_l, elem_of_singleton. reflexivity.
  - split; [auto|discriminate].
Qed.

Lemma collectStep_fold_seen m j : forall l st id,
  (id ∈ snd st \/ exists e, In e l /\ truthy (er_id e) = true /\ er_id e = id) ->
  id ∈ snd (fold_left (collectStep m j) l st).
Proof.
  induction l as [|e l IH]; intros st id H; simpl.
  - destruct H as [H|(e & [] & _)]. exact H.
  - apply IH. destruct H as [H|(x & [->|Hx] & Ht & Hid)].
    + left. apply (collectStep_seen m j st e id). exact H.
    + left. subst id. apply (collectStep_seen m j st x (er_id x)). exact Ht.
    + right. exists x. auto.
Qed.

Lemma collectEntry_fold_seen get : forall l st id,
  (id ∈ snd st
   \/ exists m e, In m l /\ truthy (jvxBaseIdOf m) = true /\ In e (get m)
                  /\ truthy (er_id e) = true /\ er_id e = id) ->
  id ∈ snd (fold_left (collectEntry get) l st).
Proof.
  induction l as [|m l IH]; intros st id H; simpl.
  - destruct H as [H|(m & e & [] & _)]. exact H.
  - apply IH. destruct H as [H|(m' & e & [->|Hm'] & Hj & He & Ht & Hid)].
    + left. unfold collectEntry. destruct (truthy (jvxBaseIdOf m)); [|exact H].
      apply collectStep_fold_seen. left. exact H.
    + left. unfold collectEntry. rewrite Hj.
      apply collectStep_fold_seen. right. exists e. auto.
    + right. exists m', e. auto.
Qed.

(** The set only holds ids that are in the array. *)
Lemma collectStep_listed m j st e :
  (forall id, id ∈ snd st -> In id (idsOf (fst st))) ->
  forall id, id ∈ snd (collectStep m j st e) -> In id (idsOf (fst (collectStep m j st e))).
Proof.
  intros Hst id. unfold collectStep.
  destruct (truthy (er_id e) && negb (bool_decide (er_id e ∈ st.2))); [|apply Hst].
  cbn [fst snd]. unfold idsOf. rewrite map_app, in_app_iff. cbn [map withFrame ce_id In].
  intros H. apply elem_of_union in H as [H|H].
  - apply elem_of_singleton in H. auto.
  - left. apply Hst. exact H.
Qed.

Lemma collectEntry_fold_listed get : forall l st,
  (forall id, id ∈ snd st -> In id (idsOf (fst st))) ->
  forall id, id ∈ snd (fold_left (collectEntry get) l st) ->
             In id (idsOf (fst (fold_left (collectEntry get) l st))).
Proof.
  induction l as [|m l IH]; intros st Hst; simpl; [exact Hst|].
  apply IH. unfold collectEntry. destruct (truthy (jvxBaseIdOf m)); [|exact Hst].
  generalize (get m). intros els. revert st Hst.
  induction els as [|e els IHe]; intros st Hst; simpl; [exact Hst|].
  apply IHe. apply collectStep_listed. exact Hst.
Qed.

(** X26: The collection of one category over the entries [hl]: no id is
    collected twice and none is empty; every collected element is an
    element of an entry that has a marker id, carries that marker id, which
    starts with [jvxBase_], and the frame of the entry; and every non-empty
    id of such an entry is collected. *)
Theorem collection_is_by_marker_id
    (get : HlMatch -> list ElementResult) (hl : list HlMatch) :
  NoDup (idsOf (collectAll get hl))
  /\ Forall (fun el =>
       ce_id el <> ""
       /\ startsWith (str (ce_jvxBaseId el)) (str "jvxBase_") = true
       /\ exists m e, In m hl /\ In e (get m)
                      /\ el = withFrame m (jvxBaseIdOf m) e) (collectAll get hl)
  /\ (forall m e, In m hl -> truthy (jvxBaseIdOf m) = true -> In e (get m) ->
        er_id e <> "" -> In (er_id e) (idsOf (collectAll get hl))).
Proof.
  destruct (collectAll_ids get hl) as [Hnd Hne].
  split; [exact Hnd|]. split.
  - unfold collectAll in *. rewrite Forall_forall in Hne. apply Forall_forall. intros el Hel.
    split; [apply Hne; exact Hel|].
    assert (Hsrc : Forall (fun el =>
              startsWith (str (ce_jvxBaseId el)) (str "jvxBase_") = true
              /\ exists m e, In m hl /\ In e (get m) /\ el = withFrame m (jvxBaseIdOf m) e)
              (fst (fold_left (collectEntry get) hl ([], ∅)))).
    { apply collectEntry_fold_source; [|constructor].
      intros m e Hm He Ht. split; [cbn [withFrame ce_jvxBaseId]; apply jvxBaseIdOf_marker; exact Ht|].
      exists m, e. auto. }
    rewrite Forall_forall in Hsrc. apply Hsrc. exact Hel.
  - intros m e Hm Ht He Hid. unfold collectAll.
    apply collectEntry_fold_listed.
    + intros id Hin. apply elem_of_empty in Hin. contradiction.
    + apply collectEntry_fold_seen. right. exists m, e.
      repeat split; try assumption.
      unfold truthy. destruct (String.eqb_spec (er_id e) ""); [contradiction|reflexivity].
Qed.

(** ** The resolver, continued *)

Lemma firstPick_source c used el :
  firstPick c used = Some el ->
  isUnused used el = true
  /\ (In el (c_allElements c)
      \/ exists j fe, c_elementsByJvxBaseId c !! j = Some fe /\ In el (frameElementsOf fe)).
Proof.
  unfold firstPick. intros H.
  destruct (strategy1 _ _ _ _ _ used) as [e1|] eqn:E1.
  { inversion H; subst. split; [eapply strategy1_unused; eauto|].
    right. eapply strategy1_source; eauto. }
  destruct (strategy2 _ _ used) as [e2|] eqn:E2.
  { inversion H; subst. split; [eapply strategy2_unused; eauto|].
    left. eapply strategy2_in; eauto. }
  destruct (strategy3 _ _ _ _ _ used) as [e3|] eqn:E3.
  { inversion H; subst. split; [eapply strategy3_unused; eauto|].
    left. eapply strategy3_in; eauto. }
  destruct (strategy4 _ _ _) as [e4|] eqn:E4.
  { inversion H; subst. apply strategy4_in in E4.
    split; [eapply unusedOf_unused; eauto|left; eapply unusedOf_in; eauto]. }
  destruct (strategy5 _ _ _ _ _) as [e5|] eqn:E5.
  { inversion H; subst. apply strategy5_in in E5.
    split; [eapply unusedOf_unused; eauto|left; eapply unusedOf_in; eauto]. }
  apply strategy6_in in H.
  split; [eapply unusedOf_unused; eauto|left; eapply unusedOf_in; eauto].
Qed.

Lemma dedupById_one el :
  dedupById ∅ [el] = if truthy (ce_id el) then [el] else [].
Proof.
  cbn [dedupById]. destruct (truthy (ce_id el)); [|reflexivity].
  rewrite bool_decide_eq_false_2; [reflexivity|]. apply not_elem_of_empty.
Qed.

(** X27: One call of the resolver returns at most one element, and an element
    it returns is one of the elements it was given, of the category list or
    of a marker iframe, whose id was not in the used set. *)
Theorem resolver_returns_one_given_element (c : Call) (used : gset string) :
  length (fst (runCall c used)) <= 1
  /\ forall el, In el (fst (runCall c used)) ->
       (ce_id el ∉ used)
       /\ (In el (c_allElements c)
           \/ exists j fe, c_elementsByJvxBaseId c !! j = Some fe
                           /\ In el (frameElementsOf fe)).
Proof.
  rewrite runCall_firstPick. destruct (firstPick c used) as [el|] eqn:E.
  - rewrite dedupById_one. cbn [fst]. destruct (truthy (ce_id el)).
    + split; [simpl; lia|]. intros x [<-|[]].
      destruct (firstPick_source c used el E) as [Hu Hs].
      split; [apply isUnused_not_elem; exact Hu|exact Hs].
    + split; [simpl; lia|]. intros x [].
  - cbn [fst]. split; [simpl; lia|]. intros x [].
Qed.

(** X28: When every element the resolver is given has its id in the used set,
    a call returns nothing and leaves the used set as it is. *)
Theorem resolver_returns_nothing_when_all_used (c : Call) (used : gset string) :
  (forall el, In el (c_allElements c) -> ce_id el ∈ used) ->
  (forall j fe el, c_elementsByJvxBaseId c !! j = Some fe ->
     In el (frameElementsOf fe) -> ce_id el ∈ used) ->
  runCall c used = ([], used).
Proof.
  intros Hall Hfe. rewrite runCall_firstPick.
  destruct (firstPick c used) as [el|] eqn:E; [|reflexivity].
  destruct (firstPick_source c used el E) as [Hu Hs].
  apply isUnused_not_elem in Hu. exfalso. apply Hu.
  destruct Hs as [Hs|(j & fe & Hj & Hs)]; [apply Hall; exact Hs|].
  apply (Hfe j fe el Hj Hs).
Qed.

Lemma resolver_returns_nothing_when_all_used_witness :
  runCall (sampleCall 0 (Some 0)) (list_to_set ["frm1_HL_a"; "frm1_HL_b"; "frm1_HL_c"])
  = ([], list_to_set ["frm1_HL_a"; "frm1_HL_b"; "frm1_HL_c"]).
Proof.
  apply (resolver_returns_nothing_when_all_used (sampleCall 0 (Some 0))
           (list_to_set ["frm1_HL_a"; "frm1_HL_b"; "frm1_HL_c"])).
  - intros el Hel. apply elem_of_list_to_set, list_elem_of_In.
    simpl in Hel. destruct Hel as [<-|[<-|[<-|[]]]]; simpl; auto.
  - intros j fe el Hj. simpl in Hj. rewrite lookup_empty in Hj. discriminate.
Defined.

(** ** The results of a scan *)

Lemma substring_prefix_length : forall s n,
  String.length (String.substring 0 n s) = Nat.min n (String.length s)
  /\ String.prefix (String.substring 0 n s) s = true.
Proof.
  induction s as [|c s IH]; intros n.
  - destruct n; split; reflexivity.
  - destruct n as [|n]; [split; reflexivity|].
    destruct (IH n) as [Hlen Hpre]. cbn [String.substring String.length String.prefix].
    rewrite Hlen, Hpre. split; [reflexivity|].
    destruct (ascii_dec c c); [reflexivity|congruence].
Qed.

Lemma nullIfEmpty_not_empty {A} (l : list A) : nullIfEmpty l <> Some [].
Proof. destruct l; discriminate. Qed.

(** X10: The scan returns one result for each element, in document order, with
    the element's id and a prefix of its HTML of 500 code units at most; a
    list of models is either absent or not empty. *)
Theorem scan_results_follow_the_elements
    (Rect : Type) (getClientRects : Element -> Range -> list Rect)
    (elements : list Element) :
  Forall2 (fun el e =>
      er_id e = el_id el
      /\ String.length (er_outerHTML e) <= 500
      /\ String.prefix (er_outerHTML e) (el_outerHTML el) = true
      /\ er_brokenModels e <> Some []
      /\ er_allModelStatuses e <> Some [])
    elements (processElements Rect getClientRects elements).
Proof.
  unfold processElements. induction elements as [|el elements IH]; [constructor|].
  cbn [map]. constructor; [|exact IH].
  cbn [er_id er_outerHTML er_brokenModels er_allModelStatuses].
  destruct (substring_prefix_length (el_outerHTML el) 500) as [Hlen Hpre].
  split; [reflexivity|]. split; [rewrite Hlen; apply Nat.le_min_l|].
  split; [exact Hpre|]. split; apply nullIfEmpty_not_empty.
Qed.

(** ** The navigation and the error response *)

Lemma indexOfAux_complete t : forall s pos i,
  startsWith (drop i s) t = true -> exists j, indexOfAux t s pos = Some j.
Proof.
  induction s as [|d s IH]; intros pos i H; rewrite indexOfAux_eq.
  - rewrite drop_nil in H. rewrite H. eauto.
  - destruct (startsWith (d :: s) t) eqn:E; [eauto|].
    destruct i as [|i]; [rewrite drop_0 in H; congruence|]. cbn [drop] in H.
    apply (IH (S pos) i H).
Qed.

Lemma includes_occurs s t :
  includes s t = true <-> exists i, startsWith (drop i s) t = true.
Proof.
  unfold includes. split.
  - destruct (indexOf s t 0) as [i|] eqn:E; [|discriminate].
    intros _. exists i. eapply indexOf_occurs. exact E.
  - intros [i H]. unfold indexOf. rewrite Nat.min_0_l, drop_0.
    destruct (indexOfAux_complete t s 0 i H) as [j ->]. reflexivity.
Qed.

Lemma includes_app_r a b t : includes b t = true -> includes (a ++ b) t = true.
Proof.
  rewrite !includes_occurs. intros [i H]. exists (length a + i).
  rewrite drop_app_add. exact H.
Qed.

Lemma str_append a b : str (a ++ b)%string = str a ++ str b.
Proof.
  induction a as [|c a IH]; [reflexivity|].
  change (c :: str (a ++ b)%string = c :: (str a ++ str b)). f_equal. exact IH.
Qed.

Lemma mentions_append_r a b k : mentions b k = true -> mentions (a ++ b)%string k = true.
Proof. unfold mentions. rewrite str_append. apply includes_app_r. Qed.

Lemma navigationLoop_step goto remaining attempt st :
  navigationLoop goto (S remaining) attempt st
  = match goto attempt with
    | None => {| navigationSuccess := true; lastError := lastError st;
                 events := events st ++ [Goto attempt] |}
    | Some navError => navigationLoop goto remaining (S attempt) (afterFailure attempt navError st)
    end.
Proof.
  cbn [navigationLoop]. destruct (goto attempt) as [e|]; [|reflexivity].
  unfold afterFailure.
  destruct (isConnectionError (orString (err_message e) (err_toString e)));
    destruct (attempt <? maxRetries); reflexivity.
Qed.

Lemma afterFailure_fields attempt e st :
  navigationSuccess (afterFailure attempt e st) = navigationSuccess st
  /\ lastError (afterFailure attempt e st) = Some e
  /\ events (afterFailure attempt e st)
     = events st ++ Goto attempt
         :: (if attempt <? maxRetries
             then [Pause (if isConnectionError (orString (err_message e) (err_toString e))
                          then N.of_nat attempt * 2000 else 2000)%N]
             else []).
Proof.
  unfold afterFailure. destruct (attempt <? maxRetries); cbn; [|auto].
  rewrite <- app_assoc. auto.
Qed.

(** X21: The navigation calls [page.goto] for the attempts 1, 2, ... and stops
    at the first one that succeeds or after the third; it pauses once
    between two attempts, never after the last one, for six seconds
    altogether at most.  It succeeds exactly when one of these attempts
    does; when none does, [lastError] is the error of the third attempt. *)
Theorem navigation_stops_at_first_success
    (goto : nat -> option JsError) (launchError : option JsError) :
  exists k,
    1 <= k <= maxRetries
    /\ gotosOf (events (navigate goto launchError)) = seq 1 k
    /\ (forall a, 1 <= a < k -> goto a <> None)
    /\ last (events (navigate goto launchError)) = Some (Goto k)
    /\ length (pausesOf (events (navigate goto launchError))) = k - 1
    /\ (fold_right N.add 0 (pausesOf (events (navigate goto launchError))) <= 6000)%N
    /\ (if navigationSuccess (navigate goto launchError) then goto k = None
        else k = maxRetries
             /\ lastError (navigate goto launchError) = goto k
             /\ goto k <> None).
Proof.
  unfold navigate. change (navigationLoop goto maxRetries 1) with (navigationLoop goto 3 1).
  assert (Hlt : forall a, 1 <= a < 3 -> a = 1 \/ a = 2) by (intros; lia).
  assert (Hsum : forall c1 c2 : bool,
            ((if c1 then N.of_nat 1 * 2000 else 2000)
             + ((if c2 then N.of_nat 2 * 2000 else 2000) + 0) <= 6000)%N)
    by (intros [] []; cbn; lia).
  set (st0 := {| navigationSuccess := false; lastError := launchError; events := [] |}).
  rewrite navigationLoop_step.
  destruct (goto 1) as [e1|] eqn:E1.
  2:{ exists 1. unfold maxRetries. cbn. repeat split; try lia; try assumption; reflexivity. }
  destruct (afterFailure_fields 1 e1 st0) as (Hs1 & Hl1 & He1).
  change (1 <? maxRetries) with true in He1. cbn [events st0 app] in He1.
  rewrite navigationLoop_step.
  destruct (goto 2) as [e2|] eqn:E2.
  2:{ exists 2. unfold maxRetries. cbn [navigationSuccess lastError events]. rewrite He1.
      cbn [gotosOf pausesOf flat_map app seq last length fold_right].
      repeat split; try lia; try assumption; try reflexivity.
      - intros a Ha. assert (a = 1) by lia. subst a. congruence.
      - destruct (isConnectionError _); cbn; lia. }
  destruct (afterFailure_fields 2 e2 (afterFailure 1 e1 st0)) as (Hs2 & Hl2 & He2).
  change (2 <? maxRetries) with true in He2. rewrite He1 in He2. cbn [app] in He2.
  rewrite navigationLoop_step.
  exists 3. unfold maxRetries.
  destruct (goto 3) as [e3|] eqn:E3.
  - cbn [navigationLoop].
    destruct (afterFailure_fields 3 e3 (afterFailure 2 e2 (afterFailure 1 e1 st0)))
      as (Hs3 & Hl3 & He3).
    change (3 <? maxRetries) with false in He3. rewrite He2 in He3. cbn [app] in He3.
    rewrite Hs3, Hs2, Hs1, Hl3, He3.
    cbn [st0 navigationSuccess gotosOf pausesOf flat_map app seq last length fold_right].
    repeat split; try lia; try assumption; try reflexivity; try congruence.
    + intros a Ha. destruct (Hlt a Ha) as [->| ->]; congruence.
    + apply Hsum.
  - cbn [navigationSuccess lastError events]. rewrite He2.
    cbn [gotosOf pausesOf flat_map app seq last length fold_right].
    repeat split; try lia; try assumption; try reflexivity.
    + intros a Ha. destruct (Hlt a Ha) as [->| ->]; congruence.
    + apply Hsum.
Qed.

Lemma navigate_all_fail goto launchError e1 e2 e3 :
  goto 1 = Some e1 -> goto 2 = Some e2 -> goto 3 = Some e3 ->
  navigationSuccess (navigate goto launchError) = false
  /\ lastError (navigate goto launchError) = Some e3.
Proof.
  intros E1 E2 E3. unfold navigate.
  change (navigationLoop goto maxRetries 1) with (navigationLoop goto 3 1).
  rewrite navigationLoop_step, E1, navigationLoop_step, E2, navigationLoop_step, E3.
  cbn [navigationLoop].
  set (st2 := afterFailure 2 e2 _).
  destruct (afterFailure_fields 3 e3 st2) as (Hs3 & Hl3 & _).
  destruct (afterFailure_fields 2 e2 (afterFailure 1 e1
              {| navigationSuccess := false; lastError := launchError; events := [] |}))
    as (Hs2 & _ & _).
  destruct (afterFailure_fields 1 e1
              {| navigationSuccess := false; lastError := launchError; events := [] |})
    as (Hs1 & _ & _).
  split; [|exact Hl3]. rewrite Hs3. unfold st2. rewrite Hs2, Hs1. reflexivity.
Qed.

(** X22: When all three navigation attempts fail, the request is answered with
    status 500 and the reworded message of the third error; when that error
    mentions [ECONNRESET], the answer is the fixed text about a connection
    reset, whatever the earlier attempts failed with. *)
Theorem navigation_failure_is_reported
    (url : string) (goto : nat -> option JsError) (launchError : option JsError)
    (e1 e2 e3 : JsError) :
  truthy url = true ->
  goto 1 = Some e1 -> goto 2 = Some e2 -> goto 3 = Some e3 ->
  countRequest url (afterNavigation (navigate goto launchError))
  = Returned 500 (Failure (rewordError
      ("Failed to navigate to URL after 3 attempts: "
       ++ orString (err_message e3) "Unknown error")%string))
  /\ (mentions (err_message e3) "ECONNRESET" = true ->
      countRequest url (afterNavigation (navigate goto launchError))
      = Returned 500 (Failure
          "Connection was reset by the server. The website may be blocking automated requests, the URL may be unreachable, or there may be network issues. Please try again or check if the URL is accessible.")).
Proof.
  intros Hurl E1 E2 E3.
  destruct (navigate_all_fail goto launchError e1 e2 e3 E1 E2 E3) as [Hs Hl].
  assert (Heq : countRequest url (afterNavigation (navigate goto launchError))
    = Returned 500 (Failure (rewordError
        ("Failed to navigate to URL after 3 attempts: "
         ++ orString (err_message e3) "Unknown error")%string))).
  { unfold countRequest, afterNavigation. rewrite Hurl, Hs, Hl. reflexivity. }
  split; [exact Heq|]. intros Hm. rewrite Heq. do 2 f_equal.
  unfold rewordError.
  assert (Hmsg : orString (err_message e3) "Unknown error" = err_message e3).
  { unfold orString, truthy. destruct (String.eqb_spec (err_message e3) ""); [|reflexivity].
    rewrite e in Hm. discriminate Hm. }
  rewrite Hmsg.
  set (msg := ("Failed to navigate to URL after 3 attempts: " ++ err_message e3)%string).
  assert (Ht : orString msg "Unknown error" = msg) by reflexivity.
  rewrite Ht.
  assert (Hk : mentions msg "ECONNRESET" = true) by (apply mentions_append_r; exact Hm).
  rewrite Hk. reflexivity.
Qed.

Lemma navigation_failure_is_reported_witness :
  let reset := {| err_message := "read ECONNRESET"; err_toString := "Error: read ECONNRESET" |} in
  countRequest "https://preview.example/"
    (afterNavigation (navigate (fun _ => Some reset) None))
  = Returned 500 (Failure (rewordError
      ("Failed to navigate to URL after 3 attempts: "
       ++ orString "read ECONNRESET" "Unknown error")%string)).
Proof.
  intros reset.
  apply (navigation_failure_is_reported "https://preview.example/"
           (fun _ => Some reset) None reset reset reset); reflexivity.
Defined.

Lemma mentions_false_all errorMessage :
  Forall (fun k => mentions errorMessage k = false) errorKeywords ->
  mentions errorMessage "ECONNRESET" = false
  /\ mentions errorMessage "ECONNREFUSED" = false
  /\ mentions errorMessage "ETIMEDOUT" = false
  /\ mentions errorMessage "timeout" = false
  /\ mentions errorMessage "net::ERR" = false
  /\ mentions errorMessage "Protocol error" = false
  /\ mentions errorMessage "Target closed" = false
  /\ mentions errorMessage "Navigation failed" = false.
Proof.
  unfold errorKeywords. intros H.
  repeat (apply Forall_cons in H as [? H]). tauto.
Qed.

Lemma append_nonempty a b : a <> "" -> (a ++ b)%string <> "".
Proof. destruct a; [congruence|discriminate]. Qed.

(** X23: The message of an error response is never empty; an error whose
    message holds none of the keywords is reported with its own message,
    and an error without a message as [Unknown error]. *)
Theorem error_message_is_kept_or_reworded (message : string) :
  rewordError message <> ""
  /\ (Forall (fun k => mentions (orString message "Unknown error") k = false) errorKeywords ->
      rewordError message = orString message "Unknown error")
  /\ rewordError "" = "Unknown error".
Proof.
  assert (Hne : orString message "Unknown error" <> "").
  { unfold orString. destruct (truthy message) eqn:E; [|discriminate].
    apply truthy_nonempty. exact E. }
  split; [|split].
  - unfold rewordError.
    destruct (mentions _ "ECONNRESET"); [discriminate|].
    destruct (mentions _ "ECONNREFUSED"); [discriminate|].
    destruct (mentions _ "ETIMEDOUT" || mentions _ "timeout"); [discriminate|].
    destruct (mentions _ "net::ERR"); [discriminate|].
    destruct (mentions _ "Protocol error" || mentions _ "Target closed"); [discriminate|].
    destruct (mentions _ "Navigation failed"); [discriminate|]. exact Hne.
  - intros H. apply mentions_false_all in H as (H1 & H2 & H3 & H4 & H5 & H6 & H7 & H8).
    unfold rewordError. rewrite H1, H2, H3, H4, H5, H6, H7, H8. reflexivity.
  - vm_compute. reflexivity.
Qed.

(** ** The title of a creative *)

Lemma isTrimmed_trim s : isTrimmed s = true -> trim s = s.
Proof.
  unfold isTrimmed. intros H. apply andb_true_iff in H as [Hhead Hlast].
  unfold trim, trimEnd. rewrite (trimStart_head s).
  2:{ destruct s; [exact I|]. apply negb_true_iff in Hhead. exact Hhead. }
  rewrite trimStart_head; [apply rev_involutive|].
  rewrite last_rev_head in Hlast. destruct (rev s) as [|ch r]; simpl in *; [exact I|].
  apply negb_true_iff in Hlast. exact Hlast.
Qed.

Lemma trimStart_headed : forall s,
  match trimStart s with ch :: _ => isWhitespace ch = false | [] => True end.
Proof.
  induction s as [|ch s IH]; simpl; [exact I|].
  destruct (isWhitespace ch) eqn:E; [exact IH|exact E].
Qed.

Lemma trimEnd_trimmed : forall s,
  match s with ch :: _ => isWhitespace ch = false | [] => True end ->
  isTrimmed (trimEnd s) = true.
Proof.
  intros s. induction s as [|ch s IH] using rev_ind; intros Hhead; [reflexivity|].
  rewrite trimEnd_snoc. destruct (isWhitespace ch) eqn:Ews.
  - apply IH. destruct s as [|d s]; [exact I|exact Hhead].
  - unfold isTrimmed. rewrite last_snoc, Ews.
    destruct s as [|d s]; simpl in *; [rewrite Ews; reflexivity|rewrite Hhead; reflexivity].
Qed.

Lemma trim_isTrimmed s : isTrimmed (trim s) = true.
Proof. unfold trim. apply trimEnd_trimmed, trimStart_headed. Qed.

Lemma trim_idempotent s : trim (trim s) = trim s.
Proof. apply isTrimmed_trim, trim_isTrimmed. Qed.

Lemma isTrimmed_app a b :
  a <> [] -> b <> [] -> isTrimmed a = true -> isTrimmed b = true -> isTrimmed (a ++ b) = true.
Proof.
  intros Ha Hb Hta Htb. unfold isTrimmed in *.
  apply andb_true_iff in Hta as [Hha _]. apply andb_true_iff in Htb as [_ Hlb].
  destruct a as [|c a]; [congruence|]. cbn [app]. rewrite Hha. cbn [andb].
  change (c :: a ++ b) with ((c :: a) ++ b).
  destruct b as [|d b] using rev_ind; [congruence|].
  rewrite app_assoc, last_snoc. rewrite last_snoc in Hlb. exact Hlb.
Qed.

(** X17: The title is empty only when the text of the title element is blank;
    a text that does not start with the words [Preview of variation] is
    taken as it is, trimmed. *)
Theorem title_is_the_trimmed_text_without_prefix (innerText : text) :
  (titleOf innerText = [] <-> trim innerText = [])
  /\ (matchItems previewPattern (trim innerText) = None ->
      titleOf innerText = trim innerText).
Proof.
  unfold titleOf. split.
  - destruct (trim (removePreviewPrefix (trim innerText))) as [|c cleaned] eqn:E;
      cbn [nonEmptyList]; [tauto|].
    split; [discriminate|]. intros Ht.
    rewrite Ht in E. vm_compute in E. discriminate E.
  - intros Hno. unfold removePreviewPrefix. rewrite Hno, trim_idempotent.
    destruct (trim innerText); reflexivity.
Qed.

(** X18: The words [Preview of variation] in front of a name are removed: the
    title of such a text is the name. *)
Theorem title_drops_the_preview_prefix (name : text) :
  name <> [] -> isTrimmed name = true ->
  titleOf (str "Preview of variation " ++ name) = name.
Proof.
  intros Hne Ht. unfold titleOf.
  assert (Hfull : trim (str "Preview of variation " ++ name)
                  = str "Preview of variation " ++ name).
  { apply isTrimmed_trim.
    change (str "Preview of variation " ++ name)
      with (str "Preview of variation" ++ ([space] ++ name)).
    assert (Hsp : exists d rest, name = d :: rest) by (destruct name; [congruence|eauto]).
    destruct Hsp as (d & rest & ->).
    unfold isTrimmed in *. apply andb_true_iff in Ht as [_ Hl]. apply andb_true_iff.
    split; [reflexivity|].
    change (str "Preview of variation" ++ [space] ++ d :: rest)
      with ((str "Preview of variation" ++ [space]) ++ d :: rest).
    rewrite last_app. cbn [last] in *.
    destruct (last (d :: rest)) eqn:El; [exact Hl|].
    apply last_None in El. discriminate El. }
  rewrite Hfull.
  assert (Hrm : removePreviewPrefix (str "Preview of variation " ++ name) = name).
  { unfold removePreviewPrefix.
    assert (Hm : matchItems previewPattern (str "Preview of variation " ++ name) = Some 20).
    { destruct name as [|d rest]; [congruence|]. vm_compute. reflexivity. }
    rewrite Hm.
    change (drop 20 (str "Preview of variation " ++ name)) with (space :: name).
    cbn [trimStart]. rewrite space_isWhitespace.
    apply trimStart_head. unfold isTrimmed in Ht. apply andb_true_iff in Ht as [Hh _].
    destruct name; [exact I|]. apply negb_true_iff in Hh. exact Hh. }
  rewrite Hrm, (isTrimmed_trim name Ht).
  destruct name; [congruence|reflexivity].
Qed.

Lemma title_drops_the_preview_prefix_witness :
  titleOf (str "Preview of variation " ++ str "Char_Limit-10") = str "Char_Limit-10".
Proof.
  apply (title_drops_the_preview_prefix (str "Char_Limit-10")).
  - discriminate.
  - vm_compute. reflexivity.
Defined.

(** ** The browser launch *)

Section LaunchFacts.

Variable platform : string.
Variable launch : nat -> nat -> option JsError.
Variable n : nat.

Lemma launchesOf_app l k : launchesOf (l ++ k) = launchesOf l ++ launchesOf k.
Proof. unfold launchesOf. apply flat_map_app. Qed.

Lemma launchPausesOf_app l k : launchPausesOf (l ++ k) = launchPausesOf l ++ launchPausesOf k.
Proof. unfold launchPausesOf. apply flat_map_app. Qed.

Lemma optionLoop_spec attempt : forall remaining optIndex st,
  optIndex + remaining = n -> browserLaunched st = false ->
  launchPausesOf (ls_events (fst (optionLoop platform launch n attempt remaining optIndex st)))
  = launchPausesOf (ls_events st)
  /\ ((exists j, optIndex <= j < n
         /\ (forall i, optIndex <= i < j -> launch attempt i <> None)
         /\ launch attempt j = None
         /\ browserLaunched (fst (optionLoop platform launch n attempt remaining optIndex st)) = true
         /\ browser (fst (optionLoop platform launch n attempt remaining optIndex st)) = Some j
         /\ snd (optionLoop platform launch n attempt remaining optIndex st) = None
         /\ launchesOf (ls_events (fst (optionLoop platform launch n attempt remaining optIndex st)))
            = launchesOf (ls_events st) ++ map (pair attempt) (seq optIndex (S j - optIndex)))
      \/ ((forall i, optIndex <= i < n -> launch attempt i <> None)
          /\ browserLaunched (fst (optionLoop platform launch n attempt remaining optIndex st)) = false
          /\ launchesOf (ls_events (fst (optionLoop platform launch n attempt remaining optIndex st)))
             = launchesOf (ls_events st) ++ map (pair attempt) (seq optIndex remaining)
          /\ snd (optionLoop platform launch n attempt remaining optIndex st)
             = if (0 <? remaining) && (attempt =? maxRetries)
               then option_map (helpfulMessage platform n) (launch attempt (n - 1))
               else None)).
Proof.
  induction remaining as [|remaining IH]; intros optIndex st Hn Hb.
  - cbn [optionLoop fst snd]. split; [reflexivity|]. right.
    split; [intros i Hi; lia|]. split; [exact Hb|]. split; [|reflexivity].
    cbn [seq map]. rewrite app_nil_r. reflexivity.
  - cbn [optionLoop]. destruct (launch attempt optIndex) as [e|] eqn:El.
    + destruct ((optIndex =? n - 1) && (attempt =? maxRetries)) eqn:Eg.
      * apply andb_true_iff in Eg as [Eo Ea]. apply Nat.eqb_eq in Eo.
        assert (remaining = 0) by lia. subst remaining.
        cbn [fst snd ls_events launchLogged browserLaunched].
        split; [rewrite launchPausesOf_app; cbn; apply app_nil_r|]. right.
        split; [intros i Hi; assert (i = optIndex) by lia; subst i; congruence|].
        split; [exact Hb|]. split; [rewrite launchesOf_app; reflexivity|].
        rewrite Ea. cbn [Nat.ltb Nat.leb andb]. rewrite <- Eo, El. reflexivity.
      * set (st' := {| browserLaunched := browserLaunched (launchLogged (Launch attempt optIndex) st);
                       browser := browser (launchLogged (Launch attempt optIndex) st);
                       ls_lastError := Some e;
                       ls_events := ls_events (launchLogged (Launch attempt optIndex) st) |}).
        assert (Hn' : S optIndex + remaining = n) by lia.
        destruct (IH (S optIndex) st' Hn' Hb) as [Hp Hcases].
        assert (Hev : ls_events st' = ls_events st ++ [Launch attempt optIndex]) by reflexivity.
        rewrite Hev, launchPausesOf_app in Hp. cbn [launchPausesOf flat_map app] in Hp.
        rewrite app_nil_r in Hp. split; [exact Hp|].
        rewrite Hev, launchesOf_app in Hcases.
        cbn [launchesOf flat_map app] in Hcases. fold launchesOf in Hcases.
        destruct Hcases as [(j & Hj & Hfail & Hok & H1 & H2 & H3 & H4)|(Hfail & H1 & H2 & H3)].
        -- left. exists j. split; [lia|].
           split; [intros i Hi; destruct (Nat.eq_dec i optIndex) as [->|Hne];
                   [congruence|apply Hfail; lia]|].
           repeat (split; [assumption|]).
           rewrite H4, <- app_assoc. cbn [app].
           replace (S j - optIndex) with (S (S j - S optIndex)) by lia. reflexivity.
        -- right.
           split; [intros i Hi; destruct (Nat.eq_dec i optIndex) as [->|Hne];
                   [congruence|apply Hfail; lia]|].
           split; [exact H1|]. split; [rewrite H2, <- app_assoc; reflexivity|].
           rewrite H3. cbn [Nat.ltb Nat.leb andb].
           destruct (attempt =? maxRetries) eqn:Ea; [|rewrite andb_false_r; reflexivity].
           rewrite andb_true_r in Eg. apply Nat.eqb_neq in Eg.
           destruct remaining; [lia|reflexivity].
    + cbn [fst snd ls_events launchLogged browserLaunched browser].
      split; [rewrite launchPausesOf_app; cbn; apply app_nil_r|]. left.
      exists optIndex. split; [lia|]. split; [intros i Hi; lia|].
      repeat (split; [reflexivity || assumption|]).
      rewrite launchesOf_app. replace (S optIndex - optIndex) with 1 by lia. reflexivity.
Qed.

Lemma round_spec attempt st :
  0 < n -> browserLaunched st = false ->
  launchPausesOf (ls_events (fst (optionLoop platform launch n attempt n 0 st)))
  = launchPausesOf (ls_events st)
  /\ ((exists j, j < n
         /\ (forall i, i < j -> launch attempt i <> None)
         /\ launch attempt j = None
         /\ browserLaunched (fst (optionLoop platform launch n attempt n 0 st)) = true
         /\ browser (fst (optionLoop platform launch n attempt n 0 st)) = Some j
         /\ snd (optionLoop platform launch n attempt n 0 st) = None
         /\ launchesOf (ls_events (fst (optionLoop platform launch n attempt n 0 st)))
            = launchesOf (ls_events st) ++ map (pair attempt) (seq 0 j) ++ [(attempt, j)])
      \/ ((forall i, i < n -> launch attempt i <> None)
          /\ browserLaunched (fst (optionLoop platform launch n attempt n 0 st)) = false
          /\ launchesOf (ls_events (fst (optionLoop platform launch n attempt n 0 st)))
             = launchesOf (ls_events st) ++ round n attempt
          /\ snd (optionLoop platform launch n attempt n 0 st)
             = if attempt =? maxRetries
               then option_map (helpfulMessage platform n) (launch attempt (n - 1))
               else None)).
Proof.
  intros Hpos Hb. destruct (optionLoop_spec attempt n 0 st eq_refl Hb) as [Hp Hcases].
  split; [exact Hp|].
  destruct Hcases as [(j & Hj & Hfail & Hok & H1 & H2 & H3 & H4)|(Hfail & H1 & H2 & H3)].
  - left. exists j. split; [lia|]. split; [intros i Hi; apply Hfail; lia|].
    repeat (split; [assumption|]).
    rewrite H4. rewrite Nat.sub_0_r, seq_S, map_app. reflexivity.
  - right. split; [intros i Hi; apply Hfail; lia|]. split; [exact H1|].
    split; [exact H2|]. rewrite H3.
    destruct n; [lia|]. reflexivity.
Qed.

Lemma round_split attempt j : j < n ->
  round n attempt
  = map (pair attempt) (seq 0 j) ++ (attempt, j) :: map (pair attempt) (seq (S j) (n - S j)).
Proof.
  intros Hj. unfold round.
  replace n with (j + S (n - S j)) at 1 by lia.
  rewrite seq_app, map_app. reflexivity.
Qed.

Lemma round_fails attempt j p :
  (forall i, i < j -> launch attempt i <> None) ->
  In p (map (pair attempt) (seq 0 j)) -> launch (fst p) (snd p) <> None.
Proof.
  intros Hfail Hp. apply in_map_iff in Hp as (i & <- & Hi).
  apply in_seq in Hi. cbn [fst snd]. apply Hfail. lia.
Qed.

End LaunchFacts.

Lemma attemptLoop_step platform launch n remaining attempt st :
  attemptLoop platform launch n (S remaining) attempt st
  = match snd (optionLoop platform launch n attempt n 0 st) with
    | Some message => (fst (optionLoop platform launch n attempt n 0 st), Some message)
    | None =>
        if browserLaunched (fst (optionLoop platform launch n attempt n 0 st))
        then (fst (optionLoop platform launch n attempt n 0 st), None)
        else attemptLoop platform launch n remaining (S attempt)
               (if attempt <? maxRetries
                then launchLogged (LaunchPause (1000 * N.of_nat attempt)%N)
                       (fst (optionLoop platform launch n attempt n 0 st))
                else fst (optionLoop platform launch n attempt n 0 st))
    end.
Proof.
  cbn [attemptLoop]. destruct (optionLoop platform launch n attempt n 0 st) as [st' [m|]];
    cbn [fst snd]; [reflexivity|].
  destruct (browserLaunched st'); [reflexivity|].
  destruct (attempt <? maxRetries); reflexivity.
Qed.

(** X24: The launch tries the options in order, round after round, for three
    rounds at most, and stops at the first launch that succeeds: the browser
    is the one of that launch, and one pause of 1000 ms times the round
    number was made after each round that failed.  When all launches of the
    three rounds fail, the error thrown is the one with the hints, made
    from the error of the last launch; the error of the statement after the
    loops is never thrown. *)
Theorem launch_follows_the_schedule
    (platform : string) (launch : nat -> nat -> option JsError) (n : nat) :
  0 < n ->
  (exists failed a i rest,
      launchesOf (ls_events (fst (launchBrowser platform launch n))) = failed ++ [(a, i)]
      /\ schedule n = failed ++ (a, i) :: rest
      /\ (forall p, In p failed -> launch (fst p) (snd p) <> None)
      /\ launch a i = None
      /\ snd (launchBrowser platform launch n) = Next tt
      /\ browser (fst (launchBrowser platform launch n)) = Some i
      /\ launchPausesOf (ls_events (fst (launchBrowser platform launch n)))
         = map (fun k => (1000 * N.of_nat k)%N) (seq 1 (a - 1)))
  \/ (launchesOf (ls_events (fst (launchBrowser platform launch n))) = schedule n
      /\ (forall p, In p (schedule n) -> launch (fst p) (snd p) <> None)
      /\ launchPausesOf (ls_events (fst (launchBrowser platform launch n)))
         = map (fun k => (1000 * N.of_nat k)%N) (seq 1 2)
      /\ exists e, launch maxRetries (n - 1) = Some e
           /\ snd (launchBrowser platform launch n)
              = Thrown (helpfulMessage platform n e)).
Proof.
  intros Hpos. unfold launchBrowser, schedule.
  change (seq 1 maxRetries) with [1; 2; 3]. cbn [flat_map]. rewrite app_nil_r.
  set (st0 := {| browserLaunched := false; browser := None; ls_lastError := None;
                 ls_events := [] |}).
  change (attemptLoop platform launch n maxRetries 1 st0)
    with (attemptLoop platform launch n 3 1 st0).
  rewrite attemptLoop_step.
  destruct (round_spec platform launch n 1 st0 Hpos eq_refl) as [Hp1 Hc1].
  set (st1 := fst (optionLoop platform launch n 1 n 0 st0)) in *.
  destruct Hc1 as [(j & Hj & Hfail & Hok & Hb & Hbr & Hm & Hl)|(Hf1 & Hb1 & Hl1 & Hm1)].
  { rewrite Hm, Hb. cbv beta iota. rewrite Hb. cbn [fst snd]. left.
    exists (map (pair 1) (seq 0 j)), 1, j,
      (map (pair 1) (seq (S j) (n - S j)) ++ round n 2 ++ round n 3).
    split; [exact Hl|]. split; [rewrite (round_split n 1 j Hj), <- app_assoc; reflexivity|].
    split; [intros p Hin; eapply round_fails; eauto|].
    repeat (split; [assumption || reflexivity|]). exact Hp1. }
  change (1 =? maxRetries) with false in Hm1. rewrite Hm1, Hb1.
  change (1 <? maxRetries) with true. cbv beta iota.
  set (st1' := launchLogged (LaunchPause (1000 * N.of_nat 1)%N) st1).
  assert (Hb1' : browserLaunched st1' = false) by exact Hb1.
  assert (Hl1' : launchesOf (ls_events st1') = round n 1).
  { unfold st1'. cbn [launchLogged ls_events]. rewrite launchesOf_app, Hl1.
    cbn. rewrite app_nil_r. reflexivity. }
  assert (Hp1' : launchPausesOf (ls_events st1') = [(1000 * N.of_nat 1)%N]).
  { unfold st1'. cbn [launchLogged ls_events]. rewrite launchPausesOf_app, Hp1. reflexivity. }
  rewrite attemptLoop_step.
  destruct (round_spec platform launch n 2 st1' Hpos Hb1') as [Hp2 Hc2].
  set (st2 := fst (optionLoop platform launch n 2 n 0 st1')) in *.
  destruct Hc2 as [(j & Hj & Hfail & Hok & Hb & Hbr & Hm & Hl)|(Hf2 & Hb2 & Hl2 & Hm2)].
  { rewrite Hm, Hb. cbv beta iota. rewrite Hb. cbn [fst snd]. left.
    exists (round n 1 ++ map (pair 2) (seq 0 j)), 2, j,
      (map (pair 2) (seq (S j) (n - S j)) ++ round n 3).
    split; [rewrite Hl, Hl1', app_assoc; reflexivity|].
    split; [rewrite (round_split n 2 j Hj), <- !app_assoc; reflexivity|].
    split.
    { intros p Hin. apply in_app_or in Hin as [Hin|Hin].
      - eapply (round_fails launch 1 n); eauto.
      - eapply round_fails; eauto. }
    repeat (split; [assumption || reflexivity|]). rewrite Hp2, Hp1'. reflexivity. }
  change (2 =? maxRetries) with false in Hm2. rewrite Hm2, Hb2.
  change (2 <? maxRetries) with true. cbv beta iota.
  set (st2' := launchLogged (LaunchPause (1000 * N.of_nat 2)%N) st2).
  assert (Hb2' : browserLaunched st2' = false) by exact Hb2.
  assert (Hl2' : launchesOf (ls_events st2') = round n 1 ++ round n 2).
  { unfold st2'. cbn [launchLogged ls_events]. rewrite launchesOf_app, Hl2, Hl1'.
    cbn. rewrite app_nil_r. reflexivity. }
  assert (Hp2' : launchPausesOf (ls_events st2')
                 = [(1000 * N.of_nat 1)%N; (1000 * N.of_nat 2)%N]).
  { unfold st2'. cbn [launchLogged ls_events]. rewrite launchPausesOf_app, Hp2, Hp1'.
    reflexivity. }
  rewrite attemptLoop_step.
  destruct (round_spec platform launch n 3 st2' Hpos Hb2') as [Hp3 Hc3].
  set (st3 := fst (optionLoop platform launch n 3 n 0 st2')) in *.
  destruct Hc3 as [(j & Hj & Hfail & Hok & Hb & Hbr & Hm & Hl)|(Hf3 & Hb3 & Hl3 & Hm3)].
  { rewrite Hm, Hb. cbv beta iota. rewrite Hb. cbn [fst snd]. left.
    exists (round n 1 ++ round n 2 ++ map (pair 3) (seq 0 j)), 3, j,
      (map (pair 3) (seq (S j) (n - S j))).
    split; [rewrite Hl, Hl2', <- !app_assoc; reflexivity|].
    split; [rewrite (round_split n 3 j Hj), <- !app_assoc; reflexivity|].
    split.
    { intros p Hin. apply in_app_or in Hin as [Hin|Hin].
      - eapply (round_fails launch 1 n); eauto.
      - apply in_app_or in Hin as [Hin|Hin].
        + eapply (round_fails launch 2 n); eauto.
        + eapply round_fails; eauto. }
    repeat (split; [assumption || reflexivity|]). rewrite Hp3, Hp2'. reflexivity. }
  change (3 =? maxRetries) with true in Hm3.
  destruct (launch 3 (n - 1)) as [e|] eqn:Ee; [|exfalso; apply (Hf3 (n - 1)); [lia|exact Ee]].
  cbn [option_map] in Hm3. rewrite Hm3. cbv beta iota. cbn [fst snd]. right.
  split; [rewrite Hl3, Hl2', <- app_assoc; reflexivity|].
  split.
  { intros p Hin. apply in_app_or in Hin as [Hin|Hin].
    - eapply (round_fails launch 1 n); eauto.
    - apply in_app_or in Hin as [Hin|Hin].
      + eapply (round_fails launch 2 n); eauto.
      + eapply (round_fails launch 3 n); eauto. }
  split; [rewrite Hp3, Hp2'; reflexivity|].
  exists e. split; [exact Ee|reflexivity].
Qed.

Lemma launch_follows_the_schedule_witness :
  snd (launchBrowser "linux" (fun attempt optIndex =>
         if (attempt =? 2) && (optIndex =? 1) then None
         else Some {| err_message := "spawn ENOENT"; err_toString := "Error: spawn ENOENT" |}) 4)
  = Next tt.
Proof.
  destruct (launch_follows_the_schedule "linux" (fun attempt optIndex =>
         if (attempt =? 2) && (optIndex =? 1) then None
         else Some {| err_message := "spawn ENOENT"; err_toString := "Error: spawn ENOENT" |}) 4)
    as [(failed & a & i & rest & _ & _ & _ & _ & H & _)|(_ & Hall & _)].
  - lia.
  - exact H.
  - exfalso. apply (Hall (2, 1)); [vm_compute; auto 10|reflexivity].
Defined.

Lemma find_first_split {A} (p : A -> bool) : forall l,
  match find p l with
  | Some x => exists before after,
      l = before ++ x :: after /\ p x = true /\ Forall (fun y => p y = false) before
  | None => Forall (fun y => p y = false) l
  end.
Proof.
  induction l as [|y l IH]; cbn [find]; [constructor|].
  destruct (p y) eqn:E.
  - exists [], l. split; [reflexivity|]. split; [exact E|constructor].
  - destruct (find p l) as [x|].
    + destruct IH as (before & after & -> & Hx & Hb).
      exists (y :: before), after. split; [reflexivity|]. split; [exact Hx|].
      constructor; assumption.
    + constructor; assumption.
Qed.

(** X25: The system Chrome is the first candidate path of the platform that
    exists, none when no candidate exists or the platform is not one of
    darwin, linux and win32; with it the launch has six options to try, and
    four without. *)
Theorem system_chrome_is_the_first_existing_candidate
    (platform : string) (env : ProcessEnv) (existsSync : string -> bool) :
  match findSystemChrome platform env existsSync with
  | Some p => exists before after,
      possiblePaths platform env = before ++ p :: after
      /\ existsSync p = true
      /\ Forall (fun q => existsSync q = false) before
  | None => Forall (fun q => existsSync q = false) (possiblePaths platform env)
  end
  /\ (platform <> "darwin" -> platform <> "linux" -> platform <> "win32" ->
      findSystemChrome platform env existsSync = None)
  /\ length (launchOptionsFor (findSystemChrome platform env existsSync))
     = match findSystemChrome platform env existsSync with
       | Some p => if truthy p then 6 else 4
       | None => 4
       end.
Proof.
  split; [apply find_first_split|]. split.
  - intros Hd Hl Hw. unfold findSystemChrome, possiblePaths.
    apply String.eqb_neq in Hd, Hl, Hw. rewrite Hd, Hl, Hw. reflexivity.
  - unfold launchOptionsFor.
    destruct (findSystemChrome platform env existsSync) as [p|]; [|reflexivity].
    destruct (truthy p); reflexivity.
Qed.

(** ** The label of a frame *)









